(** * los: streaming paired-delimiter extraction

    A shallow embedding of [los.go] (the pair automaton and the KMP
    sub-matcher) and of [internal/legex] (the resumable NFA machine), with
    the properties of the specification stated over it.

    Go's [int] is modelled as [Z]; every slice index is checked, and an
    index out of range, a nil dereference or a bad slice bound is the
    outcome [Panic].  Loops carry a fuel argument; [Timeout] is the outcome
    of a run that did not finish within it. *)

From Stdlib Require Import ZArith List Lia Bool.
From Stdlib Require Import Strings.String Strings.Byte.
Import ListNotations.

Open Scope Z_scope.

(** ** Outcomes of Go code *)

Inductive result (A : Type) : Type :=
| Done (a : A)
| Panic
| Timeout.

Arguments Done {A} a.
Arguments Panic {A}.
Arguments Timeout {A}.

Definition bind {A B : Type} (r : result A) (k : A -> result B) : result B :=
  match r with
  | Done a => k a
  | Panic => Panic
  | Timeout => Timeout
  end.

Notation "x <- c ;; k" := (bind c (fun x => k))
  (at level 61, c at next level, right associativity).
Notation "' p <- c ;; k" := (bind c (fun p => k))
  (at level 61, p pattern, c at next level, right associativity).

(** ** Slices *)

Definition bytes := list byte.

Definition len {A : Type} (l : list A) : Z := Z.of_nat (List.length l).

(** [s[i]]: panics when [i] is out of range. *)
Definition at_ {A : Type} (l : list A) (i : Z) : result A :=
  if i <? 0 then Panic
  else match nth_error l (Z.to_nat i) with
       | Some a => Done a
       | None => Panic
       end.

Fixpoint set_nth {A : Type} (l : list A) (n : nat) (v : A) : list A :=
  match l, n with
  | [], _ => []
  | _ :: tl, O => v :: tl
  | a :: tl, S k => a :: set_nth tl k v
  end.

(** [s[i] = v]: panics when [i] is out of range. *)
Definition upd {A : Type} (l : list A) (i : Z) (v : A) : result (list A) :=
  if (i <? 0) || (len l <=? i) then Panic
  else Done (set_nth l (Z.to_nat i) v).

Definition zeros (n : Z) : list Z := repeat 0 (Z.to_nat n).

Definition str (s : string) : bytes := list_byte_of_string s.

(** ** The KMP sub-matcher (los.go, kmpPattern) *)

Record kmpPattern : Type := mkKmp {
  lps : list Z;
  length : Z;
  source : bytes
}.

(** The loop of [computeLpsArray]: [for i, j := 1, 0; i < n; { ... }]. *)
Fixpoint computeLpsLoop (fuel : nat) (pattern : bytes) (array : list Z)
    (i j : Z) : result (list Z) :=
  match fuel with
  | O => Timeout
  | S fuel' =>
    if i <? len pattern then
      pi <- at_ pattern i ;;
      pj <- at_ pattern j ;;
      if Byte.eqb pi pj then
        let j := j + 1 in
        array <- upd array i j ;;
        computeLpsLoop fuel' pattern array (i + 1) j
      else if negb (j =? 0) then
        j' <- at_ array (j - 1) ;;
        computeLpsLoop fuel' pattern array i j'
      else
        array <- upd array i 0 ;;
        computeLpsLoop fuel' pattern array (i + 1) j
    else Done array
  end.

Definition computeLpsArray (fuel : nat) (pattern : bytes) : result (list Z) :=
  computeLpsLoop fuel pattern (zeros (len pattern)) 1 0.

Definition newKmpPattern (fuel : nat) (source : bytes) : result kmpPattern :=
  array <- computeLpsArray fuel source ;;
  Done (mkKmp array (len source) source).

(** The scanning loop of [kmpPattern.Match]: [for i < n { ... }]. *)
Fixpoint kmpLoop (fuel : nat) (pat : kmpPattern) (buffer : bytes)
    (i j : Z) : result (Z * Z * bool) :=
  match fuel with
  | O => Timeout
  | S fuel' =>
    if i <? len buffer then
      b <- at_ buffer i ;;
      s <- at_ (source pat) j ;;
      if Byte.eqb b s then
        let i := i + 1 in
        let j := j + 1 in
        if j =? length pat then Done (i - j, j, true)
        else kmpLoop fuel' pat buffer i j
      else if negb (j =? 0) then
        j' <- at_ (lps pat) (j - 1) ;;
        kmpLoop fuel' pat buffer i j'
      else kmpLoop fuel' pat buffer (i + 1) j
    else Done (i - j, j, false)
  end.

Definition kmpMatch (fuel : nat) (pat : kmpPattern) (index offset : Z)
    (buffer : bytes) : result (Z * Z * bool) :=
  if offset =? length pat then Done (index, offset, true)
  else kmpLoop fuel pat buffer (index + offset) offset.

(** ** regexp/syntax and unicode/utf8: what the machine consumes

    The program, its instructions and the empty-width flags are those of
    Go's [regexp/syntax]; the compiler that produces them is outside the
    repository, so a program is a value given to the machine. *)

Inductive InstOp : Type :=
| InstAlt | InstAltMatch | InstCapture | InstEmptyWidth | InstMatch
| InstFail | InstNop | InstRune | InstRune1 | InstRuneAny | InstRuneAnyNotNL.

Record Inst : Type := mkInst {
  Op : InstOp;
  Out : Z;
  Arg : Z;
  Rune : list Z
}.

Record Prog : Type := mkProg {
  Insts : list Inst;   (* Prog.Inst *)
  Start : Z;
  NumCap : Z
}.

Definition EmptyBeginLine : Z := 1.
Definition EmptyEndLine : Z := 2.
Definition EmptyBeginText : Z := 4.
Definition EmptyEndText : Z := 8.
Definition EmptyWordBoundary : Z := 16.
Definition EmptyNoWordBoundary : Z := 32.

(** [^syntax.EmptyOp(0)]: all bits of a [uint8]. *)
Definition EmptyAll : Z := 255.

Definition endOfText : Z := -1.
Definition RuneSelf : Z := 128.
Definition MaxInt : Z := 2 ^ 63 - 1.

(** Library functions the machine calls and the repository does not
    define: the two UTF-8 decoders of [unicode/utf8], and [Inst.MatchRune]
    and [IsWordChar] of [regexp/syntax]. *)
Record Externals : Type := mkExternals {
  DecodeRune : bytes -> Z * Z;
  DecodeLastRune : bytes -> Z * Z;
  MatchRune : Inst -> Z -> bool;
  IsWordChar : Z -> bool
}.

(** ** internal/legex: Regexp, queues, threads, Machine *)

Record Regexp : Type := mkRegexp {
  re_prog : Prog;
  re_prefix : bytes;
  re_mpool : Z;
  re_matchcap : Z;
  re_cond : Z;
  re_longest : bool
}.

(** A thread; [inst] points into the program and is kept as its pc.
    [t_cap_rest] is the part of the backing array of [cap] beyond its
    length. *)
Record thread : Type := mkThread {
  t_inst : Z;
  t_cap : list Z;
  t_cap_rest : list Z
}.

(** A queue entry; the thread pointer is an address in the machine's
    thread store, [None] for nil. *)
Record entry : Type := mkEntry {
  e_pc : Z;
  e_t : option nat
}.

Record queue : Type := mkQueue {
  q_sparse : list Z;
  q_dense : list entry
}.

Record Machine : Type := mkMachine {
  m_re : option Regexp;
  m_p : option Prog;
  m_q0 : queue;
  m_q1 : queue;
  m_pool : list nat;
  m_matched : bool;
  m_matchcap : list Z;
  m_matchcap_rest : list Z;
  m_accum : Z;
  m_threads : list thread   (* the store the thread pointers refer to *)
}.

(** [new(Machine)] *)
Definition newMachine : Machine :=
  mkMachine None None (mkQueue [] []) (mkQueue [] []) [] false [] [] 0 [].

(** [runq] and [nextq] are pointers to [m.q0] and [m.q1]. *)
Inductive qsel : Type := Q0 | Q1.

Definition other (q : qsel) : qsel :=
  match q with Q0 => Q1 | Q1 => Q0 end.

Definition getq (m : Machine) (q : qsel) : queue :=
  match q with Q0 => m_q0 m | Q1 => m_q1 m end.

Definition setq (m : Machine) (q : qsel) (v : queue) : Machine :=
  match q with
  | Q0 => mkMachine (m_re m) (m_p m) v (m_q1 m) (m_pool m) (m_matched m)
            (m_matchcap m) (m_matchcap_rest m) (m_accum m) (m_threads m)
  | Q1 => mkMachine (m_re m) (m_p m) (m_q0 m) v (m_pool m) (m_matched m)
            (m_matchcap m) (m_matchcap_rest m) (m_accum m) (m_threads m)
  end.

Definition set_pool (m : Machine) (v : list nat) : Machine :=
  mkMachine (m_re m) (m_p m) (m_q0 m) (m_q1 m) v (m_matched m)
    (m_matchcap m) (m_matchcap_rest m) (m_accum m) (m_threads m).

Definition set_matched (m : Machine) (v : bool) : Machine :=
  mkMachine (m_re m) (m_p m) (m_q0 m) (m_q1 m) (m_pool m) v
    (m_matchcap m) (m_matchcap_rest m) (m_accum m) (m_threads m).

Definition set_matchcap (m : Machine) (v : list Z) : Machine :=
  mkMachine (m_re m) (m_p m) (m_q0 m) (m_q1 m) (m_pool m) (m_matched m)
    v (m_matchcap_rest m) (m_accum m) (m_threads m).

Definition set_accum (m : Machine) (v : Z) : Machine :=
  mkMachine (m_re m) (m_p m) (m_q0 m) (m_q1 m) (m_pool m) (m_matched m)
    (m_matchcap m) (m_matchcap_rest m) v (m_threads m).

Definition set_threads (m : Machine) (v : list thread) : Machine :=
  mkMachine (m_re m) (m_p m) (m_q0 m) (m_q1 m) (m_pool m) (m_matched m)
    (m_matchcap m) (m_matchcap_rest m) (m_accum m) v.

(** Dereferences: nil is a panic. *)
Definition deref {A : Type} (o : option A) : result A :=
  match o with Some a => Done a | None => Panic end.

Definition getThread (m : Machine) (t : nat) : result thread :=
  deref (nth_error (m_threads m) t).

Definition putThread (m : Machine) (t : nat) (th : thread) : Machine :=
  set_threads m (set_nth (m_threads m) t th).

(** The slice argument [cap] of [add] is either [m.matchcap] or the [cap]
    of a thread; it aliases that array. *)
Inductive capref : Type :=
| CapMachine
| CapThread (t : nat).

Definition capRead (m : Machine) (c : capref) : result (list Z) :=
  match c with
  | CapMachine => Done (m_matchcap m)
  | CapThread t => th <- getThread m t ;; Done (t_cap th)
  end.

Definition capWrite (m : Machine) (c : capref) (v : list Z) : result Machine :=
  match c with
  | CapMachine => Done (set_matchcap m v)
  | CapThread t =>
    th <- getThread m t ;;
    Done (putThread m t (mkThread (t_inst th) v (t_cap_rest th)))
  end.

(** The builtin [copy(dst, src)]. *)
Fixpoint copy (dst src : list Z) : list Z :=
  match dst, src with
  | _ :: dst', s :: src' => s :: copy dst' src'
  | _, _ => dst
  end.

(** *** lazyFlag *)

Definition toInt32 (x : Z) : Z :=
  let y := x mod 2 ^ 32 in
  if y <? 2 ^ 31 then y else y - 2 ^ 32.

Definition newLazyFlag (r1 r2 : Z) : Z :=
  Z.lor (Z.shiftl (r1 mod 2 ^ 64) 32 mod 2 ^ 64) (r2 mod 2 ^ 32).

Section Legex.

Variable X : Externals.

(** [lazyFlag.match] *)
Definition lazyFlag_match (f : Z) (op : Z) : bool :=
  if op =? 0 then true else
  let r1 := toInt32 (Z.shiftr f 32) in
  if negb (Z.land op EmptyBeginLine =? 0)
     && (negb (r1 =? 10) && (0 <=? r1)) then false else
  let op := if negb (Z.land op EmptyBeginLine =? 0)
            then Z.ldiff op EmptyBeginLine else op in
  if negb (Z.land op EmptyBeginText =? 0) && (0 <=? r1) then false else
  let op := if negb (Z.land op EmptyBeginText =? 0)
            then Z.ldiff op EmptyBeginText else op in
  if op =? 0 then true else
  let r2 := toInt32 f in
  if negb (Z.land op EmptyEndLine =? 0)
     && (negb (r2 =? 10) && (0 <=? r2)) then false else
  let op := if negb (Z.land op EmptyEndLine =? 0)
            then Z.ldiff op EmptyEndLine else op in
  if negb (Z.land op EmptyEndText =? 0) && (0 <=? r2) then false else
  let op := if negb (Z.land op EmptyEndText =? 0)
            then Z.ldiff op EmptyEndText else op in
  if op =? 0 then true else
  let op := if negb (Bool.eqb (IsWordChar X r1) (IsWordChar X r2))
            then Z.ldiff op EmptyWordBoundary
            else Z.ldiff op EmptyNoWordBoundary in
  op =? 0.

(** *** inputBytes *)

Definition byteRune (b : byte) : Z := Z.of_N (Byte.to_N b).

Definition slice_from {A : Type} (l : list A) (i : Z) : list A :=
  skipn (Z.to_nat i) l.

Definition slice_to {A : Type} (l : list A) (i : Z) : list A :=
  firstn (Z.to_nat i) l.

(** [inputBytes.step] *)
Definition input_step (i : bytes) (pos : Z) : result (Z * Z) :=
  if pos <? len i then
    c <- at_ i pos ;;
    if byteRune c <? RuneSelf then Done (byteRune c, 1)
    else Done (DecodeRune X (slice_from i pos))
  else Done (endOfText, 0).

(** [inputBytes.context] *)
Definition input_context (i : bytes) (pos : Z) : result Z :=
  r1 <- (if (0 <=? pos - 1) && (pos - 1 <? len i) then
           c <- at_ i (pos - 1) ;;
           if RuneSelf <=? byteRune c
           then Done (fst (DecodeLastRune X (slice_to i pos)))
           else Done (byteRune c)
         else Done endOfText) ;;
  r2 <- (if (0 <=? pos) && (pos <? len i) then
           c <- at_ i pos ;;
           if RuneSelf <=? byteRune c
           then Done (fst (DecodeRune X (slice_from i pos)))
           else Done (byteRune c)
         else Done endOfText) ;;
  Done (newLazyFlag r1 r2).

(** *** Machine.alloc *)
Definition alloc (m : Machine) (i : Z) : result (Machine * nat) :=
  match rev (m_pool m) with
  | t :: rest =>
    th <- getThread m t ;;
    let m := set_pool m (rev rest) in
    Done (putThread m t (mkThread i (t_cap th) (t_cap_rest th)), t)
  | [] =>
    let t := List.length (m_threads m) in
    let th := mkThread i (zeros (len (m_matchcap m)))
                (zeros (len (m_matchcap_rest m))) in
    Done (set_threads m (m_threads m ++ [th]), t)
  end.

(** The threads of the entries, in order: what
    [for _, d := range dense { if d.t != nil { pool = append(pool, d.t) } }]
    appends. *)
Fixpoint threadsOf (l : list entry) : list nat :=
  match l with
  | [] => []
  | e :: tl =>
    match e_t e with
    | Some t => t :: threadsOf tl
    | None => threadsOf tl
    end
  end.

(** *** Machine.add *)
Fixpoint add (fuel : nat) (m : Machine) (q : qsel) (pc pos : Z)
    (cap : capref) (cond : Z) (t : option nat)
    : result (Machine * option nat) :=
  match fuel with
  | O => Timeout
  | S fuel' =>
    if pc =? 0 then Done (m, t) else
    let qu := getq m q in
    j <- at_ (q_sparse qu) pc ;;
    present <- (if j <? len (q_dense qu)
                then e <- at_ (q_dense qu) j ;; Done (e_pc e =? pc)
                else Done false) ;;
    if present then Done (m, t) else
    let j := len (q_dense qu) in
    (* q.dense = q.dense[:j+1], within the capacity of the queue *)
    if len (q_sparse qu) <? j + 1 then Panic else
    sparse' <- upd (q_sparse qu) pc j ;;
    let m := setq m q (mkQueue sparse' (q_dense qu ++ [mkEntry pc None])) in
    prog <- deref (m_p m) ;;
    i <- at_ (Insts prog) pc ;;
    match Op i with
    | InstFail => Done (m, t)
    | InstAlt | InstAltMatch =>
      '(m, t) <- add fuel' m q (Out i) pos cap cond t ;;
      add fuel' m q (Arg i) pos cap cond t
    | InstEmptyWidth =>
      if lazyFlag_match cond (Arg i mod 256)   (* syntax.EmptyOp(i.Arg) *)
      then add fuel' m q (Out i) pos cap cond t
      else Done (m, t)
    | InstNop => add fuel' m q (Out i) pos cap cond t
    | InstCapture =>
      c <- capRead m cap ;;
      if Arg i <? len c then
        opos <- at_ c (Arg i) ;;
        c' <- upd c (Arg i) pos ;;
        m <- capWrite m cap c' ;;
        '(m, _) <- add fuel' m q (Out i) pos cap cond None ;;
        c <- capRead m cap ;;
        c' <- upd c (Arg i) opos ;;
        m <- capWrite m cap c' ;;
        Done (m, t)
      else add fuel' m q (Out i) pos cap cond t
    | InstMatch =>
      re <- deref (m_re m) ;;
      let longest := re_longest re in
      tid <- deref t ;;
      th <- getThread m tid ;;
      record <- (if 0 <? len (t_cap th) then
                   if negb longest || negb (m_matched m) then Done true else
                   mc1 <- at_ (m_matchcap m) 1 ;; Done (mc1 <? pos)
                 else Done false) ;;
      m <- (if record : bool then
              c0 <- at_ (t_cap th) 0 ;;
              c' <- upd (t_cap th) 0 (c0 - m_accum m) ;;
              c' <- upd c' 1 pos ;;
              let m := putThread m tid
                         (mkThread (t_inst th) c' (t_cap_rest th)) in
              Done (set_matchcap m (copy (m_matchcap m) c'))
            else Done m) ;;
      let m :=
        if negb longest then
          (* First-match mode: cut off all lower-priority threads. *)
          let qu := getq m q in
          let m := set_pool m
                     (m_pool m ++ threadsOf (slice_from (q_dense qu) (j + 1))) in
          setq m q (mkQueue (q_sparse qu) [])
        else m in
      Done (set_matched m true, t)
    | InstRune | InstRune1 | InstRuneAny | InstRuneAnyNotNL =>
      '(m, tid) <- match t with
                   | None =>
                     '(m, tid) <- alloc m pc ;;
                     th <- getThread m tid ;;
                     c <- capRead m cap ;;
                     Done (putThread m tid
                             (mkThread (t_inst th) (copy (t_cap th) c)
                                (t_cap_rest th)), tid)
                   | Some tid =>
                     th <- getThread m tid ;;
                     Done (putThread m tid
                             (mkThread pc (t_cap th) (t_cap_rest th)), tid)
                   end ;;
      (* d.t = t, where d is the entry appended above *)
      let qu := getq m q in
      dense' <- upd (q_dense qu) j (mkEntry pc (Some tid)) ;;
      Done (setq m q (mkQueue (q_sparse qu) dense'), None)
    end
  end.

(** *** Machine.step: the body of the loop over [runq.dense], and the loop *)
Definition stepThread (fuel : nat) (m : Machine) (nextq : qsel)
    (nextPos c nextCond : Z) (longest : bool) (d : entry) : result Machine :=
  match e_t d with
  | None => Done m
  | Some tid =>
    th <- getThread m tid ;;
    skip <- (if longest && m_matched m && (0 <? len (t_cap th)) then
               mc0 <- at_ (m_matchcap m) 0 ;;
               tc0 <- at_ (t_cap th) 0 ;;
               Done (mc0 <? tc0)
             else Done false) ;;
    if skip : bool then Done (set_pool m (m_pool m ++ [tid])) else
    prog <- deref (m_p m) ;;
    i <- at_ (Insts prog) (t_inst th) ;;
    doAdd <- match Op i with
             | InstRune => Done (MatchRune X i c)
             | InstRune1 => r0 <- at_ (Rune i) 0 ;; Done (c =? r0)
             | InstRuneAny => Done true
             | InstRuneAnyNotNL => Done (negb (c =? 10))
             | _ => Panic   (* panic("bad inst") *)
             end ;;
    '(m, t) <- (if doAdd : bool
                then add fuel m nextq (Out i) nextPos (CapThread tid)
                       nextCond (Some tid)
                else Done (m, Some tid)) ;;
    match t with
    | Some t => Done (set_pool m (m_pool m ++ [t]))
    | None => Done m
    end
  end.

Fixpoint stepLoop (fuel : nat) (m : Machine) (nextq : qsel)
    (nextPos c nextCond : Z) (longest : bool) (ds : list entry)
    : result Machine :=
  match ds with
  | [] => Done m
  | d :: ds' =>
    m <- stepThread fuel m nextq nextPos c nextCond longest d ;;
    stepLoop fuel m nextq nextPos c nextCond longest ds'
  end.

Definition step (fuel : nat) (m : Machine) (runq nextq : qsel)
    (pos nextPos c nextCond : Z) : result Machine :=
  re <- deref (m_re m) ;;
  m <- stepLoop fuel m nextq nextPos c nextCond (re_longest re)
         (q_dense (getq m runq)) ;;
  Done (setq m runq (mkQueue (q_sparse (getq m runq)) [])).

(** *** Machine.clear *)
Definition clear (m : Machine) (q : qsel) : Machine :=
  let qu := getq m q in
  let m := set_pool m (m_pool m ++ threadsOf (q_dense qu)) in
  setq m q (mkQueue (q_sparse qu) []).

(** *** Machine.Reset *)
Definition Reset (m : Machine) : Machine := clear (clear m Q0) Q1.

(** *** Machine.matchPrefix *)
Fixpoint matchPrefixLoop (fuel : nat) (prefix inner : bytes) (i0 i1 : Z)
    : result (Z * Z) :=
  match fuel with
  | O => Timeout
  | S fuel' =>
    if (i0 <? len prefix) && (i1 <? len inner) then
      a <- at_ prefix i0 ;;
      b <- at_ inner i1 ;;
      if negb (Byte.eqb a b)
      then matchPrefixLoop fuel' prefix inner 0 (i1 + 1)
      else matchPrefixLoop fuel' prefix inner (i0 + 1) (i1 + 1)
    else Done (i1 - i0, i0)
  end.

Definition matchPrefix (fuel : nat) (m : Machine) (i : bytes)
    (index offset : Z) : result (Z * Z) :=
  re <- deref (m_re m) ;;
  matchPrefixLoop fuel (re_prefix re) i offset (index + offset).

(** *** Machine.match

    The local variables of the loop; [l_runq] says which of [m.q0], [m.q1]
    the pointer [runq] refers to ([nextq] is the other one). *)
Record locals : Type := mkLocals {
  l_index : Z;
  l_offset : Z;
  l_r : Z;
  l_width : Z;
  l_r1 : Z;
  l_width1 : Z;
  l_flag : Z;
  l_runq : qsel
}.

(** [m.q0, m.q1 = *runq, *nextq; return index, offset, m.matched] *)
Definition matchExit (m : Machine) (l : locals) : Machine * (Z * Z * bool) :=
  let runq := getq m (l_runq l) in
  let nextq := getq m (other (l_runq l)) in
  let m := setq (setq m Q0 runq) Q1 nextq in
  (m, (l_index l, l_offset l, m_matched m)).

(** From the label [weave] to the end of the loop body; [continue_] is the
    loop itself. *)
Definition weave (fuel : nat) (i : bytes) (m : Machine) (l : locals)
    (continue_ : Machine -> locals -> result (Machine * (Z * Z * bool)))
    : result (Machine * (Z * Z * bool)) :=
  let runq := l_runq l in
  let nextq := other (l_runq l) in
  let index := l_index l in
  let offset := l_offset l in
  m <- (if negb (m_matched m) then
          m <- (if 0 <? len (m_matchcap m)
                then mc <- upd (m_matchcap m) 0 (index + offset) ;;
                     Done (set_matchcap m mc)
                else Done m) ;;
          prog <- deref (m_p m) ;;
          '(m, _) <- add fuel m runq (Start prog mod 2 ^ 32) (index + offset)
                       CapMachine (l_flag l) None ;;
          Done m
        else Done m) ;;
  let flag := newLazyFlag (l_r l) (l_r1 l) in
  if l_width l =? 0 then Done (matchExit m l) else
  m <- step fuel m runq nextq (index + offset) (index + offset + l_width l)
         (l_r l) flag ;;
  let offset := offset + l_width l in
  if m_matched m then
    Done (matchExit m (mkLocals index offset (l_r l) (l_width l) (l_r1 l)
                         (l_width1 l) flag runq))
  else
  let runq := nextq in
  if len (q_dense (getq m runq)) =? 0 then
    let index := index + offset in
    let offset := 0 in
    '(r, width) <- input_step i index ;;
    '(r1, width1) <- (if negb (r =? endOfText)
                      then input_step i (index + width)
                      else Done (l_r1 l, l_width1 l)) ;;
    continue_ m (mkLocals index offset r width r1 width1
                   (newLazyFlag (-1) r) runq)
  else
    let r := l_r1 l in
    let width := l_width1 l in
    '(r1, width1) <- (if negb (r =? endOfText)
                      then input_step i (index + offset + width)
                      else Done (l_r1 l, l_width1 l)) ;;
    continue_ m (mkLocals index offset r width r1 width1 flag runq).

(** The [for { ... }] of [Machine.match]. *)
Fixpoint matchLoop (fuel steps : nat) (i : bytes) (m : Machine) (l : locals)
    : result (Machine * (Z * Z * bool)) :=
  match steps with
  | O => Timeout
  | S steps' =>
    if len (q_dense (getq m (l_runq l))) =? 0 then
      if m_matched m then Done (matchExit m l) else
      re <- deref (m_re m) ;;
      if (len (re_prefix re) =? 0) || (l_offset l =? len (re_prefix re))
      then weave fuel i m l (matchLoop fuel steps' i)
      else
        (* [index, offset := m.matchPrefix(...)] declares new variables:
           the jump to [weave] leaves the outer ones as they were *)
        '(index', offset') <- matchPrefix fuel m i (l_index l) (l_offset l) ;;
        if offset' =? len (re_prefix re)
        then weave fuel i m l (matchLoop fuel steps' i)
        else Done (m, (index', offset', false))
    else weave fuel i m l (matchLoop fuel steps' i)
  end.

Definition match_ (fuel : nat) (m : Machine) (i : bytes) (index offset : Z)
    : result (Machine * (Z * Z * bool)) :=
  re <- deref (m_re m) ;;
  if re_cond re =? EmptyAll then Done (m, (index, offset, false)) else
  '(r, width) <- input_step i (index + offset) ;;
  '(r1, width1) <- (if negb (r =? endOfText)
                    then input_step i (index + offset + width)
                    else Done (endOfText, 0)) ;;
  flag <- (if offset =? 0 then Done (newLazyFlag (-1) r)
           else input_context i (index + offset)) ;;
  matchLoop fuel fuel i m (mkLocals index offset r width r1 width1 flag Q0).

(** The threads of the live entries of a queue. *)
Fixpoint liveThreads (m : Machine) (l : list entry) : result (list thread) :=
  match l with
  | [] => Done []
  | e :: tl =>
    match e_t e with
    | Some t =>
      th <- getThread m t ;;
      rest <- liveThreads m tl ;;
      Done (th :: rest)
    | None => liveThreads m tl
    end
  end.

(** [shift = min(shift, e.t.cap[0]-m.accum)] over the live entries. *)
Fixpoint minShift (accum : Z) (shift : Z) (ths : list thread) : result Z :=
  match ths with
  | [] => Done shift
  | th :: tl =>
    c0 <- at_ (t_cap th) 0 ;;
    minShift accum (Z.min shift (c0 - accum)) tl
  end.

(** *** Machine.Match *)
Definition Machine_Match (fuel : nat) (m : Machine) (index offset : Z)
    (buf : bytes) : result (Machine * (Z * Z * bool)) :=
  '(m, (idx, off, ok)) <- match_ fuel m buf index offset ;;
  if negb ok then
    ths <- liveThreads m (q_dense (m_q0 m)) ;;
    shift <- minShift (m_accum m) MaxInt ths ;;
    if shift =? MaxInt then
      Done (set_accum m (m_accum m + idx), (idx, off, false))
    else
      Done (set_accum m (m_accum m + shift),
            (index + shift, len buf - (index + shift), false))
  else
    let m := set_matched (set_accum m 0) false in
    mc0 <- at_ (m_matchcap m) 0 ;;
    mc1 <- at_ (m_matchcap m) 1 ;;
    Done (m, (mc0, mc1 - mc0, true)).

(** *** The machine pools and Regexp.Get, Regexp.Put (legex.go)

    [matchPool] is an array of [sync.Pool]; a pool is modelled as the list
    of the machines in it.  Machines are tagged with the address they were
    allocated at, so that an instance can be told from another.
    [sync.Pool.Get] takes an arbitrary item out, or none: the caller of the
    model says which ([choice]). *)

Definition matchSize : list Z := [128; 512; 2048; 16384; 0].

Record World : Type := mkWorld {
  matchPool : list (list (nat * Machine));
  w_next : nat   (* the next fresh machine address *)
}.

Definition initWorld : World := mkWorld [[]; []; []; []; []] 0%nat.

Definition Pool_Get {A : Type} (pl : list A) (choice : option nat)
    : option A * list A :=
  match choice with
  | None => (None, pl)
  | Some k =>
    match nth_error pl k with
    | Some a => (Some a, firstn k pl ++ skipn (S k) pl)
    | None => (None, pl)
    end
  end.

Definition Pool_Put {A : Type} (pl : list A) (a : A) : list A := a :: pl.

(** [s[:n]] on a slice with the given rest of its backing array. *)
Definition reslice (s rest : list Z) (n : Z) : result (list Z * list Z) :=
  if (n <? 0) || (len (s ++ rest) <? n) then Panic
  else Done (slice_to (s ++ rest) n, slice_from (s ++ rest) n).

Fixpoint poolRemake (m : Machine) (ts : list nat) (n : Z) : result Machine :=
  match ts with
  | [] => Done m
  | t :: tl =>
    th <- getThread m t ;;
    poolRemake (putThread m t (mkThread (t_inst th) (zeros n) [])) tl n
  end.

Fixpoint poolReslice (m : Machine) (ts : list nat) (n : Z) : result Machine :=
  match ts with
  | [] => Done m
  | t :: tl =>
    th <- getThread m t ;;
    '(c, rest) <- reslice (t_cap th) (t_cap_rest th) n ;;
    poolReslice (putThread m t (mkThread (t_inst th) c rest)) tl n
  end.

Definition Regexp_Get (w : World) (re : Regexp) (choice : option nat)
    : result (World * (nat * Machine)) :=
  pl <- at_ (matchPool w) (re_mpool re) ;;
  let '(got, pl') := Pool_Get pl choice in
  pools' <- upd (matchPool w) (re_mpool re) pl' ;;
  let '(w, (id, m)) :=
    match got with
    | Some im => (mkWorld pools' (w_next w), im)
    | None => (mkWorld pools' (S (w_next w)), (w_next w, newMachine))
    end in
  let m := mkMachine (Some re) (Some (re_prog re)) (m_q0 m) (m_q1 m)
             (m_pool m) false (m_matchcap m) (m_matchcap_rest m) 0
             (m_threads m) in
  m <- (if len (m_matchcap m ++ m_matchcap_rest m) <? re_matchcap re then
          let m := mkMachine (m_re m) (m_p m) (m_q0 m) (m_q1 m) (m_pool m)
                     (m_matched m) (zeros (re_matchcap re)) [] (m_accum m)
                     (m_threads m) in
          poolRemake m (m_pool m) (re_matchcap re)
        else Done m) ;;
  m <- poolReslice m (m_pool m) (NumCap (re_prog re)) ;;
  '(mc, rest) <- reslice (m_matchcap m) (m_matchcap_rest m)
                   (NumCap (re_prog re)) ;;
  let m := mkMachine (m_re m) (m_p m) (m_q0 m) (m_q1 m) (m_pool m)
             (m_matched m) mc rest (m_accum m) (m_threads m) in
  n <- at_ matchSize (re_mpool re) ;;
  let n := if n =? 0 then len (Insts (re_prog re)) else n in
  let m := if len (q_sparse (m_q0 m)) <? n
           then setq (setq m Q0 (mkQueue (zeros n) []))
                  Q1 (mkQueue (zeros n) [])
           else m in
  Done (w, (id, m)).

Definition Regexp_Put (w : World) (re : Regexp) (im : nat * Machine)
    : result World :=
  let m := clear (clear (snd im) Q0) Q1 in
  let m := mkMachine None None (m_q0 m) (m_q1 m) (m_pool m) (m_matched m)
             (m_matchcap m) (m_matchcap_rest m) (m_accum m) (m_threads m) in
  pl <- at_ (matchPool w) (re_mpool re) ;;
  pools' <- upd (matchPool w) (re_mpool re) (Pool_Put pl (fst im, m)) ;;
  Done (mkWorld pools' (w_next w)).

(** ** The pair automaton (los.go) *)

Definition STATE_NONE : Z := 0.
Definition STATE_HEAD : Z := 1.
Definition STATE_BODY : Z := 2.
Definition STATE_TAIL : Z := 3.

Definition _REGEX_MODE_NONE : Z := 0.
Definition REGEX_MODE_PERL : Z := 1.
Definition REGEX_MODE_POSIX : Z := 2.

Record Pair : Type := mkPair {
  head : bytes;
  headRegex : Z;
  tail : bytes;
  tailRegex : Z
}.

Inductive error : Type := ErrBufferNotDrained.

Record textResult : Type := mkResult {
  r_state : Z;
  r_raw : bytes
}.

(** [regexPattern]: the embedded machine (with its address) and the
    regexp the closure [clearFunc] has captured. *)
Record regexPattern : Type := mkRegexPattern {
  rp_id : nat;
  rp_machine : Machine;
  rp_re : Regexp
}.

Inductive pattern : Type :=
| PKmp (k : kmpPattern)
| PRegex (r : regexPattern).

Record matcher : Type := mkMatcher {
  state : Z;
  index : Z;
  offset : Z;
  buffer : bytes;
  patterns : pattern * pattern
}.

(** The compiler entry points [legex.MustCompile] and
    [legex.MustCompilePOSIX] rest on [regexp/syntax]. *)
Variable MustCompile : bytes -> result Regexp.
Variable MustCompilePOSIX : bytes -> result Regexp.

Definition newRegexPattern (w : World) (pat : bytes) (mode : Z)
    (choice : option nat) : result (World * regexPattern) :=
  re <- (if mode =? REGEX_MODE_PERL then MustCompile pat
         else if mode =? REGEX_MODE_POSIX then MustCompilePOSIX pat
         else Panic) ;;
  '(w, (id, m)) <- Regexp_Get w re choice ;;
  Done (w, mkRegexPattern id m re).

(** [clearFunc]: [func() { re.Put(re.Get()) }] *)
Definition clearFunc (w : World) (re : Regexp) (choice : option nat)
    : result World :=
  '(w, im) <- Regexp_Get w re choice ;;
  Regexp_Put w re im.

(** [pattern.Clear] *)
Definition pattern_Clear (w : World) (p : pattern) (choice : option nat)
    : result World :=
  match p with
  | PKmp _ => Done w
  | PRegex r => clearFunc w (rp_re r) choice
  end.

(** [pattern.Match] *)
Definition pattern_Match (fuel : nat) (p : pattern) (index offset : Z)
    (s : bytes) : result (pattern * (Z * Z * bool)) :=
  match p with
  | PKmp k =>
    r <- kmpMatch fuel k index offset s ;;
    Done (p, r)
  | PRegex rp =>
    '(m, r) <- Machine_Match fuel (rp_machine rp) index offset s ;;
    Done (PRegex (mkRegexPattern (rp_id rp) m (rp_re rp)), r)
  end.

Definition newPattern (fuel : nat) (w : World) (src : bytes) (mode : Z)
    (choice : option nat) : result (World * pattern) :=
  if mode =? 0 then
    k <- newKmpPattern fuel src ;;
    Done (w, PKmp k)
  else
    '(w, r) <- newRegexPattern w src mode choice ;;
    Done (w, PRegex r).

Definition NewMatcher (fuel : nat) (w : World) (pair : Pair)
    (choice0 choice1 : option nat) : result (World * matcher) :=
  '(w, patHead) <- newPattern fuel w (head pair) (headRegex pair) choice0 ;;
  '(w, parTail) <- newPattern fuel w (tail pair) (tailRegex pair) choice1 ;;
  Done (w, mkMatcher STATE_NONE 0 0 [] (patHead, parTail)).

(** [bytes.Buffer.Next] on the unread part of the buffer: the bytes
    returned and the bytes left.  The slice returned shares the array of
    the buffer; a segment stands for its bytes at the time it is emitted. *)
Definition Buffer_Next (buf : bytes) (n : Z) : result (bytes * bytes) :=
  let n := if len buf <? n then len buf else n in
  if n <? 0 then Panic
  else Done (slice_to buf n, slice_from buf n).

Definition getPattern (m : matcher) : result pattern :=
  let k := Z.shiftr (state m) 1 in
  if k =? 0 then Done (fst (patterns m))
  else if k =? 1 then Done (snd (patterns m))
  else Panic.

Definition setPattern (m : matcher) (p : pattern) : matcher :=
  let k := Z.shiftr (state m) 1 in
  mkMatcher (state m) (index m) (offset m) (buffer m)
    (if k =? 0 then (p, snd (patterns m)) else (fst (patterns m), p)).

Definition Drain (m : matcher) : matcher * bytes :=
  (mkMatcher STATE_NONE 0 0 [] (patterns m), buffer m).

(** The consumer of the lazy sequence: [stop] is asked after each segment,
    with all the segments received so far, whether the consumer leaves its
    loop ([yield] then returns false). *)
Definition yield (stop : list textResult -> bool) (out : list textResult)
    (r : textResult) : list textResult * bool :=
  (out ++ [r], negb (stop (out ++ [r]))).

(** [matcher.Match] from the label [encore]. *)
Fixpoint encore (fuel rounds : nat) (stop : list textResult -> bool)
    (m : matcher) (out : list textResult)
    : result (matcher * list textResult) :=
  match rounds with
  | O => Timeout
  | S rounds' =>
    pat <- getPattern m ;;
    '(pat, (idx, off, ok)) <- pattern_Match fuel pat (index m) (offset m)
                                (buffer m) ;;
    let m := setPattern m pat in
    if ok : bool then
      let m := mkMatcher (state m) 0 off (buffer m) (patterns m) in
      '(m, out, go) <-
        (if 0 <? idx then
           '(raw, rest) <- Buffer_Next (buffer m) idx ;;
           let m := mkMatcher (state m) (index m) (offset m) rest
                      (patterns m) in
           let '(out, go) := yield stop out (mkResult (state m) raw) in
           Done (m, out, go)
         else Done (m, out, true)) ;;
      if negb go then Done (m, out) else
      let m := mkMatcher (state m) (index m) 0 (buffer m) (patterns m) in
      '(raw, rest) <- Buffer_Next (buffer m) off ;;
      let m := mkMatcher (state m) (index m) (offset m) rest (patterns m) in
      let '(out, go) := yield stop out (mkResult (state m + 1) raw) in
      if negb go then Done (m, out) else
      let m := mkMatcher (Z.lxor (state m) 2) (index m) (offset m)
                 (buffer m) (patterns m) in
      encore fuel rounds' stop m out
    else
      let m := mkMatcher (state m) idx off (buffer m) (patterns m) in
      if index m =? 0 then Done (m, out) else
      '(raw, rest) <- Buffer_Next (buffer m) (index m) ;;
      let m := mkMatcher (state m) (index m) (offset m) rest (patterns m) in
      let '(out, _) := yield stop out (mkResult (state m) raw) in
      Done (mkMatcher (state m) 0 (offset m) (buffer m) (patterns m), out)
  end.

Definition Match (fuel : nat) (stop : list textResult -> bool) (m : matcher)
    (s : bytes) : result (matcher * list textResult) :=
  let m := mkMatcher (state m) (index m) (offset m) (buffer m ++ s)
             (patterns m) in
  encore fuel fuel stop m [].

Definition Close (w : World) (m : matcher) (choice0 choice1 : option nat)
    : result (World * option error) :=
  w <- pattern_Clear w (fst (patterns m)) choice0 ;;
  w <- pattern_Clear w (snd (patterns m)) choice1 ;;
  if 0 <? len (buffer m) then Done (w, Some ErrBufferNotDrained)
  else Done (w, None).

End Legex.

(** ** Driving a matcher *)

(** The consumer that ranges over the whole sequence. *)
Definition consumeAll (_ : list textResult) : bool := false.

(** The consumer that leaves its loop on the [k]-th segment. *)
Definition stopAfter (k : nat) (received : list textResult) : bool :=
  Nat.eqb (List.length received) k.

(** [Match] on each chunk in turn, each sequence read by its consumer; the
    segments of all the calls in order. *)
Fixpoint feedWith (X : Externals) (fuel : nat) (m : matcher)
    (chunks : list (bytes * (list textResult -> bool)))
    : result (matcher * list textResult) :=
  match chunks with
  | [] => Done (m, [])
  | (c, stop) :: tl =>
    '(m, segs) <- Match X fuel stop m c ;;
    '(m, rest) <- feedWith X fuel m tl ;;
    Done (m, segs ++ rest)
  end.

Definition feed (X : Externals) (fuel : nat) (m : matcher)
    (chunks : list bytes) : result (matcher * list textResult) :=
  feedWith X fuel m (map (fun c => (c, consumeAll)) chunks).

Definition raws (segs : list textResult) : bytes :=
  List.concat (map r_raw segs).

(** The labeled-byte stream of a sequence of segments. *)
Definition labeled (segs : list textResult) : list (Z * byte) :=
  flat_map (fun r => map (fun b => (r_state r, b)) (r_raw r)) segs.

(** [s[lo:hi]] *)
Definition sub {A : Type} (s : list A) (lo hi : Z) : list A :=
  firstn (Z.to_nat (hi - lo)) (skipn (Z.to_nat lo) s).

(** A literal pair: both delimiters are matched by KMP. *)
Definition literalPair (h t : bytes) : Pair := mkPair h 0 t 0.

(** The addresses of the machines in the pools. *)
Definition pooled (w : World) : list nat :=
  map fst (List.concat (matchPool w)).

(** The sub-matchers of a matcher that hold a machine. *)
Definition held (m : matcher) : list nat :=
  match patterns m with
  | (a, b) =>
    (match a with PRegex r => [rp_id r] | PKmp _ => [] end)
    ++ (match b with PRegex r => [rp_id r] | PKmp _ => [] end)
  end.

(** ** Programs of regexp/syntax used below

    The instruction lists [syntax.Compile] produces for the named
    expressions (pc 0 is the [fail] instruction the compiler always emits
    first; [NumCap] is 2 when the expression has no group). *)

Definition rune1 (c : Z) (out : Z) : Inst := mkInst InstRune1 out 0 [c].
Definition iFail : Inst := mkInst InstFail 0 0 [].
Definition iMatch : Inst := mkInst InstMatch 0 0 [].
Definition iAlt (out arg : Z) : Inst := mkInst InstAlt out arg [].

(** [a] *)
Definition prog_a : Prog :=
  mkProg [iFail; rune1 97 2; iMatch] 1 2.

(** [abc] *)
Definition prog_abc : Prog :=
  mkProg [iFail; rune1 97 2; rune1 98 3; rune1 99 4; iMatch] 1 2.

(** [ab??]: [a], then a non-greedy optional [b] *)
Definition prog_ab_lazy : Prog :=
  mkProg [iFail; rune1 97 3; rune1 98 4; iAlt 4 2; iMatch] 1 2.

(** [error|warn|info] *)
Definition prog_error_warn_info : Prog :=
  mkProg [iFail;
          rune1 101 2; rune1 114 3; rune1 114 4; rune1 111 5; rune1 114 16;
          rune1 119 7; rune1 97 8; rune1 114 9; rune1 110 16;
          iAlt 1 6;
          rune1 105 12; rune1 110 13; rune1 102 14; rune1 111 16;
          iAlt 10 11;
          iMatch] 15 2.

(** What [compile] makes of a program that is not one-pass: no prefix,
    the smallest pool class, no start condition; leftmost-first. *)
Definition perlRegexp (p : Prog) : Regexp := mkRegexp p [] 0 2 0 false.

Fixpoint inRanges (l : list Z) (r : Z) : bool :=
  match l with
  | lo :: hi :: tl => ((lo <=? r) && (r <=? hi)) || inRanges tl r
  | _ => false
  end.

(** Externals for ASCII input: the decoders answer as [unicode/utf8] does
    on a byte that starts no valid encoding, [MatchRune] looks the rune up
    in the ranges of the instruction, and the word characters are the
    ASCII letters, the digits and the underscore. *)
Definition asciiExternals : Externals :=
  mkExternals (fun _ => (65533, 1)) (fun _ => (65533, 1))
    (fun i r => match Rune i with [r0] => r =? r0 | l => inRanges l r end)
    (fun r => ((65 <=? r) && (r <=? 90)) || ((97 <=? r) && (r <=? 122))
              || ((48 <=? r) && (r <=? 57)) || (r =? 95)).

(** The compiler on the expressions used below. *)
Definition compileTable (s : bytes) : result Regexp :=
  if list_eq_dec Byte.byte_eq_dec s (str "a") then Done (perlRegexp prog_a)
  else if list_eq_dec Byte.byte_eq_dec s (str "abc")
  then Done (perlRegexp prog_abc)
  else if list_eq_dec Byte.byte_eq_dec s (str "ab??")
  then Done (perlRegexp prog_ab_lazy)
  else if list_eq_dec Byte.byte_eq_dec s (str "error|warn|info")
  then Done (perlRegexp prog_error_warn_info)
  else Panic.

(** A machine checked out of the empty pools. *)
Definition freshMachine (re : Regexp) : result Machine :=
  '(_, (_, m)) <- Regexp_Get initWorld re None ;;
  Done m.

(** The loop of the machine tests of the repository: the input grows by
    one chunk per call; after a match it is cut behind the match, otherwise
    at the returned index, and the offset is kept. *)
Fixpoint machineTest (X : Externals) (fuel : nat) (m : Machine)
    (offset : Z) (input : bytes) (chunks : list bytes)
    : result (list (Z * Z * bool)) :=
  match chunks with
  | [] => Done []
  | c :: tl =>
    let input := input ++ c in
    '(m, (idx, off, ok)) <- Machine_Match X fuel m 0 offset input ;;
    rest <- (if ok : bool
             then machineTest X fuel m 0 (slice_from input (idx + off)) tl
             else machineTest X fuel m off (slice_from input idx) tl) ;;
    Done ((idx, off, ok) :: rest)
  end.

(** ** Predicates of the statements *)

(** [p[0:v]] is a suffix of [p[0:k]]. *)
Definition border (p : bytes) (k v : Z) : Prop :=
  forall x, 0 <= x < v -> at_ p x = at_ p (k - v + x).

(** Entry [k] of the failure table is the length of a proper border of
    [p[0:k+1]]. *)
Definition lpsEntry (p : bytes) (array : list Z) (k : Z) : Prop :=
  exists v, at_ array k = Done v /\ 0 <= v <= k /\ border p (k + 1) v.

Definition lpsOk (p : bytes) (array : list Z) : Prop :=
  len array = len p /\ forall k, 0 <= k < len p -> lpsEntry p array k.

(** A well-formed KMP sub-matcher: what [newKmpPattern] builds. *)
Definition kmpWf (pat : kmpPattern) : Prop :=
  length pat = len (source pat) /\ lpsOk (source pat) (lps pat).

(** [buffer[start : start+n]] is [p[0:n]]. *)
Definition live (buffer p : bytes) (start n : Z) : Prop :=
  0 <= start /\ 0 <= n <= len p /\ start + n <= len buffer /\
  forall x, 0 <= x < n -> at_ buffer (start + x) = at_ p x.

(** The sub-matcher [patterns[state>>1]] of a literal pair. *)
Definition active (st : Z) (h t : kmpPattern) : kmpPattern :=
  if st =? 0 then h else t.

Definition nonEmpty (r : textResult) : Prop := 1 <= len (r_raw r).

(** The scan of [kmpPattern.Match] from [(i, j)] returns [r]. *)
Definition kmpRuns (pat : kmpPattern) (buffer : bytes) (i j : Z)
    (r : Z * Z * bool) : Prop :=
  exists fuel, kmpLoop fuel pat buffer i j = Done r.

(** The matcher of a literal pair between two rounds ([index] is zero). *)
Definition litMatcher (h t : kmpPattern) (st off : Z) (buf : bytes)
    : matcher :=
  mkMatcher st 0 off buf (PKmp h, PKmp t).

(** A call on a literal pair, read to the end: from the state [st], the
    offset [off] and the buffer [buf] it emits [o] and leaves [st'],
    [off'], [buf']. *)
Definition literalRuns (X : Externals) (fuel rounds : nat)
    (h t : kmpPattern) (st off : Z) (buf : bytes) (st' off' : Z)
    (buf' : bytes) (o : list textResult) : Prop :=
  forall out,
    encore X fuel rounds consumeAll (litMatcher h t st off buf) out
    = Done (litMatcher h t st' off' buf', out ++ o).

(** The loop invariant at [encore]. *)
Definition resumable (h t : kmpPattern) (st off : Z) (buf : bytes)
    : Prop :=
  (st = 0 \/ st = 2)
  /\ 0 <= off < length (active st h t)
  /\ live buf (source (active st h t)) 0 off.

(** [shift] is the least of [cap[0] - accum] over the threads. *)
Definition leastBias (accum shift : Z) (ths : list thread) : Prop :=
  (exists th c0, In th ths /\ at_ (t_cap th) 0 = Done c0
                 /\ shift = c0 - accum)
  /\ forall th c0, In th ths -> at_ (t_cap th) 0 = Done c0 ->
                   shift <= c0 - accum.

(** The least of [cap[0]] over the threads. *)
Definition leastCap0 (least : Z) (ths : list thread) : Prop :=
  (exists th, In th ths /\ at_ (t_cap th) 0 = Done least)
  /\ forall th c0, In th ths -> at_ (t_cap th) 0 = Done c0 -> least <= c0.

(** ** Runs used in the statements *)

Definition fromDone {A : Type} (d : A) (r : result A) : A :=
  match r with Done a => a | _ => d end.

(** A machine for [a], fresh, and after [Match(0, 0, "x")]. *)
Definition machine_a : Machine :=
  fromDone newMachine (freshMachine (perlRegexp prog_a)).

Definition machine_a_x : Machine :=
  fromDone newMachine
    ('(m, _) <- Machine_Match asciiExternals 8 machine_a 0 0 (str "x") ;;
     Done m).

(** A machine for [abc], fresh, and after [Match(0, 0, "xab")]. *)
Definition machine_abc : Machine :=
  fromDone newMachine (freshMachine (perlRegexp prog_abc)).

Definition machine_abc_xab : Machine :=
  fromDone newMachine
    ('(m, _) <- Machine_Match asciiExternals 8 machine_abc 0 0 (str "xab") ;;
     Done m).

(** The machine for [abc] after [Match(0, 0, "xa")]. *)
Definition machine_abc_xa : Machine :=
  fromDone newMachine
    ('(m, _) <- Machine_Match asciiExternals 8 machine_abc 0 0 (str "xa") ;;
     Done m).

(** The pairs of the scenarios. *)
Definition prologue_epilogue : Pair :=
  literalPair (str "prologue") (str "epilogue").

Definition regex_a_t : Pair :=
  mkPair (str "a") REGEX_MODE_PERL (str "t") _REGEX_MODE_NONE.

Definition regex_abc_t : Pair :=
  mkPair (str "abc") REGEX_MODE_PERL (str "t") _REGEX_MODE_NONE.

Definition regex_ab_lazy_t : Pair :=
  mkPair (str "ab??") REGEX_MODE_PERL (str "t") _REGEX_MODE_NONE.

(** [NewMatcher] on the empty pools, with the compiler of the scenarios. *)
Definition newMatcher (pair : Pair) : World * matcher :=
  fromDone (initWorld, mkMatcher 0 0 0 [] (PKmp (mkKmp [] 0 []),
                                           PKmp (mkKmp [] 0 [])))
    (NewMatcher compileTable compileTable 32 initWorld pair None None).

(** The matcher for [abc]/[t] after [Match("xab")], read to the end. *)
Definition matcher_abc_xab : matcher :=
  fromDone (snd (newMatcher regex_abc_t))
    ('(m, _) <- Match asciiExternals 32 consumeAll
                  (snd (newMatcher regex_abc_t)) (str "xab") ;;
     Done m).

(** The matcher for [prologue]/[epilogue] after [Match("pro")]. *)
Definition matcher_pro : matcher :=
  fromDone (snd (newMatcher prologue_epilogue))
    ('(m, _) <- Match asciiExternals 32 consumeAll
                  (snd (newMatcher prologue_epilogue)) (str "pro") ;;
     Done m).

(** ** More of the code

    [NewPair] and its options (los.go); the pool class [compile] gives a
    program. *)

(** [pairOption], [WithRegexHead], [WithRegexTail] and [NewPair]; the
    variadic [mode ...regexMode] is the list of the arguments given. *)
Definition pairOption : Type := Pair -> Pair.

Definition modeOf (mode : list Z) : Z :=
  match mode with
  | [] => _REGEX_MODE_NONE
  | m :: _ => m
  end.

Definition WithRegexHead (mode : list Z) : pairOption :=
  let m := modeOf mode in
  fun pair => mkPair (head pair) m (tail pair) (tailRegex pair).

Definition WithRegexTail (mode : list Z) : pairOption :=
  let m := modeOf mode in
  fun pair => mkPair (head pair) (headRegex pair) (tail pair) m.

Definition NewPair (head tail : bytes) (opts : list pairOption) : Pair :=
  fold_left (fun pair opt => opt pair) opts (mkPair head 0 tail 0).

(** An option of the package. *)
Inductive packageOption : pairOption -> Prop :=
| optHead (mode : list Z) : packageOption (WithRegexHead mode)
| optTail (mode : list Z) : packageOption (WithRegexTail mode).

(** The loop of [compile] that picks the pool of a program of [n]
    instructions: [for matchSize[i] != 0 && matchSize[i] < n { i++ }]. *)
Fixpoint mpoolLoop (fuel : nat) (n i : Z) : result Z :=
  match fuel with
  | O => Timeout
  | S fuel' =>
    s <- at_ matchSize i ;;
    if negb (s =? 0) && (s <? n) then mpoolLoop fuel' n (i + 1)
    else Done i
  end.

(** The queue size [Regexp.Get] asks for in pool [i], for a program of
    [n] instructions. *)
Definition queueSize (i n : Z) : result Z :=
  s <- at_ matchSize i ;;
  Done (if s =? 0 then n else s).

(** ** Predicates of the further properties

    Occurrences and longest borders for the KMP sub-matcher; the
    conditions a pair of runes meets; queues as sparse sets; the
    threads a machine holds; programs that match the empty string. *)

(** [v] is the length of the longest proper border of [p[0:k]]. *)
Definition longestBorder (p : bytes) (k v : Z) : Prop :=
  0 <= v < k /\ border p k v /\ forall v', v < v' < k -> ~ border p k v'.

(** Every entry of the failure table is a longest proper border. *)
Definition lpsMax (p : bytes) (array : list Z) : Prop :=
  len array = len p
  /\ forall k, 0 <= k < len p ->
       exists v, at_ array k = Done v /\ longestBorder p (k + 1) v.

(** [p] occurs in [buffer] at offset [s]. *)
Definition occurs (buffer p : bytes) (s : Z) : Prop :=
  0 <= s /\ s + len p <= len buffer /\ sub buffer s (s + len p) = p.

(** The bytes of [buffer] from [s] up to [e] are those [p] starts with. *)
Definition agree (buffer p : bytes) (s e : Z) : Prop :=
  forall x, 0 <= x < len p -> s + x < e -> s + x < len buffer ->
            at_ buffer (s + x) = at_ p x.

(** A KMP sub-matcher whose table holds the longest borders. *)
Definition kmpWfMax (pat : kmpPattern) : Prop :=
  length pat = len (source pat) /\ lpsMax (source pat) (lps pat).

(** *** The labeling of a whole stream by a plain search *)

(** Not the code: what one expects of it.  Each byte of the stream is
    outside a pair, in a head delimiter, in a body or in a tail
    delimiter; a delimiter is looked for at its leftmost occurrence
    after the previous one, and only the end of the stream that can
    still begin the delimiter looked for is held back.
    [isPrefixOf p s]: [s] begins with [p]. *)
Fixpoint isPrefixOf (p s : bytes) : bool :=
  match p, s with
  | [], _ => true
  | a :: p', b :: s' => Byte.eqb a b && isPrefixOf p' s'
  | _ :: _, [] => false
  end.

(** The least offset at which [p] occurs in [s]. *)
Fixpoint findFirst (p s : bytes) : option nat :=
  if isPrefixOf p s then Some 0%nat
  else match s with
       | [] => None
       | _ :: s' => option_map S (findFirst p s')
       end.

(** The least offset from which [s] is a beginning of [p]. *)
Fixpoint keepFrom (p s : bytes) : nat :=
  if isPrefixOf s p then 0%nat
  else match s with
       | [] => 0%nat
       | _ :: s' => S (keepFrom p s')
       end.

Definition labelAll (st : Z) (s : bytes) : list (Z * byte) :=
  map (fun b => (st, b)) s.

(** The labeled bytes of the stream [s] read from the state [st], the
    state reached and the bytes held back. *)
Fixpoint refLabel (fuel : nat) (h t : bytes) (st : Z) (s : bytes)
    : list (Z * byte) * (Z * bytes) :=
  match fuel with
  | O => ([], (st, s))
  | S fuel' =>
    let p := if st =? 0 then h else t in
    match findFirst p s with
    | Some a =>
      let '(l, fin) := refLabel fuel' h t (Z.lxor st 2)
                         (skipn (a + List.length p) s) in
      (labelAll st (firstn a s) ++ labelAll (st + 1) p ++ l, fin)
    | None =>
      let k := keepFrom p s in
      (labelAll st (firstn k s), (st, skipn k s))
    end
  end.

(** The labeled bytes of a whole stream read by a new matcher. *)
Definition reference (h t s : bytes) : list (Z * byte) * (Z * bytes) :=
  refLabel (S (List.length s)) h t STATE_NONE s.

(** A segment is labeled NONE or BODY, or it is labeled HEAD and is the
    head delimiter, or TAIL and is the tail delimiter. *)
Definition segmentOk (hd tl : bytes) (r : textResult) : Prop :=
  (r_state r = STATE_NONE \/ r_state r = STATE_BODY)
  \/ (r_state r = STATE_HEAD /\ r_raw r = hd)
  \/ (r_state r = STATE_TAIL /\ r_raw r = tl).

(** A rune is an [int32]. *)
Definition isRune (r : Z) : Prop := - 2 ^ 31 <= r < 2 ^ 31.

(** What the empty-width conditions [op] ask of the rune [r1] before and
    the rune [r2] after a position; a negative rune stands for the
    beginning or the end of the text. *)
Definition contextAllows (X : Externals) (r1 r2 op : Z) : bool :=
  implb (Z.testbit op 0) ((r1 =? 10) || (r1 <? 0))
  && implb (Z.testbit op 1) ((r2 =? 10) || (r2 <? 0))
  && implb (Z.testbit op 2) (r1 <? 0)
  && implb (Z.testbit op 3) (r2 <? 0)
  && implb (Z.testbit op 4)
       (negb (Bool.eqb (IsWordChar X r1) (IsWordChar X r2)))
  && implb (Z.testbit op 5) (Bool.eqb (IsWordChar X r1) (IsWordChar X r2))
  && (op <? 64).

(** What the machine expects of the decoders of [unicode/utf8]: on bytes
    that begin (or, for the last rune, end) with a byte that is not ASCII,
    the rune returned is an [int32] that is not ASCII either. *)
Definition decodersOk (X : Externals) : Prop :=
  (forall c rest, RuneSelf <= byteRune c ->
                  RuneSelf <= fst (DecodeRune X (c :: rest)) < 2 ^ 31)
  /\ (forall front c, RuneSelf <= byteRune c ->
                      RuneSelf <= fst (DecodeLastRune X (front ++ [c]))
                      < 2 ^ 31).

(** The sparse set of a queue: every dense entry is indexed by the sparse
    array at its pc. *)
Definition qwf (q : queue) : Prop :=
  forall j e, at_ (q_dense q) j = Done e -> at_ (q_sparse q) (e_pc e) = Done j.

(** Both queues of a machine are sparse sets. *)
Definition queuesOk (m : Machine) : Prop := forall q, qwf (getq m q).

(** The threads a machine holds: those of the free list and those of
    the entries of the two queues. *)
Definition owned (m : Machine) : list nat :=
  m_pool m ++ threadsOf (q_dense (m_q0 m)) ++ threadsOf (q_dense (m_q1 m)).

(** No thread is held twice, and every thread held is one of the [n]
    allocated. *)
Definition unshared (n : nat) (l : list nat) : Prop :=
  NoDup l /\ Forall (fun t => (t < n)%nat) l.

Definition threadsOk (m : Machine) : Prop :=
  unshared (List.length (m_threads m)) (owned m).

(** The thread argument of [add], as the list of the threads it is. *)
Definition optl (t : option nat) : list nat :=
  match t with Some x => [x] | None => [] end.

Definition cnt (x : nat) (l : list nat) : nat := count_occ Nat.eq_dec l x.

(** Every machine in the pools shares no thread. *)
Definition poolsOk (w : World) : Prop :=
  forall pl im, In pl (matchPool w) -> In im pl -> threadsOk (snd im).

(** The instruction at [pc] leads to [InstMatch] along instructions that
    read no input and ask for no condition: the program matches the
    empty string.  [add] stops at pc 0. *)
Inductive emptyToMatch (prog : Prog) : Z -> Prop :=
| toMatch_here (pc : Z) (i : Inst) :
    pc <> 0 -> at_ (Insts prog) pc = Done i -> Op i = InstMatch ->
    emptyToMatch prog pc
| toMatch_out (pc : Z) (i : Inst) :
    pc <> 0 -> at_ (Insts prog) pc = Done i ->
    Op i = InstNop \/ Op i = InstCapture \/ Op i = InstAlt
    \/ Op i = InstAltMatch ->
    emptyToMatch prog (Out i) -> emptyToMatch prog pc
| toMatch_arg (pc : Z) (i : Inst) :
    pc <> 0 -> at_ (Insts prog) pc = Done i ->
    Op i = InstAlt \/ Op i = InstAltMatch ->
    emptyToMatch prog (Arg i) -> emptyToMatch prog pc.

(** The pcs of the entries of a queue. *)
Definition pcsOf (m : Machine) (q : qsel) : list Z :=
  map e_pc (q_dense (getq m q)).

(** The instruction at [pc] is not [InstMatch], and what [add] goes on
    with from it is among the pcs [S]. *)
Definition followed (prog : Prog) (S : list Z) (pc : Z) : Prop :=
  exists i,
    at_ (Insts prog) pc = Done i /\ Op i <> InstMatch
    /\ (Op i = InstNop \/ Op i = InstCapture \/ Op i = InstAlt
        \/ Op i = InstAltMatch -> Out i = 0 \/ In (Out i) S)
    /\ (Op i = InstAlt \/ Op i = InstAltMatch -> Arg i = 0 \/ In (Arg i) S).

(** [a*]: the loop is entered at the [Alt]. *)
Definition prog_a_star : Prog :=
  mkProg [iFail; rune1 97 2; iAlt 1 3; iMatch] 2 2.

(** [(a)]: a capture group around the rune. *)
Definition prog_a_group : Prog :=
  mkProg [iFail; mkInst InstCapture 2 2 []; rune1 97 3;
          mkInst InstCapture 4 3 []; iMatch] 1 4.

(** A machine for [(a)], as [Regexp.Get] returns it. *)
Definition machine_a_group : Machine :=
  fromDone newMachine (freshMachine (mkRegexp prog_a_group [] 0 4 0 false)).

(** * Properties *)

(** ** Slices and outcomes *)

Lemma bind_Done {A B : Type} (c : result A) (k : A -> result B) (b : B) :
  bind c k = Done b -> exists a, c = Done a /\ k a = Done b.
Proof.
  destruct c; simpl; intros H; try discriminate.
  exists a; split; [reflexivity | exact H].
Qed.

Lemma len_nonneg {A : Type} (l : list A) : 0 <= len l.
Proof. unfold len; lia. Qed.

Lemma len_app {A : Type} (l1 l2 : list A) : len (l1 ++ l2) = len l1 + len l2.
Proof. unfold len; rewrite length_app; lia. Qed.

Lemma len_nil_iff {A : Type} (l : list A) : len l = 0 <-> l = [].
Proof.
  unfold len; destruct l; simpl; split; intros H; try reflexivity;
  try discriminate; lia.
Qed.

Lemma at_Done {A : Type} (l : list A) (i : Z) (a : A) :
  at_ l i = Done a <-> 0 <= i /\ nth_error l (Z.to_nat i) = Some a.
Proof.
  unfold at_. destruct (Z.ltb_spec i 0).
  - split; [discriminate | lia].
  - destruct (nth_error l (Z.to_nat i)) eqn:E; split; intros H1.
    + inversion H1; subst; auto.
    + destruct H1 as [_ H1]; inversion H1; reflexivity.
    + discriminate.
    + destruct H1 as [_ H1]; discriminate.
Qed.

Lemma at_range {A : Type} (l : list A) (i : Z) :
  0 <= i < len l -> exists a, at_ l i = Done a.
Proof.
  intros [H0 H1]. unfold len in H1.
  destruct (nth_error l (Z.to_nat i)) eqn:E.
  - exists a. apply at_Done; auto.
  - apply nth_error_None in E. lia.
Qed.

Lemma at_Done_range {A : Type} (l : list A) (i : Z) (a : A) :
  at_ l i = Done a -> 0 <= i < len l.
Proof.
  intros H. apply at_Done in H. destruct H as [H0 H1].
  assert (nth_error l (Z.to_nat i) <> None) by congruence.
  apply nth_error_Some in H. unfold len. lia.
Qed.

Lemma length_set_nth {A : Type} (l : list A) (n : nat) (v : A) :
  List.length (set_nth l n v) = List.length l.
Proof.
  revert n; induction l; intros [|n]; simpl; auto.
Qed.

Lemma nth_set_nth_same {A : Type} (l : list A) (n : nat) (v : A) :
  (n < List.length l)%nat -> nth_error (set_nth l n v) n = Some v.
Proof.
  revert n; induction l; intros [|n] H; simpl in *; try lia; auto.
  apply IHl; lia.
Qed.

Lemma nth_set_nth_other {A : Type} (l : list A) (n k : nat) (v : A) :
  n <> k -> nth_error (set_nth l n v) k = nth_error l k.
Proof.
  revert n k; induction l; intros [|n] [|k] H; simpl; auto; try congruence.
Qed.

Lemma upd_Done {A : Type} (l : list A) (i : Z) (v : A) :
  0 <= i < len l -> upd l i v = Done (set_nth l (Z.to_nat i) v).
Proof.
  intros H. unfold upd.
  destruct (Z.ltb_spec i 0); try lia.
  destruct (Z.leb_spec (len l) i); try lia. reflexivity.
Qed.

Lemma upd_inv {A : Type} (l l' : list A) (i : Z) (v : A) :
  upd l i v = Done l' ->
  0 <= i < len l /\ l' = set_nth l (Z.to_nat i) v.
Proof.
  unfold upd. destruct (Z.ltb_spec i 0); simpl; try discriminate.
  destruct (Z.leb_spec (len l) i); simpl; try discriminate.
  intros H1; inversion H1; split; [lia | reflexivity].
Qed.

Lemma len_set_nth {A : Type} (l : list A) (n : nat) (v : A) :
  len (set_nth l n v) = len l.
Proof. unfold len; rewrite length_set_nth; reflexivity. Qed.

Lemma at_set_nth_same {A : Type} (l : list A) (i : Z) (v : A) :
  0 <= i < len l -> at_ (set_nth l (Z.to_nat i) v) i = Done v.
Proof.
  intros H. apply at_Done. split; [lia|].
  apply nth_set_nth_same. unfold len in H. lia.
Qed.

Lemma at_set_nth_other {A : Type} (l : list A) (i k : Z) (v : A) :
  0 <= i -> 0 <= k -> i <> k ->
  at_ (set_nth l (Z.to_nat i) v) k = at_ l k.
Proof.
  intros Hi Hk Hne. unfold at_.
  destruct (Z.ltb_spec k 0); auto.
  rewrite nth_set_nth_other; auto. lia.
Qed.

Lemma len_zeros (n : Z) : 0 <= n -> len (zeros n) = n.
Proof. intros H. unfold len, zeros. rewrite repeat_length. lia. Qed.

Lemma at_zeros (n i : Z) : 0 <= i < n -> at_ (zeros n) i = Done 0.
Proof.
  intros H. apply at_Done. split; [lia|].
  unfold zeros. apply nth_error_repeat. lia.
Qed.

(** ** The failure table *)

Lemma border_ext (p : bytes) (i j : Z) :
  border p i j -> at_ p j = at_ p i -> border p (i + 1) (j + 1).
Proof.
  intros Hb He x Hx. unfold border in Hb.
  destruct (Z.eq_dec x j) as [->|Hne].
  - rewrite He. f_equal. lia.
  - rewrite Hb by lia. f_equal. lia.
Qed.

Lemma border_trans (p : bytes) (i j v : Z) :
  border p i j -> border p j v -> 0 <= v <= j -> border p i v.
Proof.
  intros Hij Hjv Hv x Hx.
  rewrite (Hjv x Hx). rewrite (Hij (j - v + x)) by lia. f_equal. lia.
Qed.

Lemma computeLpsLoop_ok (p : bytes) :
  forall (fuel : nat) (array : list Z) (i j : Z),
    len array = len p ->
    1 <= i -> 0 <= j < i ->
    (forall k, 0 <= k < i -> k < len p -> lpsEntry p array k) ->
    border p i j ->
    2 * Z.max 0 (len p - i) + j < Z.of_nat fuel ->
    exists array', computeLpsLoop fuel p array i j = Done array'
                   /\ lpsOk p array'.
Proof.
  induction fuel as [|fuel IH]; intros array i j Hlen Hi Hj Hent Hb Hfuel.
  - lia.
  - simpl. destruct (Z.ltb_spec i (len p)) as [Hlt|Hge].
    + destruct (at_range p i) as [pi Hpi]; [lia|].
      destruct (at_range p j) as [pj Hpj]; [lia|].
      rewrite Hpi, Hpj. cbn [bind].
      destruct (Byte.eqb pi pj) eqn:Heq.
      * apply byte_dec_bl in Heq. subst pj.
        rewrite upd_Done by lia. cbn [bind].
        apply IH; try lia.
        -- rewrite len_set_nth; exact Hlen.
        -- intros k Hk Hkp. destruct (Z.eq_dec k i) as [->|Hne].
           ++ exists (j + 1). split; [apply at_set_nth_same; lia|].
              split; [lia|]. apply border_ext; auto. congruence.
           ++ destruct (Hent k) as [v [Hv1 Hv2]]; try lia.
              exists v. split; auto.
              rewrite at_set_nth_other; auto; lia.
        -- apply border_ext; auto. congruence.
      * destruct (Z.eqb_spec j 0) as [Hj0|Hj0]; cbn [negb].
        -- rewrite upd_Done by lia. cbn [bind].
           apply IH; try lia.
           ++ rewrite len_set_nth; exact Hlen.
           ++ intros k Hk Hkp. destruct (Z.eq_dec k i) as [->|Hne].
              ** exists 0. split; [apply at_set_nth_same; lia|].
                 split; [lia|]. intros x Hx; lia.
              ** destruct (Hent k) as [v [Hv1 Hv2]]; try lia.
                 exists v. split; auto.
                 rewrite at_set_nth_other; auto; lia.
           ++ subst j. intros x Hx; lia.
        -- destruct (Hent (j - 1)) as [v [Hv1 [Hv2 Hv3]]]; try lia.
           rewrite Hv1. cbn [bind].
           apply IH; try lia; auto.
           replace (j - 1 + 1) with j in Hv3 by lia.
           apply border_trans with (j := j); auto. lia.
    + exists array. split; auto. split; auto.
      intros k Hk. apply Hent; lia.
Qed.

Lemma computeLpsArray_ok (p : bytes) (fuel : nat) :
  2 * len p < Z.of_nat fuel ->
  exists array, computeLpsArray fuel p = Done array /\ lpsOk p array.
Proof.
  intros Hfuel. unfold computeLpsArray.
  pose proof (len_nonneg p) as Hp.
  apply computeLpsLoop_ok; try lia.
  - apply len_zeros; lia.
  - intros k Hk Hkp. assert (k = 0) by lia. subst k.
    exists 0. split; [apply at_zeros; lia|]. split; [lia|].
    intros x Hx; lia.
  - intros x Hx; lia.
Qed.

Lemma newKmpPattern_ok (src : bytes) (fuel : nat) :
  2 * len src < Z.of_nat fuel ->
  exists pat, newKmpPattern fuel src = Done pat /\ kmpWf pat
              /\ source pat = src.
Proof.
  intros Hfuel. unfold newKmpPattern.
  destruct (computeLpsArray_ok src fuel Hfuel) as [array [H1 H2]].
  rewrite H1. cbn [bind]. eexists; split; [reflexivity|].
  split; [split; [reflexivity | exact H2] | reflexivity].
Qed.

(** ** The scan *)

Lemma kmpLoop_ok (pat : kmpPattern) (buffer : bytes) :
  kmpWf pat ->
  forall (fuel : nat) (i j : Z),
    0 <= j < length pat ->
    live buffer (source pat) (i - j) j ->
    2 * (len buffer - i) + j < Z.of_nat fuel ->
    exists i' j' ok,
      kmpLoop fuel pat buffer i j = Done (i', j', ok)
      /\ live buffer (source pat) i' j'
      /\ i - j <= i'
      /\ (ok = true -> j' = length pat)
      /\ (ok = false -> j' < length pat /\ i' + j' = len buffer).
Proof.
  intros [Hlen [Hl1 Hl2]].
  induction fuel as [|fuel IH]; intros i j Hj Hlive Hfuel.
  - destruct Hlive as [H0 [H1 [H2 _]]]. lia.
  - destruct Hlive as [H0 [H1 [H2 H3]]].
    simpl. destruct (Z.ltb_spec i (len buffer)) as [Hlt|Hge].
    + destruct (at_range buffer i) as [b Hb]; [lia|].
      destruct (at_range (source pat) j) as [s Hs]; [lia|].
      rewrite Hb, Hs. cbn [bind].
      destruct (Byte.eqb b s) eqn:Heq.
      * apply byte_dec_bl in Heq. subst s.
        assert (Hlive' : live buffer (source pat) (i + 1 - (j + 1)) (j + 1)).
        { split; [lia|]. split; [lia|]. split; [lia|].
          intros x Hx. destruct (Z.eq_dec x j) as [->|Hne].
          - replace (i + 1 - (j + 1) + j) with i by lia. congruence.
          - replace (i + 1 - (j + 1) + x) with (i - j + x) by lia.
            apply H3; lia. }
        destruct (Z.eqb_spec (j + 1) (length pat)) as [Hm|Hm].
        -- exists (i + 1 - (j + 1)), (j + 1), true.
           split; [reflexivity|]. split; [exact Hlive'|].
           split; [lia|]. split; [auto | discriminate].
        -- destruct (IH (i + 1) (j + 1)) as [i' [j' [ok [E1 [E2 [E3 E4]]]]]];
             try lia; auto.
           exists i', j', ok. split; [exact E1|]. split; [exact E2|].
           split; [lia | exact E4].
      * destruct (Z.eqb_spec j 0) as [Hj0|Hj0]; cbn [negb].
        -- destruct (IH (i + 1) j) as [i' [j' [ok [E1 [E2 [E3 E4]]]]]];
             try lia.
           { subst j. split; [lia|]. split; [lia|]. split; [lia|].
             intros x Hx; lia. }
           exists i', j', ok. split; [exact E1|]. split; [exact E2|].
           split; [lia | exact E4].
        -- destruct (Hl2 (j - 1)) as [v [Hv1 [Hv2 Hv3]]]; [lia|].
           rewrite Hv1. cbn [bind].
           replace (j - 1 + 1) with j in Hv3 by lia.
           destruct (IH i v) as [i' [j' [ok [E1 [E2 [E3 E4]]]]]]; try lia.
           { split; [lia|]. split; [lia|]. split; [lia|].
             intros x Hx. rewrite (Hv3 x Hx).
             replace (i - v + x) with (i - j + (j - v + x)) by lia.
             apply H3; lia. }
           exists i', j', ok. split; [exact E1|]. split; [exact E2|].
           split; [lia | exact E4].
    + exists (i - j), j, false. split; [reflexivity|].
      split; [split; [lia | split; [lia | split; [lia | exact H3]]]|].
      split; [lia|]. split; [discriminate|]. intros _. lia.
Qed.


Lemma nth_error_sub {A : Type} (s : list A) (lo hi : Z) (x : nat) :
  0 <= lo -> (Z.of_nat x < hi - lo) ->
  nth_error (sub s lo hi) x = nth_error s (Z.to_nat lo + x).
Proof.
  intros Hlo Hx. unfold sub.
  rewrite nth_error_firstn.
  destruct (Nat.ltb_spec x (Z.to_nat (hi - lo))); [|lia].
  rewrite nth_error_skipn. reflexivity.
Qed.

Lemma length_sub {A : Type} (s : list A) (lo hi : Z) :
  0 <= lo <= hi -> hi <= len s -> len (sub s lo hi) = hi - lo.
Proof.
  intros H1 H2. unfold sub, len in *.
  rewrite length_firstn, length_skipn. lia.
Qed.

Lemma live_sub (buffer p : bytes) (start n : Z) :
  live buffer p start n <->
  0 <= start /\ 0 <= n <= len p /\ start + n <= len buffer /\
  sub buffer start (start + n) = sub p 0 n.
Proof.
  split.
  - intros [H0 [H1 [H2 H3]]]. repeat split; try lia.
    apply nth_error_ext. intros x.
    destruct (Z.lt_ge_cases (Z.of_nat x) n) as [Hx|Hx].
    + rewrite !nth_error_sub by lia.
      specialize (H3 (Z.of_nat x) ltac:(lia)).
      unfold at_ in H3.
      destruct (Z.ltb_spec (start + Z.of_nat x) 0); [lia|].
      destruct (Z.ltb_spec (Z.of_nat x) 0); [lia|].
      replace (Z.to_nat (start + Z.of_nat x)) with (Z.to_nat start + x)%nat
        in H3 by lia.
      replace (Z.to_nat (Z.of_nat x)) with x in H3 by lia.
      simpl.
      destruct (nth_error buffer (Z.to_nat start + x)) eqn:E1;
        destruct (nth_error p x) eqn:E2; congruence.
    + assert (L1 : len (sub buffer start (start + n)) = n).
      { rewrite length_sub; lia. }
      assert (L2 : len (sub p 0 n) = n).
      { rewrite length_sub; lia. }
      unfold len in L1, L2.
      assert (E1 : nth_error (sub buffer start (start + n)) x = None).
      { apply nth_error_None. lia. }
      assert (E2 : nth_error (sub p 0 n) x = None).
      { apply nth_error_None. lia. }
      congruence.
  - intros [H0 [H1 [H2 H3]]]. repeat split; try lia.
    intros x Hx.
    assert (E : nth_error (sub buffer start (start + n)) (Z.to_nat x)
                = nth_error (sub p 0 n) (Z.to_nat x)) by (rewrite H3; auto).
    rewrite !nth_error_sub in E by lia.
    unfold at_.
    destruct (Z.ltb_spec (start + x) 0); [lia|].
    destruct (Z.ltb_spec x 0); [lia|].
    replace (Z.to_nat (start + x)) with (Z.to_nat start + Z.to_nat x)%nat
      by lia.
    simpl in E. rewrite E. reflexivity.
Qed.



(** ** Conservation *)

Lemma Buffer_Next_app (buf raw rest : bytes) (n : Z) :
  Buffer_Next buf n = Done (raw, rest) -> raw ++ rest = buf.
Proof.
  unfold Buffer_Next, slice_to, slice_from.
  destruct (_ <? 0); [discriminate|].
  intros H; inversion H; subst. apply firstn_skipn.
Qed.

Lemma raws_app (a b : list textResult) : raws (a ++ b) = raws a ++ raws b.
Proof. unfold raws. rewrite map_app, concat_app. reflexivity. Qed.

Lemma raws_snoc (a : list textResult) (r : textResult) :
  raws (a ++ [r]) = raws a ++ r_raw r.
Proof. rewrite raws_app. unfold raws; simpl. rewrite app_nil_r. reflexivity. Qed.

Lemma encore_conserve (X : Externals) (fuel : nat) :
  forall (rounds : nat) (stop : list textResult -> bool) (m : matcher)
         (out : list textResult) (m' : matcher) (out' : list textResult),
    encore X fuel rounds stop m out = Done (m', out') ->
    raws out' ++ buffer m' = raws out ++ buffer m.
Proof.
  induction rounds as [|rounds IH]; intros stop m out m' out' H;
    [discriminate|].
  simpl in H.
  apply bind_Done in H. destruct H as [pat [_ H]].
  apply bind_Done in H. destruct H as [[pat' [[idx off] ok]] [_ H]].
  destruct ok.
  - apply bind_Done in H. destruct H as [[[m2 out2] go] [H2 H]].
    assert (E2 : raws out2 ++ buffer m2 = raws out ++ buffer m).
    { cbn [state index offset buffer patterns] in H2.
      destruct (0 <? idx).
      - apply bind_Done in H2. destruct H2 as [[raw rest] [Hn H2]].
        apply Buffer_Next_app in Hn. unfold setPattern in Hn. simpl in Hn.
        unfold yield in H2. inversion H2; subst. simpl.
        rewrite raws_snoc, <- app_assoc. simpl. congruence.
      - inversion H2; subst. reflexivity. }
    destruct go; cbn [negb] in H.
    + apply bind_Done in H. destruct H as [[raw rest] [Hn H]].
      apply Buffer_Next_app in Hn. cbn [buffer] in Hn.
      unfold yield in H. cbn [state index offset buffer patterns] in H.
      destruct (negb (negb (stop _))).
      * inversion H; subst. simpl. rewrite raws_snoc, <- app_assoc.
        simpl. rewrite Hn. exact E2.
      * apply IH in H. cbn [buffer] in H. rewrite H.
        rewrite raws_snoc, <- app_assoc. simpl. rewrite Hn. exact E2.
    + inversion H; subst. exact E2.
  - cbn [state index offset buffer patterns] in H.
    destruct (idx =? 0).
    + inversion H; subst. reflexivity.
    + apply bind_Done in H. destruct H as [[raw rest] [Hn H]].
      apply Buffer_Next_app in Hn. unfold setPattern in Hn. simpl in Hn.
      unfold yield in H. inversion H; subst. simpl.
      rewrite raws_snoc, <- app_assoc. simpl. rewrite Hn. reflexivity.
Qed.

Lemma Match_conserve (X : Externals) (fuel : nat)
    (stop : list textResult -> bool) (m m' : matcher) (s : bytes)
    (out : list textResult) :
  Match X fuel stop m s = Done (m', out) ->
  raws out ++ buffer m' = buffer m ++ s.
Proof.
  unfold Match. intros H. apply encore_conserve in H. exact H.
Qed.

Lemma feedWith_conserve (X : Externals) (fuel : nat) :
  forall (chunks : list (bytes * (list textResult -> bool)))
         (m m' : matcher) (segs : list textResult),
    feedWith X fuel m chunks = Done (m', segs) ->
    raws segs ++ buffer m' = buffer m ++ List.concat (map fst chunks).
Proof.
  induction chunks as [|[c stop] tl IH]; intros m m' segs H; simpl in H.
  - inversion H; subst. simpl. rewrite app_nil_r. reflexivity.
  - apply bind_Done in H. destruct H as [[m1 segs1] [H1 H]].
    apply bind_Done in H. destruct H as [[m2 segs2] [H2 H]].
    inversion H; subst.
    apply Match_conserve in H1. apply IH in H2.
    simpl. rewrite raws_app, <- app_assoc, H2, app_assoc, H1.
    rewrite <- app_assoc. reflexivity.
Qed.

Lemma NewMatcher_buffer (MC MCP : bytes -> result Regexp) (fuel : nat)
    (w w' : World) (pair : Pair) (c0 c1 : option nat) (m : matcher) :
  NewMatcher MC MCP fuel w pair c0 c1 = Done (w', m) ->
  buffer m = [] /\ state m = STATE_NONE /\ index m = 0 /\ offset m = 0.
Proof.
  unfold NewMatcher. intros H.
  apply bind_Done in H. destruct H as [[w1 p1] [_ H]].
  apply bind_Done in H. destruct H as [[w2 p2] [_ H]].
  inversion H; subst. simpl. auto.
Qed.


(** ** Literal pairs *)

Lemma kmpMatch_ok (pat : kmpPattern) (buffer : bytes) (off : Z) (fuel : nat) :
  kmpWf pat -> 0 <= off < length pat ->
  live buffer (source pat) 0 off ->
  2 * len buffer + length pat < Z.of_nat fuel ->
  exists i' j' ok,
    kmpMatch fuel pat 0 off buffer = Done (i', j', ok)
    /\ live buffer (source pat) i' j'
    /\ (ok = true -> j' = length pat)
    /\ (ok = false -> j' < length pat /\ i' + j' = len buffer).
Proof.
  intros Hwf Hoff Hlive Hfuel. unfold kmpMatch.
  destruct (Z.eqb_spec off (length pat)); [lia|].
  destruct (kmpLoop_ok pat buffer Hwf fuel (0 + off) off)
    as [i' [j' [ok [E1 [E2 [E3 E4]]]]]]; try lia.
  { replace (0 + off - off) with 0 by lia. exact Hlive. }
  exists i', j', ok. auto.
Qed.

Lemma live_skip (buffer p : bytes) (i j : Z) :
  live buffer p i j -> live (slice_from buffer i) p 0 j.
Proof.
  intros [H0 [H1 [H2 H3]]]. unfold slice_from.
  split; [lia|]. split; [lia|]. split.
  - clear H3. unfold len in *. rewrite length_skipn. lia.
  - intros x Hx. rewrite <- (H3 x Hx). unfold at_.
    destruct (Z.ltb_spec (0 + x) 0); [lia|].
    destruct (Z.ltb_spec (i + x) 0); [lia|].
    rewrite nth_error_skipn.
    replace (Z.to_nat i + Z.to_nat (0 + x))%nat with (Z.to_nat (i + x))
      by lia.
    reflexivity.
Qed.

Lemma live_app (buffer p s : bytes) (j : Z) :
  live buffer p 0 j -> live (buffer ++ s) p 0 j.
Proof.
  intros [H0 [H1 [H2 H3]]].
  split; [lia|]. split; [lia|]. split.
  - rewrite len_app. pose proof (len_nonneg s). lia.
  - intros x Hx. rewrite <- (H3 x Hx). unfold at_.
    destruct (Z.ltb_spec (0 + x) 0); [lia|].
    rewrite nth_error_app1; [reflexivity|]. unfold len in *. lia.
Qed.

Lemma live_nil (buffer p : bytes) : live buffer p 0 0.
Proof.
  pose proof (len_nonneg buffer). pose proof (len_nonneg p).
  split; [lia|]. split; [lia|]. split; [lia|]. intros x Hx; lia.
Qed.

Lemma Buffer_Next_ok (buf : bytes) (n : Z) :
  0 <= n <= len buf ->
  Buffer_Next buf n = Done (slice_to buf n, slice_from buf n).
Proof.
  intros H. unfold Buffer_Next.
  destruct (Z.ltb_spec (len buf) n); [lia|].
  destruct (Z.ltb_spec n 0); [lia|]. reflexivity.
Qed.

Lemma len_slice_to {A : Type} (l : list A) (n : Z) :
  0 <= n <= len l -> len (slice_to l n) = n.
Proof. intros H. unfold len, slice_to in *. rewrite length_firstn. lia. Qed.

Lemma len_slice_from {A : Type} (l : list A) (n : Z) :
  0 <= n <= len l -> len (slice_from l n) = len l - n.
Proof. intros H. unfold len, slice_from in *. rewrite length_skipn. lia. Qed.

(** ** The scan does not depend on how the buffer was cut *)

Lemma kmpLoop_mono (pat : kmpPattern) (buffer : bytes) :
  forall (fuel fuel' : nat) (i j : Z) (r : Z * Z * bool),
    kmpLoop fuel pat buffer i j = Done r ->
    (fuel <= fuel')%nat ->
    kmpLoop fuel' pat buffer i j = Done r.
Proof.
  induction fuel as [|fuel IH]; intros fuel' i j r H Hle; [discriminate|].
  destruct fuel' as [|fuel']; [lia|].
  simpl in *.
  destruct (i <? len buffer); [|exact H].
  destruct (at_ buffer i) as [b| |]; try discriminate.
  destruct (at_ (source pat) j) as [s| |]; try discriminate.
  cbn [bind] in *.
  destruct (Byte.eqb b s).
  - destruct (j + 1 =? length pat); [exact H|]. apply IH; [exact H | lia].
  - destruct (negb (j =? 0)).
    + destruct (at_ (lps pat) (j - 1)) as [j'| |]; try discriminate.
      cbn [bind] in *. apply IH; [exact H | lia].
    + apply IH; [exact H | lia].
Qed.

Lemma kmpRuns_det (pat : kmpPattern) (buffer : bytes) (i j : Z)
    (r r' : Z * Z * bool) :
  kmpRuns pat buffer i j r -> kmpRuns pat buffer i j r' -> r = r'.
Proof.
  intros [f Hf] [f' Hf'].
  apply (kmpLoop_mono _ _ _ (Nat.max f f')) in Hf; [|lia].
  apply (kmpLoop_mono _ _ _ (Nat.max f f')) in Hf'; [|lia].
  congruence.
Qed.

Lemma at_app_l {A : Type} (l s : list A) (i : Z) :
  i < len l -> at_ (l ++ s) i = at_ l i.
Proof.
  intros H. unfold at_. destruct (Z.ltb_spec i 0); [reflexivity|].
  rewrite nth_error_app1; [reflexivity|]. unfold len in H. lia.
Qed.

Lemma at_skip {A : Type} (l : list A) (k i : Z) :
  0 <= k -> 0 <= i -> at_ (slice_from l k) i = at_ l (i + k).
Proof.
  intros Hk Hi. unfold at_, slice_from.
  destruct (Z.ltb_spec i 0); [lia|].
  destruct (Z.ltb_spec (i + k) 0); [lia|].
  rewrite nth_error_skipn.
  replace (Z.to_nat k + Z.to_nat i)%nat with (Z.to_nat (i + k)) by lia.
  reflexivity.
Qed.

(** A match found in the buffer is found in any extension of it. *)
Lemma kmpLoop_app_match (pat : kmpPattern) (buffer s : bytes) :
  forall (fuel : nat) (i j i' j' : Z),
    kmpLoop fuel pat buffer i j = Done (i', j', true) ->
    kmpLoop fuel pat (buffer ++ s) i j = Done (i', j', true).
Proof.
  induction fuel as [|fuel IH]; intros i j i' j' H; [discriminate|].
  simpl in *.
  destruct (Z.ltb_spec i (len buffer)) as [Hlt|Hge]; [|discriminate].
  pose proof (len_nonneg s) as Hs.
  destruct (Z.ltb_spec i (len (buffer ++ s))) as [_|Hge];
    [|rewrite len_app in Hge; lia].
  rewrite at_app_l by exact Hlt.
  destruct (at_ buffer i) as [b| |]; try discriminate.
  destruct (at_ (source pat) j) as [c| |]; try discriminate.
  cbn [bind] in *.
  destruct (Byte.eqb b c).
  - destruct (j + 1 =? length pat); [exact H|]. apply IH; exact H.
  - destruct (negb (j =? 0)).
    + destruct (at_ (lps pat) (j - 1)) as [j0| |]; try discriminate.
      cbn [bind] in *. apply IH; exact H.
    + apply IH; exact H.
Qed.

(** A scan that reached the end of the buffer goes on from there in an
    extension of it. *)
Lemma kmpLoop_app_resume (pat : kmpPattern) (buffer s : bytes) :
  forall (fuel : nat) (i j i' j' : Z) (r : Z * Z * bool),
    i <= len buffer ->
    kmpLoop fuel pat buffer i j = Done (i', j', false) ->
    kmpRuns pat (buffer ++ s) (i' + j') j' r ->
    kmpRuns pat (buffer ++ s) i j r.
Proof.
  induction fuel as [|fuel IH]; intros i j i' j' r Hi H Hr; [discriminate|].
  simpl in H.
  destruct (Z.ltb_spec i (len buffer)) as [Hlt|Hge].
  - pose proof (len_nonneg s) as Hs.
    destruct (at_ buffer i) as [b| |] eqn:Hb; try discriminate.
    destruct (at_ (source pat) j) as [c| |] eqn:Hc; try discriminate.
    cbn [bind] in H.
    assert (Hunfold : forall f i1 j1,
               (if Byte.eqb b c
                then if j + 1 =? length pat then False
                     else i1 = i + 1 /\ j1 = j + 1
                else if negb (j =? 0)
                     then i1 = i /\ at_ (lps pat) (j - 1) = Done j1
                     else i1 = i + 1 /\ j1 = j) ->
               kmpLoop f pat (buffer ++ s) i1 j1 = Done r ->
               kmpLoop (S f) pat (buffer ++ s) i j = Done r).
    { intros f i1 j1 Hcase Hf. simpl.
      destruct (Z.ltb_spec i (len (buffer ++ s))) as [_|Hge];
        [|rewrite len_app in Hge; lia].
      rewrite at_app_l by exact Hlt. rewrite Hb, Hc. cbn [bind].
      destruct (Byte.eqb b c).
      - destruct (j + 1 =? length pat); [contradiction|].
        destruct Hcase as [-> ->]. exact Hf.
      - destruct (negb (j =? 0)).
        + destruct Hcase as [-> Hl]. rewrite Hl. cbn [bind]. exact Hf.
        + destruct Hcase as [-> ->]. exact Hf. }
    destruct (Byte.eqb b c) eqn:Heq.
    + destruct (j + 1 =? length pat) eqn:Hm; [discriminate|].
      destruct (IH (i + 1) (j + 1) i' j' r ltac:(lia) H Hr) as [f Hf].
      exists (S f). apply (Hunfold f (i + 1) (j + 1)); auto.
    + destruct (negb (j =? 0)) eqn:Hj.
      * destruct (at_ (lps pat) (j - 1)) as [j0| |] eqn:Hl;
          try discriminate.
        cbn [bind] in H.
        destruct (IH i j0 i' j' r ltac:(lia) H Hr) as [f Hf].
        exists (S f). apply (Hunfold f i j0); auto.
      * destruct (IH (i + 1) j i' j' r ltac:(lia) H Hr) as [f Hf].
        exists (S f). apply (Hunfold f (i + 1) j); auto.
  - inversion H; subst.
    replace (i - j' + j') with i in Hr by lia. exact Hr.
Qed.

(** Dropping bytes in front of the live prefix shifts the result. *)
Lemma kmpLoop_skip (pat : kmpPattern) (buffer : bytes) (k : Z) :
  0 <= k <= len buffer ->
  forall (fuel : nat) (i j a b : Z) (ok : bool),
    0 <= i ->
    kmpLoop fuel pat (slice_from buffer k) i j = Done (a, b, ok) ->
    kmpLoop fuel pat buffer (i + k) j = Done (a + k, b, ok).
Proof.
  intros Hk.
  induction fuel as [|fuel IH]; intros i j a b ok Hi H; [discriminate|].
  simpl in *.
  rewrite len_slice_from in H by exact Hk.
  destruct (Z.ltb_spec i (len buffer - k)) as [Hlt|Hge];
    destruct (Z.ltb_spec (i + k) (len buffer)) as [Hlt'|Hge']; try lia.
  - rewrite at_skip in H by lia.
    destruct (at_ buffer (i + k)) as [x| |]; try discriminate.
    destruct (at_ (source pat) j) as [c| |]; try discriminate.
    cbn [bind] in *.
    destruct (Byte.eqb x c).
    + destruct (j + 1 =? length pat).
      * inversion H; subst. f_equal. f_equal. f_equal. lia.
      * replace (i + k + 1) with (i + 1 + k) by lia. apply IH; [lia|exact H].
    + destruct (negb (j =? 0)).
      * destruct (at_ (lps pat) (j - 1)) as [j0| |]; try discriminate.
        cbn [bind] in *. apply IH; [lia | exact H].
      * replace (i + k + 1) with (i + 1 + k) by lia. apply IH; [lia|exact H].
  - inversion H; subst. f_equal. f_equal. f_equal. lia.
Qed.

(** ** The rounds of a call on a literal pair *)

Lemma encore_mono (X : Externals) (fuel : nat)
    (stop : list textResult -> bool) :
  forall (rounds rounds' : nat) (m : matcher) (out : list textResult)
         (r : matcher * list textResult),
    encore X fuel rounds stop m out = Done r ->
    (rounds <= rounds')%nat ->
    encore X fuel rounds' stop m out = Done r.
Proof.
  induction rounds as [|rounds IH]; intros rounds' m out r H Hle;
    [discriminate|].
  destruct rounds' as [|rounds']; [lia|].
  cbn [encore] in *.
  destruct (getPattern m) as [pat| |]; try discriminate.
  cbn [bind] in *.
  destruct (pattern_Match X fuel pat (index m) (offset m) (buffer m))
    as [[pat' [[idx off] ok]]| |]; try discriminate.
  cbn [bind] in *.
  destruct ok; [|exact H].
  match type of H with
  | bind ?c _ = _ => destruct c as [[[m2 out2] go]| |]; try discriminate
  end.
  cbn [bind] in *.
  destruct (negb go); [exact H|].
  match type of H with
  | bind ?c _ = _ => destruct c as [[raw rest]| |]; try discriminate
  end.
  cbn [bind] in *.
  match type of H with
  | (let '(_, _) := ?y in _) = _ => destruct y as [out3 go3]
  end.
  destruct (negb go3); [exact H|].
  apply IH; [exact H | lia].
Qed.

Section LiteralRounds.

Variable X : Externals.
Variable fuel : nat.
Variables h t : kmpPattern.

Lemma literalRuns_mono r r' st off buf st1 off1 buf1 o1 :
  literalRuns X fuel r h t st off buf st1 off1 buf1 o1 ->
  (r <= r')%nat ->
  literalRuns X fuel r' h t st off buf st1 off1 buf1 o1.
Proof.
  intros H Hle out. eapply encore_mono; [apply H | exact Hle].
Qed.

Lemma literalRuns_det r1 r2 st off buf st1 off1 buf1 o1 st2 off2 buf2 o2 :
  literalRuns X fuel r1 h t st off buf st1 off1 buf1 o1 ->
  literalRuns X fuel r2 h t st off buf st2 off2 buf2 o2 ->
  st1 = st2 /\ off1 = off2 /\ buf1 = buf2 /\ o1 = o2.
Proof.
  intros H1 H2.
  specialize (H1 []). specialize (H2 []).
  apply (encore_mono _ _ _ _ (Nat.max r1 r2)) in H1; [|lia].
  apply (encore_mono _ _ _ _ (Nat.max r1 r2)) in H2; [|lia].
  rewrite H1 in H2. inversion H2; subst. auto.
Qed.

Lemma getPattern_lit st off buf :
  st = 0 \/ st = 2 ->
  getPattern (mkMatcher st 0 off buf (PKmp h, PKmp t))
  = Done (PKmp (active st h t)).
Proof. intros [->| ->]; reflexivity. Qed.

Lemma setPattern_lit st off buf :
  st = 0 \/ st = 2 ->
  setPattern (mkMatcher st 0 off buf (PKmp h, PKmp t))
    (PKmp (active st h t))
  = mkMatcher st 0 off buf (PKmp h, PKmp t).
Proof. intros [->| ->]; reflexivity. Qed.

(** One round that finds no match. *)
Lemma literalRuns_nomatch rounds st off buf i' j' :
  st = 0 \/ st = 2 ->
  kmpMatch fuel (active st h t) 0 off buf = Done (i', j', false) ->
  0 <= i' <= len buf ->
  literalRuns X fuel (S rounds) h t st off buf st j' (slice_from buf i')
    (if i' =? 0 then [] else [mkResult st (slice_to buf i')]).
Proof.
  intros Hst Hk Hi. intros out. unfold litMatcher.
  cbn [encore]. rewrite getPattern_lit by exact Hst.
  cbn [bind pattern_Match state index offset buffer].
  rewrite Hk. cbn [bind]. rewrite setPattern_lit by exact Hst.
  cbn [state index offset buffer patterns].
  destruct (Z.eqb_spec i' 0) as [Hz|Hnz].
  - subst i'. unfold slice_from. simpl. rewrite app_nil_r. reflexivity.
  - rewrite Buffer_Next_ok by lia. unfold yield.
    cbn [bind state index offset buffer patterns]. reflexivity.
Qed.

(** One round that finds the delimiter, and the rest of the call. *)
Lemma literalRuns_match rounds st off buf i' j' st' off' buf' o :
  st = 0 \/ st = 2 ->
  kmpMatch fuel (active st h t) 0 off buf = Done (i', j', true) ->
  0 <= i' -> 0 <= j' -> i' + j' <= len buf ->
  literalRuns X fuel rounds h t (Z.lxor st 2) 0 (slice_from buf (i' + j'))
    st' off' buf' o ->
  literalRuns X fuel (S rounds) h t st off buf st' off' buf'
    ((if i' =? 0 then [] else [mkResult st (slice_to buf i')])
       ++ mkResult (st + 1) (sub buf i' (i' + j')) :: o).
Proof.
  intros Hst Hk Hi Hj Hij Hr. intros out.
  unfold literalRuns, litMatcher in *.
  cbn [encore]. rewrite getPattern_lit by exact Hst.
  cbn [bind pattern_Match state index offset buffer].
  rewrite Hk. cbn [bind]. rewrite setPattern_lit by exact Hst.
  cbn [state index offset buffer patterns].
  assert (Hsk : slice_from (slice_from buf i') j' = slice_from buf (i' + j')).
  { unfold slice_from. rewrite skipn_skipn. f_equal. lia. }
  assert (Hsub : slice_to (slice_from buf i') j' = sub buf i' (i' + j')).
  { unfold slice_to, slice_from, sub. f_equal. f_equal. lia. }
  destruct (Z.ltb_spec 0 i') as [Hpos|Hzero].
  - destruct (Z.eqb_spec i' 0); [lia|].
    rewrite (Buffer_Next_ok buf i') by lia. unfold yield.
    change (consumeAll _) with false.
    cbn [bind negb state index offset buffer patterns].
    rewrite Buffer_Next_ok by (rewrite len_slice_from; lia).
    cbn [bind negb state index offset buffer patterns].
    rewrite Hsk, Hsub, Hr. rewrite <- !app_assoc. reflexivity.
  - assert (i' = 0) by lia. subst i'. simpl (0 =? 0).
    cbn [bind negb]. unfold yield. change (consumeAll _) with false.
    cbn [bind negb state index offset buffer patterns].
    rewrite Buffer_Next_ok by lia.
    cbn [bind negb state index offset buffer patterns].
    change (slice_from buf 0) with buf in Hsk, Hsub.
    rewrite Hsk, Hsub, Hr. rewrite <- !app_assoc. reflexivity.
Qed.

End LiteralRounds.

(** ** Cutting the input of a literal pair *)

Lemma labeled_app (a b : list textResult) :
  labeled (a ++ b) = labeled a ++ labeled b.
Proof. unfold labeled. apply flat_map_app. Qed.

(** The segment in front of a delimiter, when there is one. *)
Lemma labeled_front (st i : Z) (buf : bytes) :
  0 <= i ->
  labeled (if i =? 0 then [] else [mkResult st (slice_to buf i)])
  = map (fun b => (st, b)) (slice_to buf i).
Proof.
  intros Hi. destruct (Z.eqb_spec i 0) as [->|Hn].
  - reflexivity.
  - unfold labeled. simpl. apply app_nil_r.
Qed.

Lemma firstn_plus {A : Type} (n k : nat) (l : list A) :
  firstn (n + k) l = firstn n l ++ firstn k (skipn n l).
Proof.
  revert l; induction n as [|n IH]; intros l; simpl; [reflexivity|].
  destruct l; simpl.
  - destruct k; reflexivity.
  - rewrite IH. reflexivity.
Qed.

Lemma slice_to_plus {A : Type} (l : list A) (i a : Z) :
  0 <= i -> 0 <= a ->
  slice_to l (a + i) = slice_to l i ++ slice_to (slice_from l i) a.
Proof.
  intros Hi Ha. unfold slice_to, slice_from.
  replace (Z.to_nat (a + i)) with (Z.to_nat i + Z.to_nat a)%nat by lia.
  apply firstn_plus.
Qed.

Lemma slice_to_app {A : Type} (l s : list A) (i : Z) :
  i <= len l -> slice_to (l ++ s) i = slice_to l i.
Proof.
  intros Hi. unfold slice_to. rewrite firstn_app.
  replace (Z.to_nat i - List.length l)%nat with 0%nat
    by (unfold len in Hi; lia).
  simpl. apply app_nil_r.
Qed.

Lemma slice_from_app {A : Type} (l s : list A) (i : Z) :
  i <= len l -> slice_from (l ++ s) i = slice_from l i ++ s.
Proof.
  intros Hi. unfold slice_from. rewrite skipn_app.
  replace (Z.to_nat i - List.length l)%nat with 0%nat
    by (unfold len in Hi; lia).
  reflexivity.
Qed.

Lemma slice_from_plus {A : Type} (l : list A) (i a : Z) :
  0 <= i -> 0 <= a ->
  slice_from l (a + i) = slice_from (slice_from l i) a.
Proof.
  intros Hi Ha. unfold slice_from. rewrite skipn_skipn. f_equal. lia.
Qed.

Lemma sub_app {A : Type} (l s : list A) (lo hi : Z) :
  0 <= lo <= hi -> hi <= len l -> sub (l ++ s) lo hi = sub l lo hi.
Proof.
  intros H1 H2. unfold sub. rewrite skipn_app, firstn_app.
  replace (Z.to_nat lo - List.length l)%nat with 0%nat
    by (unfold len in H2; lia).
  replace (Z.to_nat (hi - lo) - List.length (skipn (Z.to_nat lo) l))%nat
    with 0%nat by (rewrite length_skipn; unfold len in H2; lia).
  simpl. apply app_nil_r.
Qed.

Lemma sub_shift {A : Type} (l : list A) (i a b : Z) :
  0 <= i -> 0 <= a ->
  sub l (a + i) (a + i + b) = sub (slice_from l i) a (a + b).
Proof.
  intros Hi Ha. unfold sub, slice_from. rewrite skipn_skipn.
  f_equal; [lia|]. f_equal. lia.
Qed.

Section LiteralSplit.

Variable X : Externals.
Variable fuel : nat.
Variables h t : kmpPattern.
Hypothesis Hh : kmpWf h.
Hypothesis Ht : kmpWf t.
Hypothesis Hh1 : 1 <= length h.
Hypothesis Ht1 : 1 <= length t.

Lemma active_wf st : kmpWf (active st h t).
Proof. unfold active. destruct (st =? 0); assumption. Qed.

Lemma active_length st : 1 <= length (active st h t) <= length h + length t.
Proof. unfold active. destruct (st =? 0); lia. Qed.

Lemma resumable_flip st buf :
  st = 0 \/ st = 2 -> resumable h t (Z.lxor st 2) 0 buf.
Proof.
  intros Hst. split; [|split].
  - destruct Hst; subst st; simpl; auto.
  - pose proof (active_length (Z.lxor st 2)). lia.
  - apply live_nil.
Qed.

(** A call returns, and leaves a state from which the next call resumes;
    the buffer is then the live prefix alone. *)
Lemma literalRuns_total :
  forall (rounds : nat) (st off : Z) (buf : bytes),
    len buf < Z.of_nat rounds ->
    resumable h t st off buf ->
    2 * len buf + length h + length t < Z.of_nat fuel ->
    exists st' off' buf' o,
      literalRuns X fuel rounds h t st off buf st' off' buf' o
      /\ resumable h t st' off' buf'
      /\ len buf' = off'
      /\ Forall nonEmpty o
      /\ len buf' <= len buf.
Proof.
  induction rounds as [|rounds IH];
    intros st off buf Hrounds [Hst [Hoff Hlive]] Hfuel.
  - pose proof (len_nonneg buf). lia.
  - pose proof (len_nonneg buf) as Hbuf.
    pose proof (active_length st) as Hact.
    destruct (kmpMatch_ok (active st h t) buf off fuel (active_wf st) Hoff
                Hlive ltac:(lia))
      as [i' [j' [ok [E1 [E2 [E3 E4]]]]]].
    pose proof E2 as Hlive'. destruct E2 as [F0 [F1 [F2 _]]].
    destruct ok.
    + specialize (E3 eq_refl). subst j'.
      destruct (IH (Z.lxor st 2) 0 (slice_from buf (i' + length (active st h t))))
        as [st' [off' [buf' [o [G1 [G2 [G3 [G4 G5]]]]]]]].
      { rewrite len_slice_from; lia. }
      { apply resumable_flip; exact Hst. }
      { rewrite len_slice_from; lia. }
      eexists st', off', buf', _. split.
      { apply literalRuns_match; eauto; lia. }
      split; [exact G2|]. split; [exact G3|]. split.
      * apply Forall_app. split.
        -- destruct (Z.eqb_spec i' 0); constructor; [|constructor].
           unfold nonEmpty; simpl. rewrite len_slice_to; lia.
        -- constructor; [|exact G4]. unfold nonEmpty; simpl.
           rewrite length_sub; lia.
      * rewrite len_slice_from in G5; lia.
    + destruct (E4 eq_refl) as [Hj' Hend].
      eexists st, j', (slice_from buf i'), _. split.
      { apply literalRuns_nomatch; auto. lia. }
      split; [split; [exact Hst | split; [lia | apply live_skip; exact Hlive']]|].
      split; [rewrite len_slice_from; lia|]. split.
      * destruct (Z.eqb_spec i' 0); constructor; [|constructor].
        unfold nonEmpty; simpl. rewrite len_slice_to; lia.
      * rewrite len_slice_from; lia.
Qed.

(** The scan of an extended buffer, from the scan of the buffer. *)
Lemma kmpMatch_app_match pat buf s off i' j' :
  kmpMatch fuel pat 0 off buf = Done (i', j', true) ->
  off <> length pat ->
  kmpMatch fuel pat 0 off (buf ++ s) = Done (i', j', true).
Proof.
  unfold kmpMatch. intros H Hne.
  destruct (Z.eqb_spec off (length pat)); [contradiction|].
  apply kmpLoop_app_match; exact H.
Qed.

Lemma kmpMatch_app_resume pat buf s off i' j' r :
  kmpWf pat -> 0 <= off < length pat ->
  live (buf ++ s) (source pat) 0 off ->
  2 * len (buf ++ s) + length pat < Z.of_nat fuel ->
  0 <= off <= len buf ->
  kmpMatch fuel pat 0 off buf = Done (i', j', false) ->
  0 <= i' <= len buf -> 0 <= j' < length pat ->
  kmpMatch fuel pat 0 j' (slice_from buf i' ++ s) = Done r ->
  kmpMatch fuel pat 0 off (buf ++ s)
  = Done (fst (fst r) + i', snd (fst r), snd r).
Proof.
  intros Hwf Hoff Hlive Hfuel Hob H Hi Hj Hr.
  destruct (kmpMatch_ok pat (buf ++ s) off fuel Hwf Hoff Hlive Hfuel)
    as [iA [jA [okA [EA _]]]].
  rewrite EA. f_equal.
  destruct r as [[a b] ok2]. simpl.
  unfold kmpMatch in *.
  destruct (Z.eqb_spec off (length pat)); [lia|].
  destruct (Z.eqb_spec j' (length pat)); [lia|].
  rewrite <- slice_from_app in Hr by lia.
  apply kmpLoop_skip in Hr; [|rewrite len_app; pose proof (len_nonneg s); lia
                             |lia].
  apply (kmpRuns_det pat (buf ++ s) (0 + off) off).
  - exists fuel. exact EA.
  - eapply kmpLoop_app_resume; [|exact H|].
    + lia.
    + exists fuel. replace (i' + j') with (0 + j' + i') by lia. exact Hr.
Qed.

(** A call on [buf ++ s] does what a call on [buf] followed by a call on
    what it left and [s] does: the same final state and the same labeled
    bytes. *)
Lemma literalRuns_split :
  forall (n : nat) (st off : Z) (buf s : bytes)
         (r1 r2 rA : nat)
         (st1 off1 : Z) (buf1 : bytes) (o1 : list textResult)
         (st2 off2 : Z) (buf2 : bytes) (o2 : list textResult)
         (stA offA : Z) (bufA : bytes) (oA : list textResult),
    len buf < Z.of_nat n ->
    resumable h t st off buf ->
    2 * len (buf ++ s) + length h + length t < Z.of_nat fuel ->
    literalRuns X fuel r1 h t st off buf st1 off1 buf1 o1 ->
    literalRuns X fuel r2 h t st1 off1 (buf1 ++ s) st2 off2 buf2 o2 ->
    literalRuns X fuel rA h t st off (buf ++ s) stA offA bufA oA ->
    stA = st2 /\ offA = off2 /\ bufA = buf2
    /\ labeled oA = labeled (o1 ++ o2).
Proof.
  induction n as [|n IH];
    intros st off buf s r1 r2 rA st1 off1 buf1 o1 st2 off2 buf2 o2
           stA offA bufA oA Hn Hres Hfuel H1 H2 HA.
  { pose proof (len_nonneg buf). lia. }
  pose proof Hres as [Hst [Hoff Hlive]].
  pose proof (len_nonneg buf) as Hbuf. pose proof (len_nonneg s) as Hs.
  pose proof (active_length st) as Hact.
  rewrite len_app in Hfuel.
  destruct (kmpMatch_ok (active st h t) buf off fuel (active_wf st) Hoff
              Hlive ltac:(lia))
    as [i' [j' [ok [E1 [E2 [E3 E4]]]]]].
  pose proof E2 as Hlive'. destruct E2 as [F0 [F1 [F2 _]]].
  destruct ok.
  - (* the delimiter is in [buf] *)
    specialize (E3 eq_refl).
    set (rest := slice_from buf (i' + j')).
    assert (Hrest : len rest = len buf - (i' + j')).
    { unfold rest. rewrite len_slice_from; lia. }
    destruct (literalRuns_total (S (Z.to_nat (len rest))) (Z.lxor st 2) 0 rest)
      as [st1c [off1c [buf1c [o1c [C1 [C2 [C3 [C4 C5]]]]]]]].
    { lia. } { apply resumable_flip; exact Hst. } { lia. }
    destruct (literalRuns_total (S (Z.to_nat (len (rest ++ s))))
                (Z.lxor st 2) 0 (rest ++ s))
      as [stAc [offAc [bufAc [oAc [A1 [A2 [A3 [A4 A5]]]]]]]].
    { lia. } { apply resumable_flip; exact Hst. }
    { rewrite len_app. lia. }
    pose proof (literalRuns_match X fuel h t _ st off buf i' j' _ _ _ _
                  Hst E1 ltac:(lia) ltac:(lia) ltac:(lia) C1) as R1.
    assert (EA : kmpMatch fuel (active st h t) 0 off (buf ++ s)
                 = Done (i', j', true)).
    { apply kmpMatch_app_match; [exact E1 | lia]. }
    assert (HrestA : slice_from (buf ++ s) (i' + j') = rest ++ s).
    { apply slice_from_app. lia. }
    rewrite <- HrestA in A1.
    pose proof (literalRuns_match X fuel h t _ st off (buf ++ s) i' j'
                  _ _ _ _ Hst EA ltac:(lia) ltac:(lia)
                  ltac:(rewrite len_app; lia) A1) as RA.
    destruct (literalRuns_det X fuel h t _ _ _ _ _ _ _ _ _ _ _ _ _ H1 R1)
      as [-> [-> [-> ->]]].
    destruct (literalRuns_det X fuel h t _ _ _ _ _ _ _ _ _ _ _ _ _ HA RA)
      as [-> [-> [-> ->]]].
    rewrite HrestA in A1.
    destruct (IH (Z.lxor st 2) 0 rest s _ _ _ _ _ _ _ _ _ _ _ _ _ _ _
                ltac:(lia) (resumable_flip _ _ Hst)
                ltac:(rewrite len_app; lia) C1 H2 A1)
      as [-> [-> [-> HL]]].
    split; [reflexivity|]. split; [reflexivity|]. split; [reflexivity|].
    rewrite !labeled_app. rewrite !labeled_front by lia.
    change (?x :: ?l) with ([x] ++ l) at 1 2.
    rewrite !labeled_app. rewrite HL, labeled_app.
    rewrite slice_to_app by lia. rewrite sub_app by lia.
    rewrite <- !app_assoc. reflexivity.
  - (* the scan reaches the end of [buf] *)
    destruct (E4 eq_refl) as [Hj' Hend].
    pose proof (literalRuns_nomatch X fuel h t 0 st off buf i' j' Hst E1
                  ltac:(lia)) as R1.
    destruct (literalRuns_det X fuel h t _ _ _ _ _ _ _ _ _ _ _ _ _ H1 R1)
      as [-> [-> [-> ->]]].
    assert (Hlive2 : live (slice_from buf i' ++ s)
                       (source (active st h t)) 0 j').
    { apply live_app. apply live_skip. exact Hlive'. }
    assert (Hlen2 : len (slice_from buf i' ++ s) = len buf - i' + len s).
    { rewrite len_app, len_slice_from; lia. }
    destruct (kmpMatch_ok (active st h t) (slice_from buf i' ++ s) j' fuel
                (active_wf st) ltac:(lia) Hlive2 ltac:(lia))
      as [a [b [ok2 [K1 [K2 [K3 K4]]]]]].
    pose proof K2 as Hlive2'. destruct K2 as [L0 [L1 [L2 _]]].
    assert (EA : kmpMatch fuel (active st h t) 0 off (buf ++ s)
                 = Done (a + i', b, ok2)).
    { apply (kmpMatch_app_resume (active st h t) buf s off i' j'
               (a, b, ok2)); auto; try lia.
      - apply active_wf.
      - apply live_app. exact Hlive.
      - rewrite len_app. lia.
      - destruct Hlive as [_ [_ [Hl _]]]. lia. }
    assert (HB : slice_from (buf ++ s) i' = slice_from buf i' ++ s).
    { apply slice_from_app. lia. }
    destruct ok2.
    + specialize (K3 eq_refl).
      destruct (literalRuns_total
                  (S (Z.to_nat (len (slice_from (slice_from buf i' ++ s)
                                       (a + b)))))
                  (Z.lxor st 2) 0
                  (slice_from (slice_from buf i' ++ s) (a + b)))
        as [stc [offc [bufc [oc [C1 [C2 [C3 [C4 C5]]]]]]]].
      { lia. } { apply resumable_flip; exact Hst. }
      { rewrite len_slice_from; lia. }
      pose proof (literalRuns_match X fuel h t _ st j'
                    (slice_from buf i' ++ s) a b _ _ _ _
                    Hst K1 ltac:(lia) ltac:(lia) ltac:(lia) C1) as R2.
      assert (HC : slice_from (buf ++ s) (a + i' + b)
                   = slice_from (slice_from buf i' ++ s) (a + b)).
      { rewrite <- HB. replace (a + i' + b) with (a + b + i') by lia.
        apply slice_from_plus; lia. }
      rewrite <- HC in C1.
      pose proof (literalRuns_match X fuel h t _ st off (buf ++ s)
                    (a + i') b _ _ _ _ Hst EA ltac:(lia) ltac:(lia)
                    ltac:(rewrite len_app; lia) C1) as RA.
      destruct (literalRuns_det X fuel h t _ _ _ _ _ _ _ _ _ _ _ _ _ H2 R2)
        as [-> [-> [-> ->]]].
      destruct (literalRuns_det X fuel h t _ _ _ _ _ _ _ _ _ _ _ _ _ HA RA)
        as [-> [-> [-> ->]]].
      split; [reflexivity|]. split; [reflexivity|]. split; [reflexivity|].
      rewrite !labeled_app. rewrite !labeled_front by lia.
      rewrite (slice_to_plus (buf ++ s) i' a) by lia.
      rewrite slice_to_app by lia. rewrite HB.
      rewrite (sub_shift (buf ++ s) i' a b) by lia. rewrite HB.
      rewrite map_app. rewrite <- !app_assoc. reflexivity.
    + destruct (K4 eq_refl) as [Hb Hend2].
      pose proof (literalRuns_nomatch X fuel h t 0 st j'
                    (slice_from buf i' ++ s) a b Hst K1 ltac:(lia)) as R2.
      pose proof (literalRuns_nomatch X fuel h t 0 st off (buf ++ s)
                    (a + i') b Hst EA
                    ltac:(rewrite len_app; lia)) as RA.
      destruct (literalRuns_det X fuel h t _ _ _ _ _ _ _ _ _ _ _ _ _ H2 R2)
        as [-> [-> [-> ->]]].
      destruct (literalRuns_det X fuel h t _ _ _ _ _ _ _ _ _ _ _ _ _ HA RA)
        as [-> [-> [-> ->]]].
      split; [reflexivity|]. split; [reflexivity|]. split.
      * rewrite <- HB. apply slice_from_plus; lia.
      * rewrite !labeled_app. rewrite !labeled_front by lia.
        rewrite (slice_to_plus (buf ++ s) i' a) by lia.
        rewrite slice_to_app by lia. rewrite HB.
        rewrite map_app. reflexivity.
Qed.

End LiteralSplit.

(** ** Chunks of a literal pair *)

Section LiteralChunks.

Variable X : Externals.
Variable fuel : nat.
Variables h t : kmpPattern.
Hypothesis Hh : kmpWf h.
Hypothesis Ht : kmpWf t.
Hypothesis Hh1 : 1 <= length h.
Hypothesis Ht1 : 1 <= length t.

(** Between two calls the buffer is the live prefix and nothing else: a
    call with an empty chunk emits nothing and changes nothing. *)
Lemma literalRuns_idle (st off : Z) (buf : bytes) :
  resumable h t st off buf -> len buf = off -> (0 < fuel)%nat ->
  literalRuns X fuel 1 h t st off buf st off buf [].
Proof.
  intros [Hst [Hoff Hlive]] Hlen Hfuel.
  assert (Hk : kmpMatch fuel (active st h t) 0 off buf = Done (0, off, false)).
  { unfold kmpMatch. destruct (Z.eqb_spec off (length (active st h t)));
      [lia|].
    destruct fuel as [|f]; [lia|].
    replace (0 + off) with off by lia. cbn [kmpLoop].
    destruct (Z.ltb_spec off (len buf)); [lia|].
    replace (off - off) with 0 by lia. reflexivity. }
  pose proof (literalRuns_nomatch X fuel h t 0 st off buf 0 off Hst Hk
                ltac:(pose proof (len_nonneg buf); lia)) as R.
  exact R.
Qed.

Lemma Match_literalRuns (st off : Z) (buf s : bytes) st' off' buf' o :
  literalRuns X fuel fuel h t st off (buf ++ s) st' off' buf' o ->
  Match X fuel consumeAll (litMatcher h t st off buf) s
  = Done (litMatcher h t st' off' buf', o).
Proof.
  intros H. unfold Match. apply (H []).
Qed.

(** Feeding chunks does what one call on their concatenation does. *)
Lemma feed_as_one_call :
  forall (chunks : list bytes) (st off : Z) (buf : bytes),
    resumable h t st off buf -> len buf = off ->
    2 * (len buf + len (List.concat chunks)) + length h + length t
      < Z.of_nat fuel ->
    exists st' off' buf' segs o,
      feed X fuel (litMatcher h t st off buf) chunks
      = Done (litMatcher h t st' off' buf', segs)
      /\ literalRuns X fuel fuel h t st off (buf ++ List.concat chunks)
           st' off' buf' o
      /\ labeled segs = labeled o
      /\ Forall nonEmpty segs
      /\ resumable h t st' off' buf' /\ len buf' = off'.
Proof.
  unfold feed.
  induction chunks as [|c chunks IH]; intros st off buf Hres Hlen Hfuel.
  - pose proof (len_nonneg buf) as Hb.
    change (len (List.concat (@nil bytes))) with 0 in Hfuel.
    exists st, off, buf, [], []. simpl. rewrite app_nil_r.
    split; [reflexivity|]. split.
    + apply (literalRuns_mono X fuel h t 1).
      * apply literalRuns_idle; auto. lia.
      * lia.
    + auto.
  - change (List.concat (c :: chunks)) with (c ++ List.concat chunks)
      in *.
    rewrite len_app in Hfuel.
    pose proof (len_nonneg buf) as Hb. pose proof (len_nonneg c) as Hc.
    pose proof (len_nonneg (List.concat chunks)) as Hcs.
    assert (Hres1 : resumable h t st off (buf ++ c)).
    { destruct Hres as [A [B C]]. split; [exact A|]. split; [exact B|].
      apply live_app; exact C. }
    destruct (literalRuns_total X fuel h t Hh Ht Hh1 Ht1 fuel st off
                (buf ++ c))
      as [st1 [off1 [buf1 [o1 [R1 [I1 [I2 [N1 I3]]]]]]]];
      [rewrite len_app; lia | exact Hres1 | rewrite len_app; lia|].
    rewrite len_app in I3.
    destruct (IH st1 off1 buf1 I1 I2 ltac:(lia))
      as [st' [off' [buf' [segs2 [o2 [F1 [R2 [HL [N2 [I4 I5]]]]]]]]]].
    assert (HresA : resumable h t st off (buf ++ c ++ List.concat chunks)).
    { destruct Hres as [A [B C]]. split; [exact A|]. split; [exact B|].
      apply live_app; exact C. }
    destruct (literalRuns_total X fuel h t Hh Ht Hh1 Ht1 fuel st off
                (buf ++ c ++ List.concat chunks))
      as [stA [offA [bufA [oA [RA _]]]]];
      [rewrite !len_app; lia | exact HresA | rewrite !len_app; lia|].
    pose proof RA as RA'. rewrite app_assoc in RA'.
    destruct (literalRuns_split X fuel h t Hh Ht Hh1 Ht1
                (S (Z.to_nat (len (buf ++ c)))) st off (buf ++ c)
                (List.concat chunks) _ _ _ _ _ _ _ _ _ _ _ _ _ _ _
                ltac:(lia) Hres1 ltac:(rewrite !len_app; lia) R1 R2 RA')
      as [-> [-> [-> HLA]]].
    exists st', off', buf', (o1 ++ segs2), oA.
    split.
    { simpl. rewrite (Match_literalRuns _ _ _ _ _ _ _ _ R1). cbn [bind].
      rewrite F1. reflexivity. }
    split; [exact RA|]. split.
    { rewrite HLA, !labeled_app, HL. reflexivity. }
    split; [apply Forall_app; split; assumption|].
    auto.
Qed.

End LiteralChunks.

(** For a literal pair with non-empty delimiters, two partitions of the
    same bytes into chunks give the same labeled bytes and leave the same
    matcher. *)
Lemma literal_chunking (X : Externals) (MC MCP : bytes -> result Regexp)
    (w : World) (c0 c1 : option nat) (hd tl : bytes)
    (chunks1 chunks2 : list bytes) (fuel : nat) :
  1 <= len hd -> 1 <= len tl ->
  List.concat chunks1 = List.concat chunks2 ->
  2 * len (List.concat chunks1) + 2 * len hd + 2 * len tl < Z.of_nat fuel ->
  exists m m' segs1 segs2,
    NewMatcher MC MCP fuel w (literalPair hd tl) c0 c1 = Done (w, m)
    /\ feed X fuel m chunks1 = Done (m', segs1)
    /\ feed X fuel m chunks2 = Done (m', segs2)
    /\ labeled segs1 = labeled segs2.
Proof.
  intros Hhd Htl Hcat Hfuel.
  pose proof (len_nonneg (List.concat chunks1)) as Hc.
  destruct (newKmpPattern_ok hd fuel) as [h [Hnh [Hwh Hsh]]]; [lia|].
  destruct (newKmpPattern_ok tl fuel) as [t [Hnt [Hwt Hst]]]; [lia|].
  assert (Hlh : length h = len hd) by (destruct Hwh; congruence).
  assert (Hlt : length t = len tl) by (destruct Hwt; congruence).
  assert (Hnew : NewMatcher MC MCP fuel w (literalPair hd tl) c0 c1
                 = Done (w, litMatcher h t STATE_NONE 0 [])).
  { unfold NewMatcher, newPattern, literalPair. simpl.
    rewrite Hnh. simpl. rewrite Hnt. reflexivity. }
  assert (Hres : resumable h t STATE_NONE 0 []).
  { split; [left; reflexivity|]. split; [unfold active; simpl; lia|].
    apply live_nil. }
  destruct (feed_as_one_call X fuel h t Hwh Hwt ltac:(lia) ltac:(lia)
              chunks1 STATE_NONE 0 [] Hres eq_refl)
    as [s1 [f1 [b1 [segs1 [o1 [F1 [R1 [L1 _]]]]]]]].
  { change (len (@nil byte)) with 0. lia. }
  destruct (feed_as_one_call X fuel h t Hwh Hwt ltac:(lia) ltac:(lia)
              chunks2 STATE_NONE 0 [] Hres eq_refl)
    as [s2 [f2 [b2 [segs2 [o2 [F2 [R2 [L2 _]]]]]]]].
  { change (len (@nil byte)) with 0. rewrite <- Hcat. lia. }
  rewrite <- Hcat in R2.
  destruct (literalRuns_det X fuel h t _ _ _ _ _ _ _ _ _ _ _ _ _ R1 R2)
    as [-> [-> [-> ->]]].
  exists (litMatcher h t STATE_NONE 0 []), (litMatcher h t s2 f2 b2),
    segs1, segs2.
  split; [exact Hnew|]. split; [exact F1|]. split; [exact F2|].
  congruence.
Qed.


(** A literal pair with non-empty delimiters: the matcher is built, every
    call returns, every segment is non-empty, and the segments followed by
    what [Drain] returns are the input. *)
Lemma literal_pair_runs (X : Externals) (MC MCP : bytes -> result Regexp)
    (w : World) (c0 c1 : option nat) (hd tl : bytes) (chunks : list bytes)
    (fuel : nat) :
  1 <= len hd -> 1 <= len tl ->
  2 * len (List.concat chunks) + 2 * len hd + 2 * len tl < Z.of_nat fuel ->
  exists m m' segs,
    NewMatcher MC MCP fuel w (literalPair hd tl) c0 c1 = Done (w, m)
    /\ feed X fuel m chunks = Done (m', segs)
    /\ Forall nonEmpty segs
    /\ raws segs ++ snd (Drain m') = List.concat chunks.
Proof.
  intros Hhd Htl Hfuel.
  pose proof (len_nonneg (List.concat chunks)) as Hc.
  destruct (newKmpPattern_ok hd fuel) as [h [Hnh [Hwh Hsh]]]; [lia|].
  destruct (newKmpPattern_ok tl fuel) as [t [Hnt [Hwt Hst]]]; [lia|].
  assert (Hlh : length h = len hd) by (destruct Hwh; congruence).
  assert (Hlt : length t = len tl) by (destruct Hwt; congruence).
  assert (Hnew : NewMatcher MC MCP fuel w (literalPair hd tl) c0 c1
                 = Done (w, litMatcher h t STATE_NONE 0 [])).
  { unfold NewMatcher, newPattern, literalPair. simpl.
    rewrite Hnh. simpl. rewrite Hnt. reflexivity. }
  assert (Hres : resumable h t STATE_NONE 0 []).
  { split; [left; reflexivity|]. split; [unfold active; simpl; lia|].
    apply live_nil. }
  destruct (feed_as_one_call X fuel h t Hwh Hwt ltac:(lia) ltac:(lia)
              chunks STATE_NONE 0 [] Hres eq_refl)
    as [s1 [f1 [b1 [segs [o1 [F1 [_ [_ [N1 _]]]]]]]]].
  { change (len (@nil byte)) with 0. lia. }
  eexists; eexists; exists segs.
  split; [exact Hnew|]. split; [exact F1|]. split; [exact N1|].
  unfold feed in F1. apply feedWith_conserve in F1. simpl in F1.
  rewrite map_map in F1. simpl in F1. rewrite map_id in F1. exact F1.
Qed.

(** ** The machine: [accum] is only written by [Machine.Match] *)

Lemma accum_setq m q v : m_accum (setq m q v) = m_accum m.
Proof. destruct q; reflexivity. Qed.

Lemma accum_putThread m t th : m_accum (putThread m t th) = m_accum m.
Proof. reflexivity. Qed.

Lemma capWrite_accum m c v m' :
  capWrite m c v = Done m' -> m_accum m' = m_accum m.
Proof.
  destruct c; simpl; intros H.
  - inversion H; reflexivity.
  - apply bind_Done in H. destruct H as [th [_ H]]. inversion H; reflexivity.
Qed.

Lemma alloc_accum m i m' t :
  alloc m i = Done (m', t) -> m_accum m' = m_accum m.
Proof.
  unfold alloc. destruct (rev (m_pool m)); intros H.
  - inversion H; reflexivity.
  - apply bind_Done in H. destruct H as [th [_ H]]. inversion H; reflexivity.
Qed.

Section MachineFrame.

Variable X : Externals.

Lemma add_accum :
  forall fuel m q pc pos cap cond t m' t',
    add X fuel m q pc pos cap cond t = Done (m', t') ->
    m_accum m' = m_accum m.
Proof.
  induction fuel as [|fuel IH]; intros m q pc pos cap cond t m' t' H;
    [discriminate|].
  simpl in H.
  destruct (pc =? 0); [inversion H; reflexivity|].
  apply bind_Done in H. destruct H as [j [_ H]].
  apply bind_Done in H. destruct H as [present [_ H]].
  destruct present; [inversion H; reflexivity|].
  destruct (_ <? _); [discriminate|].
  apply bind_Done in H. destruct H as [sparse' [_ H]].
  apply bind_Done in H. destruct H as [prog [_ H]].
  apply bind_Done in H. destruct H as [i [_ H]].
  set (m0 := setq m q _) in H.
  assert (E0 : m_accum m0 = m_accum m) by apply accum_setq.
  destruct (Op i).
  - (* InstAlt *)
    apply bind_Done in H. destruct H as [[m1 t1] [H1 H]].
    apply IH in H1. apply IH in H. congruence.
  - apply bind_Done in H. destruct H as [[m1 t1] [H1 H]].
    apply IH in H1. apply IH in H. congruence.
  - (* InstCapture *)
    apply bind_Done in H. destruct H as [c [_ H]].
    destruct (_ <? _).
    + apply bind_Done in H. destruct H as [opos [_ H]].
      apply bind_Done in H. destruct H as [c' [_ H]].
      apply bind_Done in H. destruct H as [m1 [H1 H]].
      apply bind_Done in H. destruct H as [[m2 t2] [H2 H]].
      apply bind_Done in H. destruct H as [c2 [_ H]].
      apply bind_Done in H. destruct H as [c2' [_ H]].
      apply bind_Done in H. destruct H as [m3 [H3 H]].
      inversion H; subst.
      apply capWrite_accum in H1, H3. apply IH in H2. congruence.
    + apply IH in H. congruence.
  - (* InstEmptyWidth *)
    destruct (lazyFlag_match _ _).
    + apply IH in H. congruence.
    + inversion H; subst. exact E0.
  - (* InstMatch *)
    apply bind_Done in H. destruct H as [re [_ H]].
    apply bind_Done in H. destruct H as [tid [_ H]].
    apply bind_Done in H. destruct H as [th [_ H]].
    apply bind_Done in H. destruct H as [record [_ H]].
    apply bind_Done in H. destruct H as [m1 [H1 H]].
    assert (E1 : m_accum m1 = m_accum m0).
    { destruct record.
      - apply bind_Done in H1. destruct H1 as [c0 [_ H1]].
        apply bind_Done in H1. destruct H1 as [c' [_ H1]].
        apply bind_Done in H1. destruct H1 as [c'' [_ H1]].
        inversion H1; reflexivity.
      - inversion H1; reflexivity. }
    inversion H; subst.
    destruct (negb (re_longest re)); simpl; rewrite ?accum_setq; simpl;
      congruence.
  - (* InstFail *) inversion H; subst. exact E0.
  - (* InstNop *) apply IH in H. congruence.
  - (* InstRune *)
    apply bind_Done in H. destruct H as [[m1 tid] [H1 H]].
    apply bind_Done in H. destruct H as [dense' [_ H]].
    inversion H; subst. rewrite accum_setq.
    destruct t.
    + apply bind_Done in H1. destruct H1 as [th [_ H1]].
      inversion H1; subst. exact E0.
    + apply bind_Done in H1. destruct H1 as [[m2 tid2] [H2 H1]].
      apply bind_Done in H1. destruct H1 as [th [_ H1]].
      apply bind_Done in H1. destruct H1 as [c [_ H1]].
      inversion H1; subst. apply alloc_accum in H2.
      simpl. congruence.
  - apply bind_Done in H. destruct H as [[m1 tid] [H1 H]].
    apply bind_Done in H. destruct H as [dense' [_ H]].
    inversion H; subst. rewrite accum_setq.
    destruct t.
    + apply bind_Done in H1. destruct H1 as [th [_ H1]].
      inversion H1; subst. exact E0.
    + apply bind_Done in H1. destruct H1 as [[m2 tid2] [H2 H1]].
      apply bind_Done in H1. destruct H1 as [th [_ H1]].
      apply bind_Done in H1. destruct H1 as [c [_ H1]].
      inversion H1; subst. apply alloc_accum in H2.
      simpl. congruence.
  - apply bind_Done in H. destruct H as [[m1 tid] [H1 H]].
    apply bind_Done in H. destruct H as [dense' [_ H]].
    inversion H; subst. rewrite accum_setq.
    destruct t.
    + apply bind_Done in H1. destruct H1 as [th [_ H1]].
      inversion H1; subst. exact E0.
    + apply bind_Done in H1. destruct H1 as [[m2 tid2] [H2 H1]].
      apply bind_Done in H1. destruct H1 as [th [_ H1]].
      apply bind_Done in H1. destruct H1 as [c [_ H1]].
      inversion H1; subst. apply alloc_accum in H2.
      simpl. congruence.
  - apply bind_Done in H. destruct H as [[m1 tid] [H1 H]].
    apply bind_Done in H. destruct H as [dense' [_ H]].
    inversion H; subst. rewrite accum_setq.
    destruct t.
    + apply bind_Done in H1. destruct H1 as [th [_ H1]].
      inversion H1; subst. exact E0.
    + apply bind_Done in H1. destruct H1 as [[m2 tid2] [H2 H1]].
      apply bind_Done in H1. destruct H1 as [th [_ H1]].
      apply bind_Done in H1. destruct H1 as [c [_ H1]].
      inversion H1; subst. apply alloc_accum in H2.
      simpl. congruence.
Qed.

Lemma stepThread_accum fuel m nextq nextPos c nextCond longest d m' :
  stepThread X fuel m nextq nextPos c nextCond longest d = Done m' ->
  m_accum m' = m_accum m.
Proof.
  unfold stepThread. destruct (e_t d) as [tid|]; intros H;
    [|inversion H; reflexivity].
  apply bind_Done in H. destruct H as [th [_ H]].
  apply bind_Done in H. destruct H as [skip [_ H]].
  destruct skip; [inversion H; reflexivity|].
  apply bind_Done in H. destruct H as [prog [_ H]].
  apply bind_Done in H. destruct H as [i [_ H]].
  apply bind_Done in H. destruct H as [doAdd [_ H]].
  apply bind_Done in H. destruct H as [[m1 t1] [H1 H]].
  assert (E1 : m_accum m1 = m_accum m).
  { destruct doAdd.
    - apply add_accum in H1. exact H1.
    - inversion H1; reflexivity. }
  destruct t1; inversion H; subst; simpl; exact E1.
Qed.

Lemma stepLoop_accum fuel nextq nextPos c nextCond longest :
  forall ds m m',
    stepLoop X fuel m nextq nextPos c nextCond longest ds = Done m' ->
    m_accum m' = m_accum m.
Proof.
  induction ds as [|d ds IH]; intros m m' H; simpl in H.
  - inversion H; reflexivity.
  - apply bind_Done in H. destruct H as [m1 [H1 H]].
    apply stepThread_accum in H1. apply IH in H. congruence.
Qed.

Lemma step_accum fuel m runq nextq pos nextPos c nextCond m' :
  step X fuel m runq nextq pos nextPos c nextCond = Done m' ->
  m_accum m' = m_accum m.
Proof.
  unfold step. intros H.
  apply bind_Done in H. destruct H as [re [_ H]].
  apply bind_Done in H. destruct H as [m1 [H1 H]].
  apply stepLoop_accum in H1. inversion H; subst.
  rewrite accum_setq. exact H1.
Qed.

Lemma matchExit_accum m l : m_accum (fst (matchExit m l)) = m_accum m.
Proof. unfold matchExit. cbn [fst]. rewrite !accum_setq. reflexivity. Qed.

Lemma weave_accum fuel i m l continue_ m' r :
  (forall m1 l1 m2 r2,
      continue_ m1 l1 = Done (m2, r2) -> m_accum m2 = m_accum m1) ->
  weave X fuel i m l continue_ = Done (m', r) ->
  m_accum m' = m_accum m.
Proof.
  intros Hk H. unfold weave in H.
  apply bind_Done in H. destruct H as [m1 [H1 H]].
  assert (E1 : m_accum m1 = m_accum m).
  { destruct (negb (m_matched m)).
    - apply bind_Done in H1. destruct H1 as [m2 [H2 H1]].
      apply bind_Done in H1. destruct H1 as [prog [_ H1]].
      apply bind_Done in H1. destruct H1 as [[m3 t3] [H3 H1]].
      inversion H1; subst. apply add_accum in H3.
      destruct (0 <? len (m_matchcap m)).
      + apply bind_Done in H2. destruct H2 as [mc [_ H2]].
        inversion H2; subst. exact H3.
      + inversion H2; subst. exact H3.
    - inversion H1; reflexivity. }
  destruct (l_width l =? 0).
  { inversion H; subst. rewrite <- E1.
    apply (matchExit_accum m1 l). }
  apply bind_Done in H. destruct H as [m2 [H2 H]].
  apply step_accum in H2.
  destruct (m_matched m2).
  { inversion H; subst.
    match goal with
    | |- m_accum (fst (matchExit ?a ?b)) = _ =>
      rewrite (matchExit_accum a b)
    | _ => idtac
    end.
    unfold matchExit; simpl; rewrite ?accum_setq; congruence. }
  destruct (len _ =? 0).
  - apply bind_Done in H. destruct H as [[r0 w0] [_ H]].
    apply bind_Done in H. destruct H as [[r1 w1] [_ H]].
    apply Hk in H. congruence.
  - apply bind_Done in H. destruct H as [[r1 w1] [_ H]].
    apply Hk in H. congruence.
Qed.

Lemma matchLoop_accum fuel i :
  forall steps m l m' r,
    matchLoop X fuel steps i m l = Done (m', r) ->
    m_accum m' = m_accum m.
Proof.
  induction steps as [|steps IH]; intros m l m' r H; [discriminate|].
  simpl in H.
  destruct (len _ =? 0).
  - destruct (m_matched m).
    { inversion H; subst. apply (matchExit_accum m l). }
    apply bind_Done in H. destruct H as [re [_ H]].
    destruct (_ || _).
    { eapply weave_accum; [|exact H]. intros; eapply IH; eauto. }
    apply bind_Done in H. destruct H as [[i' o'] [_ H]].
    destruct (o' =? _).
    + eapply weave_accum; [|exact H]. intros; eapply IH; eauto.
    + inversion H; reflexivity.
  - eapply weave_accum; [|exact H]. intros; eapply IH; eauto.
Qed.

Lemma match_accum fuel m i index offset m' r :
  match_ X fuel m i index offset = Done (m', r) ->
  m_accum m' = m_accum m.
Proof.
  unfold match_. intros H.
  apply bind_Done in H. destruct H as [re [_ H]].
  destruct (_ =? _); [inversion H; reflexivity|].
  apply bind_Done in H. destruct H as [[r0 w0] [_ H]].
  apply bind_Done in H. destruct H as [[r1 w1] [_ H]].
  apply bind_Done in H. destruct H as [flag [_ H]].
  apply matchLoop_accum in H. exact H.
Qed.

(** ** What [Machine.Match] returns when there is no match *)

Lemma minShift_spec accum :
  forall ths s0 shift,
    minShift accum s0 ths = Done shift ->
    shift <= s0
    /\ (forall th, In th ths ->
          exists c0, at_ (t_cap th) 0 = Done c0 /\ shift <= c0 - accum)
    /\ (shift = s0
        \/ exists th c0, In th ths /\ at_ (t_cap th) 0 = Done c0
                         /\ shift = c0 - accum).
Proof.
  induction ths as [|th ths IH]; intros s0 shift H; simpl in H.
  - inversion H; subst. split; [lia|]. split; [intros ? []|]. auto.
  - apply bind_Done in H. destruct H as [c0 [Hc H]].
    apply IH in H. destruct H as [H1 [H2 H3]].
    split; [lia|]. split.
    + intros th' [->|Hin].
      * exists c0. split; [exact Hc | lia].
      * apply (H2 th' Hin).
    + destruct H3 as [H3|[th' [c0' [Hin [Hc' H3]]]]].
      * destruct (Z.min_spec s0 (c0 - accum)) as [[Hlt Hmin]|[Hle Hmin]].
        -- left. lia.
        -- right. exists th, c0. split; [left; reflexivity|].
           split; [exact Hc | lia].
      * right. exists th', c0'. split; [right; exact Hin|]. auto.
Qed.

Lemma liveThreads_set_accum m v l :
  liveThreads (set_accum m v) l = liveThreads m l.
Proof.
  induction l as [|e l IH]; simpl; [reflexivity|].
  destruct (e_t e) as [n|]; [|exact IH].
  change (getThread (set_accum m v) n) with (getThread m n).
  rewrite IH. reflexivity.
Qed.

(** The no-match return of [Machine.Match] with live threads on [q0]. *)
Lemma Machine_Match_nomatch fuel m index offset buf m' i' o' ths :
  Machine_Match X fuel m index offset buf = Done (m', (i', o', false)) ->
  liveThreads m' (q_dense (m_q0 m')) = Done ths ->
  ths <> [] ->
  (forall th c0, In th ths -> at_ (t_cap th) 0 = Done c0 ->
                 c0 - m_accum m < MaxInt) ->
  exists shift,
    leastBias (m_accum m) shift ths
    /\ i' = index + shift
    /\ o' = len buf - (index + shift)
    /\ m_accum m' = m_accum m + shift.
Proof.
  unfold Machine_Match. intros H Hlive Hne Hbound.
  apply bind_Done in H. destruct H as [[m1 [[idx off] ok]] [Hm H]].
  apply match_accum in Hm.
  destruct ok; cbn [negb] in H.
  { apply bind_Done in H. destruct H as [mc0 [_ H]].
    apply bind_Done in H. destruct H as [mc1 [_ H]]. inversion H. }
  apply bind_Done in H. destruct H as [ths1 [Hths H]].
  apply bind_Done in H. destruct H as [shift [Hshift H]].
  assert (Eths : ths1 = ths).
  { destruct (shift =? MaxInt); inversion H; subst;
      rewrite liveThreads_set_accum in Hlive; simpl in Hlive; congruence. }
  subst ths1. rewrite Hm in Hshift.
  apply minShift_spec in Hshift. destruct Hshift as [H1 [H2 H3]].
  assert (Hlt : shift < MaxInt).
  { destruct ths as [|th ths]; [congruence|].
    destruct (H2 th (or_introl eq_refl)) as [c0 [Hc Hle]].
    specialize (Hbound th c0 (or_introl eq_refl) Hc). lia. }
  destruct (Z.eqb_spec shift MaxInt) as [He|Hn]; [lia|].
  inversion H; subst. exists shift. simpl.
  split; [|split; [reflexivity | split; [reflexivity | lia]]].
  split.
  - destruct H3 as [H3|H3]; [lia | exact H3].
  - intros th c0 Hin Hc. destruct (H2 th Hin) as [c0' [Hc' Hle]].
    rewrite Hc in Hc'. inversion Hc'; subst. exact Hle.
Qed.

End MachineFrame.


(** ** The machine pools *)

Lemma In_set_nth {A : Type} (l : list A) (n : nat) (v x : A) :
  In x (set_nth l n v) -> x = v \/ In x l.
Proof.
  revert n; induction l as [|a l IH]; intros [|n] H; simpl in *; auto.
  - destruct H as [H|H]; auto.
  - destruct H as [H|H]; auto. destruct (IH n H); auto.
Qed.

Lemma In_set_nth_new {A : Type} (l : list A) (n : nat) (v : A) :
  (n < List.length l)%nat -> In v (set_nth l n v).
Proof.
  revert n; induction l as [|a l IH]; intros [|n] H; simpl in *;
    try lia; auto.
  right. apply IH. lia.
Qed.

Lemma at_In {A : Type} (l : list A) (i : Z) (a : A) :
  at_ l i = Done a -> In a l.
Proof.
  intros H. apply at_Done in H. destruct H as [_ H].
  eapply nth_error_In; eauto.
Qed.

Lemma pooled_In (w : World) (x : nat) :
  In x (pooled w) <->
  exists pl, In pl (matchPool w) /\ In x (map fst pl).
Proof.
  unfold pooled. rewrite in_map_iff. split.
  - intros [[i m] [Hx Hin]]. simpl in Hx. subst i.
    apply in_concat in Hin. destruct Hin as [pl [H1 H2]].
    exists pl. split; auto. apply in_map_iff. exists (x, m). auto.
  - intros [pl [H1 H2]]. apply in_map_iff in H2.
    destruct H2 as [[i m] [Hx Hin]]. simpl in Hx. subst i.
    exists (x, m). split; auto. apply in_concat. exists pl. auto.
Qed.

Lemma skipn_nth {A : Type} (l : list A) (k : nat) (a : A) :
  nth_error l k = Some a -> skipn k l = a :: skipn (S k) l.
Proof.
  revert k; induction l as [|b l IH]; intros [|k] E; simpl in *;
    try discriminate.
  - inversion E; reflexivity.
  - apply IH; exact E.
Qed.

Lemma Pool_Get_sub {A : Type} (pl pl' : list A) (choice : option nat)
    (got : option A) :
  Pool_Get pl choice = (got, pl') ->
  (forall x, In x pl' -> In x pl)
  /\ (forall a, got = Some a -> In a pl)
  /\ (choice = None -> got = None).
Proof.
  unfold Pool_Get. destruct choice as [k|].
  - destruct (nth_error pl k) eqn:E; intros H; inversion H; subst.
    + split; [|split; [|discriminate]].
      * intros x Hx. rewrite <- (firstn_skipn k pl).
        rewrite (skipn_nth _ _ _ E).
        apply in_app_or in Hx. apply in_or_app. simpl. tauto.
      * intros a0 Ha; inversion Ha; subst. eapply nth_error_In; eauto.
    + split; [auto|]. split; discriminate.
  - intros H; inversion H; subst.
    split; [auto|]. split; [discriminate | auto].
Qed.

(** [Regexp.Get] puts nothing into a pool, and the machine it returns was
    in a pool or is a new one. *)
Lemma Regexp_Get_pooled (w w' : World) (re : Regexp) (choice : option nat)
    (id : nat) (m : Machine) :
  Regexp_Get w re choice = Done (w', (id, m)) ->
  (forall x, In x (pooled w') -> In x (pooled w))
  /\ (In id (pooled w) /\ w_next w' = w_next w
      \/ id = w_next w /\ w_next w' = S (w_next w))
  /\ (choice = None -> id = w_next w /\ w_next w' = S (w_next w)).
Proof.
  unfold Regexp_Get. intros H.
  apply bind_Done in H. destruct H as [pl [Hpl H]].
  destruct (Pool_Get pl choice) as [got pl'] eqn:Hget.
  apply bind_Done in H. destruct H as [pools' [Hup H]].
  apply upd_inv in Hup. destruct Hup as [Hrange Hpools].
  pose proof (Pool_Get_sub _ _ _ _ Hget) as [G1 [G2 G3]].
  assert (Hsub : forall x n, In x (pooled (mkWorld pools' n)) ->
                             In x (pooled w)).
  { intros x n Hx. apply pooled_In in Hx. destruct Hx as [p [Hp Hxp]].
    simpl in Hp. rewrite Hpools in Hp. apply In_set_nth in Hp.
    apply pooled_In. destruct Hp as [->|Hp].
    - exists pl. split; [eapply at_In; eauto|].
      apply in_map_iff in Hxp. destruct Hxp as [y [Hy1 Hy2]].
      apply in_map_iff. exists y. split; auto.
    - exists p. auto. }
  destruct got as [[i0 m0]|].
  - apply bind_Done in H; destruct H as [ma [_ H]].
    apply bind_Done in H; destruct H as [mb [_ H]].
    apply bind_Done in H; destruct H as [[mc rest] [_ H]].
    apply bind_Done in H; destruct H as [n [_ H]].
    inversion H; subst. split; [intros x; apply Hsub|]. split.
    + left. split; [|reflexivity].
      apply pooled_In. exists pl. split; [eapply at_In; eauto|].
      apply in_map_iff. exists (id, m0). split; [reflexivity|].
      apply G2; reflexivity.
    + intros Hc. specialize (G3 Hc). discriminate.
  - apply bind_Done in H; destruct H as [ma [_ H]].
    apply bind_Done in H; destruct H as [mb [_ H]].
    apply bind_Done in H; destruct H as [[mc rest] [_ H]].
    apply bind_Done in H; destruct H as [n [_ H]].
    inversion H; subst. split; [intros x; apply Hsub|]. split.
    + right. split; reflexivity.
    + intros _. split; reflexivity.
Qed.

(** [Regexp.Put] adds the machine it is given, and only that one. *)
Lemma Regexp_Put_pooled (w w' : World) (re : Regexp) (im : nat * Machine) :
  Regexp_Put w re im = Done w' ->
  (forall x, In x (pooled w') -> x = fst im \/ In x (pooled w))
  /\ In (fst im) (pooled w')
  /\ w_next w' = w_next w.
Proof.
  unfold Regexp_Put. intros H.
  apply bind_Done in H. destruct H as [pl [Hpl H]].
  apply bind_Done in H. destruct H as [pools' [Hup H]].
  apply upd_inv in Hup. destruct Hup as [Hrange Hpools].
  inversion H; subst. split; [|split; [|reflexivity]].
  - intros x Hx. apply pooled_In in Hx. destruct Hx as [p [Hp Hxp]].
    simpl in Hp. apply In_set_nth in Hp. destruct Hp as [->|Hp].
    + unfold Pool_Put in Hxp. simpl in Hxp. destruct Hxp as [Hxp|Hxp]; auto.
      right. apply pooled_In. exists pl. split; [eapply at_In; eauto | auto].
    + right. apply pooled_In. exists p. auto.
  - apply pooled_In. eexists. split.
    + simpl. apply In_set_nth_new. unfold len in Hrange. lia.
    + unfold Pool_Put. simpl. left. reflexivity.
Qed.

(** [clearFunc] is [re.Put(re.Get())]: the only machine that can enter a
    pool is a newly allocated one. *)
Lemma clearFunc_pooled (w w' : World) (re : Regexp) (choice : option nat) :
  clearFunc w re choice = Done w' ->
  (forall x, In x (pooled w') -> In x (pooled w) \/ x = w_next w)
  /\ (w_next w <= w_next w')%nat
  /\ pooled w' <> []
  /\ (choice = None -> In (w_next w) (pooled w')
                       /\ w_next w' = S (w_next w)).
Proof.
  unfold clearFunc. intros H.
  apply bind_Done in H. destruct H as [[w1 [id m]] [Hg H]].
  apply Regexp_Get_pooled in Hg. destruct Hg as [G1 [G2 G3]].
  apply Regexp_Put_pooled in H. destruct H as [P1 [P2 P3]].
  simpl in P1, P2.
  split; [|split; [|split]].
  - intros x Hx. destruct (P1 x Hx) as [->|Hx1].
    + destruct G2 as [[G2 _]|[G2 _]]; auto.
    + left. apply G1; exact Hx1.
  - destruct G2 as [[_ G2]|[_ G2]]; lia.
  - intros Hnil. rewrite Hnil in P2. destruct P2.
  - intros Hc. destruct (G3 Hc) as [-> G4]. split; [exact P2 | lia].
Qed.

Lemma pattern_Clear_pooled (w w' : World) (p : pattern)
    (choice : option nat) :
  pattern_Clear w p choice = Done w' ->
  (forall x, In x (pooled w') -> In x (pooled w) \/ x = w_next w)
  /\ (w_next w <= w_next w')%nat.
Proof.
  destruct p as [k|r]; simpl; intros H.
  - inversion H; subst. split; auto.
  - apply clearFunc_pooled in H. destruct H as [H1 [H2 _]]. auto.
Qed.

Lemma Close_inv (w w' : World) (m : matcher) (c0 c1 : option nat)
    (e : option error) :
  Close w m c0 c1 = Done (w', e) ->
  exists w1,
    pattern_Clear w (fst (patterns m)) c0 = Done w1
    /\ pattern_Clear w1 (snd (patterns m)) c1 = Done w'
    /\ e = if 0 <? len (buffer m) then Some ErrBufferNotDrained else None.
Proof.
  unfold Close. intros H.
  apply bind_Done in H. destruct H as [w1 [H1 H]].
  apply bind_Done in H. destruct H as [w2 [H2 H]].
  exists w1. destruct (0 <? len (buffer m)); inversion H; subst; auto.
Qed.

(** A machine held by a sub-matcher never enters a pool through [Close]. *)
Lemma Close_keeps_held_out (w w' : World) (m : matcher)
    (c0 c1 : option nat) (e : option error) (id : nat) :
  Close w m c0 c1 = Done (w', e) ->
  In id (held m) ->
  (id < w_next w)%nat ->
  ~ In id (pooled w) ->
  ~ In id (pooled w').
Proof.
  intros H _ Hlt Hout Hin.
  apply Close_inv in H. destruct H as [w1 [H1 [H2 _]]].
  apply pattern_Clear_pooled in H1, H2.
  destruct H1 as [A1 A2]. destruct H2 as [B1 B2].
  destruct (B1 id Hin) as [Hin1|Heq]; [|lia].
  destruct (A1 id Hin1) as [Hin0|Heq]; [auto | lia].
Qed.

(** * The claims *)

(** ** Conservation *)

(** Whenever the calls return, nothing is lost.  For every pair and every
    sequence of chunks: when every [Match] call returns with its sequence
    read to the end, the raw bytes of all the segments followed by what
    [Drain] returns are the chunks concatenated, byte for byte.  For a
    literal pair with non-empty delimiters the calls do return
    ([literal_pair_runs]); with a regex sub-matcher a call can panic. *)
Theorem conservation (X : Externals) (MC MCP : bytes -> result Regexp)
    (fuel0 fuel : nat) (w w' : World) (pair : Pair) (c0 c1 : option nat)
    (m m' : matcher) (chunks : list bytes) (segs : list textResult) :
  NewMatcher MC MCP fuel0 w pair c0 c1 = Done (w', m) ->
  feed X fuel m chunks = Done (m', segs) ->
  raws segs ++ snd (Drain m') = List.concat chunks.
Proof.
  intros Hnew Hfeed.
  apply NewMatcher_buffer in Hnew. destruct Hnew as [Hbuf _].
  apply feedWith_conserve in Hfeed. rewrite Hbuf in Hfeed.
  rewrite map_map in Hfeed. simpl in Hfeed. rewrite map_id in Hfeed.
  exact Hfeed.
Qed.

Lemma conservation_witness :
  exists m' segs,
    feed asciiExternals 64 (snd (newMatcher prologue_epilogue))
      [str "prologuedata"; str "epilo"] = Done (m', segs)
    /\ segs = [mkResult STATE_HEAD (str "prologue");
               mkResult STATE_BODY (str "data")]
    /\ raws segs ++ snd (Drain m')
       = List.concat [str "prologuedata"; str "epilo"].
Proof.
  eexists. eexists. split; [vm_compute; reflexivity|].
  split; [reflexivity|].
  apply (conservation asciiExternals compileTable compileTable 32 64
           initWorld initWorld prologue_epilogue None None
           (snd (newMatcher prologue_epilogue))).
  - vm_compute. reflexivity.
  - vm_compute. reflexivity.
Defined.

(** C1, of the code, fails: a call can panic, and then no segments and no
    [Drain] stand for the input.  With the expression [abc] as head, the
    chunk ["xx"] comes out as one NONE segment and leaves the buffer empty
    and the machine with [accum] 2.  On the chunk ["a"] the machine starts
    a thread behind the [a], at offset 1 of the buffer, with an unbiased
    [cap[0]] of 1, which is below [accum]: it answers [(-1, 2, false)],
    and [Match] asks the buffer for [Next(-1)].  The call panics. *)
Theorem conservation_regex_head :
  exists m1 rp mach,
    Match asciiExternals 32 consumeAll (snd (newMatcher regex_abc_t))
      (str "xx") = Done (m1, [mkResult STATE_NONE (str "xx")])
    /\ buffer m1 = [] /\ index m1 = 0 /\ offset m1 = 0
    /\ fst (patterns m1) = PRegex rp
    /\ m_accum (rp_machine rp) = 2
    /\ Machine_Match asciiExternals 32 (rp_machine rp) 0 0 (str "a")
       = Done (mach, (-1, 2, false))
    /\ Buffer_Next (str "a") (-1) = Panic
    /\ Match asciiExternals 32 consumeAll m1 (str "a") = Panic
    /\ feed asciiExternals 32 (snd (newMatcher regex_abc_t))
         [str "xx"; str "a"] = Panic.
Proof.
  eexists. eexists. eexists.
  split; [vm_compute; reflexivity|].
  split; [reflexivity|]. split; [reflexivity|]. split; [reflexivity|].
  split; [reflexivity|]. split; [reflexivity|].
  split; [vm_compute; reflexivity|].
  split; [reflexivity|].
  split; vm_compute; reflexivity.
Qed.

(** ** The bias [accum] *)




(** A thread started while [accum] is not zero is seeded with the plain
    buffer offset.  The machine for [a] has been given ["x"] and has
    [accum = 1]; given ["y"] it starts a thread at offset 1 with
    [cap[0] = 1], which it reads as offset 0: it returns [(0, 1, false)]
    and the caller keeps the [y], which no candidate contains. *)
Lemma fresh_thread_unbiased :
  exists m2,
    m_accum machine_a_x = 1
    /\ Machine_Match asciiExternals 8 machine_a_x 0 0 (str "y")
       = Done (m2, (0, 1, false))
    /\ liveThreads m2 (q_dense (m_q0 m2)) = Done [mkThread 1 [1; 0] []]
    /\ m_accum m2 = 1.
Proof.
  eexists.
  split; [reflexivity|].
  split; [vm_compute; reflexivity|].
  split; vm_compute; reflexivity.
Qed.

(** ** Chunking *)

(** For a literal pair the labeled bytes do not depend on the chunks
    ([literal_chunking]); with a regex sub-matcher they do. *)

(** The repository's machine test for [error|warn|info] expects
    [(16, 5, true)] from the fifth call; the machine returns
    [(-7, 28, true)].  The fourth call has left [accum] at 23, and the
    thread that matches was started in the fifth call with an unbiased
    [cap[0]] of 16. *)
Lemma machine_test_error_warn_info :
  machineTest asciiExternals 64
    (fromDone newMachine (freshMachine (perlRegexp prog_error_warn_info)))
    0 []
    [str "where there is a info"; str "there is a warning";
     str "when there is a warning"; str "you dont give a fuck";
     str "and suddenly an error come up"; str "warned you had been";
     str "and you dont give a fuck"]
  = Done [(17, 4, true); (11, 4, true); (19, 4, true); (23, 0, false);
          (-7, 28, true); (8, 4, true); (39, 0, false)].
Proof. vm_compute. reflexivity. Qed.

(** C3. With the expression [a] as head, the bytes ["xya"] given as one
    chunk are labeled NONE, NONE, HEAD; given as ["x"] and ["ya"] they are
    labeled NONE, HEAD, HEAD. *)
Theorem chunking_regex_head :
  exists m1 m2 segs1 segs2,
    feed asciiExternals 32 (snd (newMatcher regex_a_t)) [str "xya"]
      = Done (m1, segs1)
    /\ feed asciiExternals 32 (snd (newMatcher regex_a_t))
         [str "x"; str "ya"] = Done (m2, segs2)
    /\ segs1 = [mkResult STATE_NONE (str "xy");
                mkResult STATE_HEAD (str "a")]
    /\ segs2 = [mkResult STATE_NONE (str "x");
                mkResult STATE_HEAD (str "ya")]
    /\ List.concat [str "x"; str "ya"] = List.concat [str "xya"]
    /\ labeled segs1 <> labeled segs2.
Proof.
  eexists. eexists. eexists. eexists.
  split; [vm_compute; reflexivity|].
  split; [vm_compute; reflexivity|].
  split; [reflexivity|]. split; [reflexivity|]. split; [reflexivity|].
  vm_compute. discriminate.
Qed.

(** ** Leaving the sequence early *)

(** C4. With the pair [prologue]/[epilogue], the consumer of
    [Match("prologuedata")] leaves on the HEAD segment; [Match("epilogue")]
    is then read to the end.  The bytes after the head come out as one
    NONE segment, where the run that reads both sequences to the end
    labels them BODY and TAIL: the state was not flipped before the
    sequence was left. *)
Theorem early_stop_on_delimiter :
  exists m1 m2 left_early read_all,
    feedWith asciiExternals 64 (snd (newMatcher prologue_epilogue))
      [(str "prologuedata", stopAfter 1); (str "epilogue", consumeAll)]
      = Done (m1, left_early)
    /\ feedWith asciiExternals 64 (snd (newMatcher prologue_epilogue))
         [(str "prologuedata", consumeAll); (str "epilogue", consumeAll)]
       = Done (m2, read_all)
    /\ left_early = [mkResult STATE_HEAD (str "prologue");
                     mkResult STATE_NONE (str "dataepilogue")]
    /\ read_all = [mkResult STATE_HEAD (str "prologue");
                   mkResult STATE_BODY (str "data");
                   mkResult STATE_TAIL (str "epilogue")]
    /\ labeled left_early <> labeled read_all.
Proof.
  eexists. eexists. eexists. eexists.
  split; [vm_compute; reflexivity|].
  split; [vm_compute; reflexivity|].
  split; [reflexivity|]. split; [reflexivity|].
  vm_compute. discriminate.
Qed.

(** Leaving on the segment before a delimiter is safe: the next call
    finds the delimiter at the front of the buffer. *)
Lemma early_stop_before_delimiter :
  exists m1 m2 left_early read_all,
    feedWith asciiExternals 64 (snd (newMatcher prologue_epilogue))
      [(str "xprologuedata", stopAfter 1); (str "epilogue", consumeAll)]
      = Done (m1, left_early)
    /\ feedWith asciiExternals 64 (snd (newMatcher prologue_epilogue))
         [(str "xprologuedata", consumeAll); (str "epilogue", consumeAll)]
       = Done (m2, read_all)
    /\ left_early = read_all /\ m1 = m2.
Proof.
  eexists. eexists. eexists. eexists.
  split; [vm_compute; reflexivity|].
  split; [vm_compute; reflexivity|].
  split; reflexivity.
Qed.

(** ** Non-empty segments *)

(** C5. With the expression [ab??] as head and the literal [t] as tail,
    both of length at least 1, [Match("zzatxb")] emits an empty HEAD
    segment: the thread left on the queue by the first match reports the
    second one at offset 2 with length 0. *)
Theorem empty_segment_regex_head :
  exists m' segs,
    1 <= len (head regex_ab_lazy_t) /\ 1 <= len (tail regex_ab_lazy_t)
    /\ feed asciiExternals 32 (snd (newMatcher regex_ab_lazy_t))
         [str "zzatxb"] = Done (m', segs)
    /\ segs = [mkResult STATE_NONE (str "zz"); mkResult STATE_HEAD (str "a");
               mkResult STATE_TAIL (str "t"); mkResult STATE_NONE (str "xb");
               mkResult STATE_HEAD []]
    /\ ~ Forall nonEmpty segs.
Proof.
  eexists. eexists.
  split; [vm_compute; discriminate|].
  split; [vm_compute; discriminate|].
  split; [vm_compute; reflexivity|].
  split; [reflexivity|].
  intros H. do 4 apply Forall_inv_tail in H. apply Forall_inv in H.
  vm_compute in H. apply H. reflexivity.
Qed.

(** For a literal pair with non-empty delimiters every segment is
    non-empty, whatever the chunks. *)
Lemma literal_segments_nonempty (X : Externals)
    (MC MCP : bytes -> result Regexp) (w : World) (c0 c1 : option nat)
    (hd tl : bytes) (chunks : list bytes) (fuel : nat) :
  1 <= len hd -> 1 <= len tl ->
  2 * len (List.concat chunks) + 2 * len hd + 2 * len tl < Z.of_nat fuel ->
  exists m m' segs,
    NewMatcher MC MCP fuel w (literalPair hd tl) c0 c1 = Done (w, m)
    /\ feed X fuel m chunks = Done (m', segs)
    /\ Forall nonEmpty segs.
Proof.
  intros H1 H2 H3.
  destruct (literal_pair_runs X MC MCP w c0 c1 hd tl chunks fuel H1 H2 H3)
    as [m [m' [segs [E1 [E2 [E3 _]]]]]].
  exists m, m', segs. auto.
Qed.

(** ** The KMP sub-matcher *)



(** ** The no-match return of the machine *)

(** C6, as stated, fails.  The machine for [abc] has been given ["xa"]:
    it returned [(1, 1, false)] and has [accum = 1].  Given ["ab"] (the
    kept byte and the next chunk ["b"]) it returns [(0, 2, false)] and
    leaves [accum] at 1; the live threads have [cap[0]] 1 and 2.  With the
    least [cap[0]] as shift the return would be [(1, 1, false)], the
    caller would release the [a] of the candidate, and [accum] would be 2.
    The code keeps both bytes and finds the match when [c] arrives. *)
Lemma min_cap0_counterexample :
  exists m2 m3 ths,
    Machine_Match asciiExternals 8 machine_abc 0 0 (str "xa")
      = Done (machine_abc_xa, (1, 1, false))
    /\ m_accum machine_abc_xa = 1
    /\ Machine_Match asciiExternals 8 machine_abc_xa 0 1 (str "ab")
       = Done (m2, (0, 2, false))
    /\ liveThreads m2 (q_dense (m_q0 m2)) = Done ths
    /\ ths = [mkThread 3 [1; 0] []; mkThread 1 [2; 0] []]
    /\ leastCap0 1 ths
    /\ (0, 2) <> (0 + 1, len (str "ab") - (0 + 1))
    /\ m_accum m2 <> m_accum machine_abc_xa + 1
    /\ Machine_Match asciiExternals 8 m2 0 2 (str "abc")
       = Done (m3, (0, 3, true)).
Proof.
  eexists. eexists. eexists.
  split; [vm_compute; reflexivity|].
  split; [reflexivity|].
  split; [vm_compute; reflexivity|].
  split; [vm_compute; reflexivity|].
  split; [reflexivity|].
  split.
  - split.
    + eexists. split; [left; reflexivity | reflexivity].
    + intros th c0 [<-|[<-|[]]] Hc; vm_compute in Hc; inversion Hc; lia.
  - split; [vm_compute; discriminate|].
    split; [vm_compute; discriminate|].
    vm_compute. reflexivity.
Qed.

(** C6, amended. When [Machine.Match(index, offset, buf)] returns without
    a match and with live threads on the run queue [q0], it returns
    [(index + shift, len(buf) - (index + shift), false)] where [shift] is
    the least of [cap[0] - accum] over those threads, [accum] being the
    bias the call was entered with; and exactly that shift is added to
    [accum]. *)
Theorem nomatch_shift (X : Externals) (fuel : nat) (m m' : Machine)
    (index offset i' o' : Z) (buf : bytes) (ths : list thread) :
  Machine_Match X fuel m index offset buf = Done (m', (i', o', false)) ->
  liveThreads m' (q_dense (m_q0 m')) = Done ths ->
  ths <> [] ->
  (forall th c0, In th ths -> at_ (t_cap th) 0 = Done c0 ->
                 c0 - m_accum m < MaxInt) ->
  exists shift,
    leastBias (m_accum m) shift ths
    /\ (i', o') = (index + shift, len buf - (index + shift))
    /\ m_accum m' = m_accum m + shift.
Proof.
  intros H Hlive Hne Hbound.
  destruct (Machine_Match_nomatch X fuel m index offset buf m' i' o' ths
              H Hlive Hne Hbound) as [shift [Hleast [Hi [Ho Ha]]]].
  exists shift. split; [exact Hleast|]. split; [congruence | exact Ha].
Qed.

Lemma nomatch_shift_witness :
  exists shift,
    leastBias (m_accum machine_abc) shift
      [mkThread 3 [1; 0] []; mkThread 1 [3; 0] []]
    /\ (1, 2) = (0 + shift, len (str "xab") - (0 + shift))
    /\ m_accum machine_abc_xab = m_accum machine_abc + shift.
Proof.
  apply (nomatch_shift asciiExternals 8 machine_abc machine_abc_xab
           0 0 1 2 (str "xab")).
  - vm_compute. reflexivity.
  - vm_compute. reflexivity.
  - discriminate.
  - intros th c0 [<-|[<-|[]]] Hc; vm_compute in Hc; inversion Hc;
      vm_compute; reflexivity.
Defined.

(** ** Close *)

(** C8. [Close] returns the error [ErrBufferNotDrained] exactly when the
    buffer is not empty at the time of the call; after [Drain] it returns
    no error. *)
Theorem Close_buffer_not_drained (w w' : World) (m : matcher)
    (c0 c1 : option nat) (e : option error) :
  Close w m c0 c1 = Done (w', e) ->
  (e = Some ErrBufferNotDrained <-> buffer m <> [])
  /\ Close w (fst (Drain m)) c0 c1 = Done (w', None).
Proof.
  intros H. apply Close_inv in H. destruct H as [w1 [H1 [H2 He]]].
  split.
  - pose proof (len_nonneg (buffer m)) as Hlen.
    pose proof (len_nil_iff (buffer m)) as Hnil.
    destruct (Z.ltb_spec 0 (len (buffer m))); subst e; split.
    + intros _ Hb. apply Hnil in Hb. lia.
    + reflexivity.
    + discriminate.
    + intros Hb. exfalso. apply Hb. apply Hnil. lia.
  - unfold Close, Drain. cbn [fst patterns buffer].
    rewrite H1. cbn [bind]. rewrite H2. reflexivity.
Qed.

Lemma Close_buffer_not_drained_witness :
  (Some ErrBufferNotDrained = Some ErrBufferNotDrained
   <-> buffer matcher_pro <> [])
  /\ Close initWorld (fst (Drain matcher_pro)) None None
     = Done (initWorld, None).
Proof.
  apply (Close_buffer_not_drained initWorld initWorld matcher_pro None None
           (Some ErrBufferNotDrained)).
  vm_compute. reflexivity.
Defined.

(** C9. [Clear] on a KMP sub-matcher does nothing.  A matcher with the
    expression [abc] as head holds machine 0, taken from the empty pools;
    after [Drain], [Close] returns no error and leaves machine 1 in the
    pool, a machine [clearFunc] has just allocated: the machine the
    sub-matcher holds is not returned. *)
Theorem Close_held_machine_not_returned :
  (forall w k c, pattern_Clear w (PKmp k) c = Done w)
  /\ exists w',
       held matcher_abc_xab = [0%nat]
       /\ pooled (fst (newMatcher regex_abc_t)) = []
       /\ Close (fst (newMatcher regex_abc_t))
            (fst (Drain matcher_abc_xab)) None None = Done (w', None)
       /\ pooled w' = [1%nat]
       /\ ~ In 0%nat (pooled w').
Proof.
  split; [reflexivity|].
  eexists.
  split; [reflexivity|]. split; [reflexivity|].
  split; [vm_compute; reflexivity|].
  split; [reflexivity|].
  simpl. intros [H|[]]. discriminate.
Qed.



(** * Further properties of the code *)

(** ** The failure table holds the longest borders *)

Lemma border_drop (p : bytes) (k v : Z) :
  border p (k + 1) (v + 1) -> border p k v.
Proof.
  intros H x Hx. rewrite (H x) by lia. f_equal. lia.
Qed.

Lemma border_of_borders (p : bytes) (i j v : Z) :
  border p i j -> border p i v -> 0 <= v <= j -> border p j v.
Proof.
  intros Hj Hv Hle x Hx.
  rewrite (Hv x Hx). rewrite (Hj (j - v + x)) by lia. f_equal. lia.
Qed.

Lemma longestBorder_lpsEntry (p : bytes) (array : list Z) :
  lpsMax p array -> lpsOk p array.
Proof.
  intros [Hlen H]. split; [exact Hlen|].
  intros k Hk. destruct (H k Hk) as [v [Hv [Hr [Hb _]]]].
  exists v. split; [exact Hv|]. split; [lia | exact Hb].
Qed.

Lemma computeLpsLoop_max (p : bytes) :
  forall (fuel : nat) (array array' : list Z) (i j : Z),
    len array = len p ->
    1 <= i -> 0 <= j < i ->
    (forall k, 0 <= k < i -> k < len p ->
       exists v, at_ array k = Done v /\ longestBorder p (k + 1) v) ->
    border p i j ->
    (forall v, j < v < i -> ~ border p (i + 1) (v + 1)) ->
    computeLpsLoop fuel p array i j = Done array' ->
    lpsMax p array'.
Proof.
  induction fuel as [|fuel IH];
    intros array array' i j Hlen Hi Hj Hent Hb Hinv Hrun.
  - discriminate.
  - simpl in Hrun. destruct (Z.ltb_spec i (len p)) as [Hlt|Hge].
    + destruct (at_range p i) as [pi Hpi]; [lia|].
      destruct (at_range p j) as [pj Hpj]; [lia|].
      rewrite Hpi, Hpj in Hrun. cbn [bind] in Hrun.
      destruct (Byte.eqb pi pj) eqn:Heq.
      * apply byte_dec_bl in Heq. subst pj.
        rewrite upd_Done in Hrun by lia. cbn [bind] in Hrun.
        assert (Hmax : longestBorder p (i + 1) (j + 1)).
        { split; [lia|]. split.
          - apply border_ext; auto. congruence.
          - intros v' Hv' Hbv'.
            apply (Hinv (v' - 1)); [lia|].
            replace (v' - 1 + 1) with v' by lia. exact Hbv'. }
        eapply IH; [.. | exact Hrun]; try lia.
        -- rewrite len_set_nth; exact Hlen.
        -- intros k Hk Hkp. destruct (Z.eq_dec k i) as [->|Hne].
           ++ exists (j + 1). split; [apply at_set_nth_same; lia|].
              exact Hmax.
           ++ destruct (Hent k) as [v [Hv1 Hv2]]; try lia.
              exists v. split; auto.
              rewrite at_set_nth_other; auto; lia.
        -- apply border_ext; auto. congruence.
        -- intros v Hv Hbv. apply border_drop in Hbv.
           destruct Hmax as [_ [_ Hmax]]. apply (Hmax v); [lia | exact Hbv].
      * assert (Hne : at_ p j <> at_ p i).
        { rewrite Hpi, Hpj. intros E. inversion E; subst.
          assert (T : Byte.eqb pi pi = true)
            by (apply byte_dec_lb; reflexivity).
          congruence. }
        destruct (Z.eqb_spec j 0) as [Hj0|Hj0]; cbn [negb] in Hrun.
        -- rewrite upd_Done in Hrun by lia. cbn [bind] in Hrun.
           subst j.
           assert (Hmax : longestBorder p (i + 1) 0).
           { split; [lia|]. split; [intros x Hx; lia|].
             intros v' Hv' Hbv'.
             destruct (Z.eq_dec v' 1) as [->|Hv1].
             - apply Hne. rewrite (Hbv' 0) by lia. f_equal. lia.
             - apply (Hinv (v' - 1)); [lia|].
               replace (v' - 1 + 1) with v' by lia. exact Hbv'. }
           eapply IH; [.. | exact Hrun]; try lia.
           ++ rewrite len_set_nth; exact Hlen.
           ++ intros k Hk Hkp. destruct (Z.eq_dec k i) as [->|Hnk].
              ** exists 0. split; [apply at_set_nth_same; lia | exact Hmax].
              ** destruct (Hent k) as [v [Hv1 Hv2]]; try lia.
                 exists v. split; auto.
                 rewrite at_set_nth_other; auto; lia.
           ++ intros x Hx; lia.
           ++ intros v Hv Hbv. apply border_drop in Hbv.
              destruct Hmax as [_ [_ Hmax]]. apply (Hmax v); [lia | exact Hbv].
        -- destruct (Hent (j - 1)) as [v0 [Hv1 [Hv2 [Hv3 Hv4]]]]; try lia.
           rewrite Hv1 in Hrun. cbn [bind] in Hrun.
           replace (j - 1 + 1) with j in * by lia.
           eapply IH; [.. | exact Hrun]; try lia; auto.
           ++ apply border_trans with (j := j); auto. lia.
           ++ intros v Hv Hbv.
              destruct (Z.lt_trichotomy v j) as [Hlt'|[->|Hgt]].
              ** apply border_drop in Hbv.
                 apply (Hv4 v); [lia|].
                 apply border_of_borders with (i := i); auto. lia.
              ** apply Hne. rewrite (Hbv j) by lia. f_equal. lia.
              ** apply (Hinv v); [lia | exact Hbv].
    + inversion Hrun; subst array'. split; [exact Hlen|].
      intros k Hk. apply Hent; lia.
Qed.

Lemma computeLpsArray_max (p : bytes) (fuel : nat) (array : list Z) :
  computeLpsArray fuel p = Done array -> lpsMax p array.
Proof.
  unfold computeLpsArray. intros H.
  pose proof (len_nonneg p) as Hp.
  eapply computeLpsLoop_max; [.. | exact H]; try lia.
  - apply len_zeros; lia.
  - intros k Hk Hkp. assert (k = 0) by lia. subst k.
    exists 0. split; [apply at_zeros; lia|].
    split; [lia|]. split; [intros x Hx; lia|]. intros v' Hv'; lia.
  - intros x Hx; lia.
Qed.

Lemma kmpWfMax_kmpWf (pat : kmpPattern) : kmpWfMax pat -> kmpWf pat.
Proof.
  intros [H1 H2]. split; [exact H1|]. apply longestBorder_lpsEntry; exact H2.
Qed.

Lemma newKmpPattern_max (src : bytes) (fuel : nat) (pat : kmpPattern) :
  newKmpPattern fuel src = Done pat -> kmpWfMax pat /\ source pat = src.
Proof.
  unfold newKmpPattern. intros H.
  apply bind_Done in H. destruct H as [array [H1 H2]].
  inversion H2; subst pat. split; [|reflexivity].
  split; [reflexivity|]. simpl. apply computeLpsArray_max with (fuel := fuel).
  exact H1.
Qed.

(** ** The scan misses no occurrence *)

Lemma agree_any (buffer p : bytes) (s e : Z) :
  agree buffer p s (len buffer) -> agree buffer p s e.
Proof. intros H x Hx _ Hn. apply H; auto. Qed.

Lemma agree_mono (buffer p : bytes) (s e e' : Z) :
  e <= e' -> agree buffer p s e' -> agree buffer p s e.
Proof. intros Hle H x Hx He Hn. apply H; auto; lia. Qed.

Lemma sub_all {A : Type} (p : list A) : sub p 0 (len p) = p.
Proof.
  unfold sub, len. simpl.
  replace (Z.to_nat (Z.of_nat (List.length p) - 0)) with (List.length p)
    by lia.
  apply firstn_all.
Qed.

Lemma occurs_live (buffer p : bytes) (s : Z) :
  occurs buffer p s <-> live buffer p s (len p).
Proof.
  pose proof (len_nonneg p) as Hp.
  rewrite live_sub, sub_all. unfold occurs. split.
  - intros [H1 [H2 H3]]. repeat split; auto; lia.
  - intros [H1 [H2 [H3 H4]]]. repeat split; auto.
Qed.

Lemma occurs_agree (buffer more p : bytes) (s e : Z) :
  occurs (buffer ++ more) p s -> agree buffer p s e.
Proof.
  intros H. apply occurs_live in H. destruct H as [_ [_ [_ H]]].
  intros x Hx _ Hn. rewrite <- (H x Hx). symmetry. apply at_app_l. exact Hn.
Qed.

Lemma kmpLoop_leftmost (pat : kmpPattern) (buffer : bytes) (index : Z) :
  kmpWfMax pat ->
  forall (fuel : nat) (i j i' j' : Z) (ok : bool),
    0 <= j < length pat ->
    live buffer (source pat) (i - j) j ->
    (forall s, index <= s < i - j -> ~ agree buffer (source pat) s (i + 1)) ->
    kmpLoop fuel pat buffer i j = Done (i', j', ok) ->
    forall s, index <= s < i' -> ~ agree buffer (source pat) s (len buffer).
Proof.
  intros [Hlen [Hl1 Hl2]].
  induction fuel as [|fuel IH]; intros i j i' j' ok Hj Hlive Hinv Hrun.
  - discriminate.
  - destruct Hlive as [H0 [H1 [H2 H3]]].
    simpl in Hrun. destruct (Z.ltb_spec i (len buffer)) as [Hlt|Hge].
    + destruct (at_range buffer i) as [b Hb]; [lia|].
      destruct (at_range (source pat) j) as [c Hc]; [lia|].
      rewrite Hb, Hc in Hrun. cbn [bind] in Hrun.
      destruct (Byte.eqb b c) eqn:Heq.
      * apply byte_dec_bl in Heq. subst c.
        destruct (Z.eqb_spec (j + 1) (length pat)) as [Hm|Hm].
        -- inversion Hrun; subst i' j' ok. intros s Hs Ha.
           apply (Hinv s); [lia|]. apply agree_any; exact Ha.
        -- eapply IH; [.. | exact Hrun]; try lia.
           ++ split; [lia|]. split; [lia|]. split; [lia|].
              intros x Hx. destruct (Z.eq_dec x j) as [->|Hne].
              ** replace (i + 1 - (j + 1) + j) with i by lia. congruence.
              ** replace (i + 1 - (j + 1) + x) with (i - j + x) by lia.
                 apply H3; lia.
           ++ intros s Hs Ha. apply (Hinv s); [lia|].
              apply agree_mono with (e' := i + 1 + 1); [lia | exact Ha].
      * assert (Hne : at_ buffer i <> at_ (source pat) j).
        { rewrite Hb, Hc. intros E. inversion E; subst.
          assert (T : Byte.eqb c c = true)
            by (apply byte_dec_lb; reflexivity).
          congruence. }
        destruct (Z.eqb_spec j 0) as [Hj0|Hj0]; cbn [negb] in Hrun.
        -- subst j. eapply IH; [.. | exact Hrun]; try lia.
           ++ split; [lia|]. split; [lia|]. split; [lia|].
              intros x Hx; lia.
           ++ intros s Hs Ha. destruct (Z.eq_dec s i) as [->|Hsi].
              ** apply Hne. replace i with (i + 0) at 1 by lia.
                 apply Ha; lia.
              ** apply (Hinv s); [lia|].
                 apply agree_mono with (e' := i + 1 + 1); [lia | exact Ha].
        -- destruct (Hl2 (j - 1)) as [v0 [Hv1 [Hv2 [Hv3 Hv4]]]]; [lia|].
           rewrite Hv1 in Hrun. cbn [bind] in Hrun.
           replace (j - 1 + 1) with j in * by lia.
           eapply IH; [.. | exact Hrun]; try lia.
           ++ split; [lia|]. split; [lia|]. split; [lia|].
              intros x Hx. rewrite (Hv3 x Hx).
              replace (i - v0 + x) with (i - j + (j - v0 + x)) by lia.
              apply H3; lia.
           ++ intros s Hs Ha.
              destruct (Z.lt_trichotomy s (i - j)) as [Hlt'|[->|Hgt]].
              ** apply (Hinv s); [lia | exact Ha].
              ** apply Hne. replace i with (i - j + j) at 1 by lia.
                 apply Ha; lia.
              ** apply (Hv4 (i - s)); [lia|].
                 intros x Hx.
                 rewrite <- (Ha x) by lia.
                 replace (s + x) with (i - j + (j - (i - s) + x)) by lia.
                 apply H3. lia.
    + inversion Hrun; subst i' j' ok. intros s Hs Ha.
      apply (Hinv s); [lia|]. apply agree_any; exact Ha.
Qed.

(** What a run of the scan returns, whatever the fuel it was given. *)
Lemma kmpLoop_result (pat : kmpPattern) (buffer : bytes) (fuel : nat)
    (i j i' j' : Z) (ok : bool) :
  kmpWf pat -> 0 <= j < length pat ->
  live buffer (source pat) (i - j) j ->
  kmpLoop fuel pat buffer i j = Done (i', j', ok) ->
  live buffer (source pat) i' j'
  /\ i - j <= i'
  /\ (ok = true -> j' = length pat)
  /\ (ok = false -> j' < length pat /\ i' + j' = len buffer).
Proof.
  intros Hwf Hj Hlive Hrun.
  pose proof (len_nonneg buffer) as Hb.
  set (big := Nat.max fuel (S (Z.to_nat (2 * Z.max 0 (len buffer - i) + j + 2 * len buffer)))).
  destruct (kmpLoop_ok pat buffer Hwf big i j Hj Hlive)
    as [i2 [j2 [ok2 [E1 [E2 [E3 E4]]]]]].
  { unfold big. lia. }
  apply (kmpLoop_mono _ _ _ big) in Hrun; [|unfold big; lia].
  rewrite Hrun in E1. inversion E1; subst. auto.
Qed.

Lemma kmpMatch_leftmost (pat : kmpPattern) (buffer : bytes)
    (index offset : Z) (fuel : nat) (i' o' : Z) (ok : bool) :
  kmpWfMax pat ->
  0 <= offset <= length pat ->
  live buffer (source pat) index offset ->
  kmpMatch fuel pat index offset buffer = Done (i', o', ok) ->
  live buffer (source pat) i' o'
  /\ index <= i'
  /\ (ok = true -> o' = length pat)
  /\ (ok = false -> o' < length pat /\ i' + o' = len buffer)
  /\ forall s, index <= s < i' ->
       ~ agree buffer (source pat) s (len buffer).
Proof.
  intros Hmax Hoffset Hlive Hrun.
  pose proof (kmpWfMax_kmpWf _ Hmax) as Hwf.
  unfold kmpMatch in Hrun.
  destruct (Z.eqb_spec offset (length pat)) as [Heq|Hne].
  - inversion Hrun; subst i' o' ok.
    split; [exact Hlive|]. split; [lia|]. split; [intros; lia|].
    split; [discriminate|]. intros s Hs; lia.
  - assert (Hj : 0 <= offset < length pat) by lia.
    assert (Hlive' : live buffer (source pat) (index + offset - offset) offset).
    { replace (index + offset - offset) with index by lia. exact Hlive. }
    destruct (kmpLoop_result _ _ _ _ _ _ _ _ Hwf Hj Hlive' Hrun)
      as [R1 [R2 [R3 R4]]].
    split; [exact R1|]. split; [lia|]. split; [exact R3|].
    split; [exact R4|].
    apply (kmpLoop_leftmost pat buffer index Hmax fuel
             (index + offset) offset i' o' ok); auto.
    intros s Hs; lia.
Qed.

(** ** The KMP sub-matcher: the table and the scan *)

(** X1. [computeLpsArray] returns, and entry [k] of the table it builds is
    the length of the longest proper border of [p[0 : k+1]]: no longer
    proper prefix of it is also its suffix. *)
Theorem failure_table_longest (p : bytes) (fuel : nat) :
  2 * len p < Z.of_nat fuel ->
  exists array,
    computeLpsArray fuel p = Done array
    /\ len array = len p
    /\ forall k, 0 <= k < len p ->
         exists v, at_ array k = Done v /\ longestBorder p (k + 1) v.
Proof.
  intros Hfuel.
  destruct (computeLpsArray_ok p fuel Hfuel) as [array [H _]].
  exists array. split; [exact H|].
  apply computeLpsArray_max in H. exact H.
Qed.

Lemma failure_table_longest_witness :
  exists array,
    computeLpsArray 16 (str "aabaaab") = Done array
    /\ len array = len (str "aabaaab")
    /\ forall k, 0 <= k < len (str "aabaaab") ->
         exists v, at_ array k = Done v
                   /\ longestBorder (str "aabaaab") (k + 1) v.
Proof.
  apply (failure_table_longest (str "aabaaab") 16). vm_compute. reflexivity.
Defined.

Lemma kmpMatch_total (pat : kmpPattern) (buffer : bytes)
    (index offset : Z) (fuel : nat) :
  kmpWf pat -> 0 <= index -> 0 <= offset <= length pat ->
  live buffer (source pat) index offset ->
  2 * len buffer + length pat < Z.of_nat fuel ->
  exists i' o' ok, kmpMatch fuel pat index offset buffer = Done (i', o', ok).
Proof.
  intros Hwf Hi Ho Hlive Hfuel. unfold kmpMatch.
  destruct (Z.eqb_spec offset (length pat)) as [Heq|Hne].
  - exists index, offset, true. reflexivity.
  - destruct (kmpLoop_ok pat buffer Hwf fuel (index + offset) offset)
      as [i' [j' [ok [E _]]]]; try lia.
    { replace (index + offset - offset) with index by lia. exact Hlive. }
    exists i', j', ok. exact E.
Qed.

(** What [newKmpPattern] followed by [kmpPattern.Match] returns from a
    valid resume point. *)
Lemma kmp_scan (p buffer : bytes) (index offset : Z) (fuel : nat) :
  2 * len p + 2 * len buffer < Z.of_nat fuel ->
  0 <= index -> 0 <= offset <= len p -> index + offset <= len buffer ->
  sub buffer index (index + offset) = sub p 0 offset ->
  exists pat i' o' ok,
    newKmpPattern fuel p = Done pat
    /\ kmpMatch fuel pat index offset buffer = Done (i', o', ok)
    /\ live buffer p i' o'
    /\ index <= i'
    /\ (ok = true -> o' = len p)
    /\ (ok = false -> o' < len p /\ i' + o' = len buffer)
    /\ forall s, index <= s < i' -> ~ agree buffer p s (len buffer).
Proof.
  intros Hfuel Hi Ho Hfit Hres.
  pose proof (len_nonneg p) as Hp. pose proof (len_nonneg buffer) as Hb.
  destruct (newKmpPattern_ok p fuel) as [pat [Hnew _]]; [lia|].
  destruct (newKmpPattern_max _ _ _ Hnew) as [Hmax Hsrc].
  assert (Hlen : length pat = len p) by (destruct Hmax; congruence).
  assert (Hlive : live buffer (source pat) index offset).
  { rewrite Hsrc. apply live_sub. repeat split; auto; lia. }
  destruct (kmpMatch_total pat buffer index offset fuel
              (kmpWfMax_kmpWf _ Hmax) Hi ltac:(lia) Hlive ltac:(lia))
    as [i' [o' [ok Hrun]]].
  exists pat, i', o', ok. split; [exact Hnew|]. split; [exact Hrun|].
  destruct (kmpMatch_leftmost pat buffer index offset fuel i' o' ok Hmax
              ltac:(lia) Hlive Hrun) as [L1 [L2 [L3 [L4 L5]]]].
  rewrite Hsrc, Hlen in *. auto.
Qed.

(** X2. From a valid resume point [kmpPattern.Match] returns, and it
    reports a match exactly when the pattern occurs in the buffer at or
    after the index it was given; the index it then returns is that of the
    leftmost such occurrence. *)
Theorem kmp_match_is_leftmost (p buffer : bytes) (index offset : Z)
    (fuel : nat) :
  2 * len p + 2 * len buffer < Z.of_nat fuel ->
  0 <= index -> 0 <= offset <= len p -> index + offset <= len buffer ->
  sub buffer index (index + offset) = sub p 0 offset ->
  exists pat i' o' ok,
    newKmpPattern fuel p = Done pat
    /\ kmpMatch fuel pat index offset buffer = Done (i', o', ok)
    /\ (ok = true <-> exists s, index <= s /\ occurs buffer p s)
    /\ (ok = true ->
        o' = len p /\ index <= i' /\ occurs buffer p i'
        /\ forall s, index <= s < i' -> ~ occurs buffer p s).
Proof.
  intros Hfuel Hi Ho Hfit Hres.
  destruct (kmp_scan p buffer index offset fuel Hfuel Hi Ho Hfit Hres)
    as [pat [i' [o' [ok [Hnew [Hrun [L1 [L2 [L3 [L4 L5]]]]]]]]]].
  exists pat, i', o', ok. split; [exact Hnew|]. split; [exact Hrun|].
  assert (Hbefore : forall s, index <= s < i' -> ~ occurs buffer p s).
  { intros s Hs Hocc. apply (L5 s Hs).
    apply (occurs_agree buffer [] p s). rewrite app_nil_r. exact Hocc. }
  split; [split|].
  - intros Hok. specialize (L3 Hok). subst o'.
    exists i'. split; [exact L2|]. apply occurs_live. exact L1.
  - intros [s [Hs Hocc]]. destruct ok; [reflexivity|].
    destruct (L4 eq_refl) as [Hlt Hend]. exfalso.
    destruct (Z.lt_ge_cases s i') as [Hlt'|Hge].
    + apply (Hbefore s); [lia | exact Hocc].
    + destruct Hocc as [_ [Hfits _]]. lia.
  - intros Hok. specialize (L3 Hok). subst o'.
    split; [reflexivity|]. split; [exact L2|].
    split; [apply occurs_live; exact L1 | exact Hbefore].
Qed.

Lemma kmp_match_is_leftmost_witness :
  exists pat i' o' ok,
    newKmpPattern 64 (str "epilogue") = Done pat
    /\ kmpMatch 64 pat 0 5 (str "epiloepilogue!") = Done (i', o', ok)
    /\ (ok = true
        <-> exists s, 0 <= s /\ occurs (str "epiloepilogue!") (str "epilogue") s)
    /\ (ok = true ->
        o' = len (str "epilogue") /\ 0 <= i'
        /\ occurs (str "epiloepilogue!") (str "epilogue") i'
        /\ forall s, 0 <= s < i' ->
             ~ occurs (str "epiloepilogue!") (str "epilogue") s).
Proof.
  apply (kmp_match_is_leftmost (str "epilogue") (str "epiloepilogue!") 0 5 64).
  - vm_compute. reflexivity.
  - lia.
  - vm_compute. split; discriminate.
  - vm_compute. discriminate.
  - reflexivity.
Defined.

(** X3. The index [kmpPattern.Match] returns from a valid resume point
    releases no byte of a later match: whatever is appended to the buffer
    afterwards, the pattern occurs at no offset between the index given
    and the index returned. When no match is reported, the prefix kept is
    the whole rest of the buffer. *)
Theorem kmp_release_is_safe (p buffer : bytes) (index offset : Z)
    (fuel : nat) :
  2 * len p + 2 * len buffer < Z.of_nat fuel ->
  0 <= index -> 0 <= offset <= len p -> index + offset <= len buffer ->
  sub buffer index (index + offset) = sub p 0 offset ->
  exists pat i' o' ok,
    newKmpPattern fuel p = Done pat
    /\ kmpMatch fuel pat index offset buffer = Done (i', o', ok)
    /\ (forall more s, index <= s < i' -> ~ occurs (buffer ++ more) p s)
    /\ (ok = false -> i' + o' = len buffer /\ o' < len p).
Proof.
  intros Hfuel Hi Ho Hfit Hres.
  destruct (kmp_scan p buffer index offset fuel Hfuel Hi Ho Hfit Hres)
    as [pat [i' [o' [ok [Hnew [Hrun [L1 [L2 [L3 [L4 L5]]]]]]]]]].
  exists pat, i', o', ok. split; [exact Hnew|]. split; [exact Hrun|].
  split.
  - intros more s Hs Hocc. apply (L5 s Hs).
    apply (occurs_agree buffer more p s). exact Hocc.
  - intros Hok. destruct (L4 Hok). split; assumption.
Qed.

Lemma kmp_release_is_safe_witness :
  exists pat i' o' ok,
    newKmpPattern 64 (str "epilogue") = Done pat
    /\ kmpMatch 64 pat 0 0 (str "xyzepilo") = Done (i', o', ok)
    /\ (forall more s, 0 <= s < i' ->
          ~ occurs (str "xyzepilo" ++ more) (str "epilogue") s)
    /\ (ok = false -> i' + o' = len (str "xyzepilo")
                      /\ o' < len (str "epilogue")).
Proof.
  apply (kmp_release_is_safe (str "epilogue") (str "xyzepilo") 0 0 64).
  - vm_compute. reflexivity.
  - lia.
  - vm_compute. split; discriminate.
  - vm_compute. discriminate.
  - reflexivity.
Defined.

(** ** The reference search *)

Lemma byte_eqb_refl (a : byte) : Byte.eqb a a = true.
Proof. apply byte_dec_lb. reflexivity. Qed.

Lemma isPrefixOf_firstn (p s : bytes) :
  isPrefixOf p s = true <-> firstn (List.length p) s = p.
Proof.
  revert s; induction p as [|a p IH]; intros s; simpl.
  - split; reflexivity.
  - destruct s as [|b s]; [split; discriminate|]. simpl.
    rewrite andb_true_iff, IH. split.
    + intros [H1 H2]. apply byte_dec_bl in H1. subst. f_equal. exact H2.
    + intros H. inversion H; subst. split; [|congruence].
      apply byte_eqb_refl.
Qed.

Lemma isPrefixOf_self_firstn (p : bytes) (n : nat) :
  isPrefixOf (firstn n p) p = true.
Proof.
  revert n; induction p as [|a p IH]; intros [|n]; simpl; auto.
  rewrite IH, byte_eqb_refl. reflexivity.
Qed.

Lemma isPrefixOf_nth (a b : bytes) :
  isPrefixOf a b = true ->
  forall x, (x < List.length a)%nat -> nth_error a x = nth_error b x.
Proof.
  revert b; induction a as [|c a IH]; intros b H x Hx; simpl in *; [lia|].
  destruct b as [|d b]; [discriminate|].
  apply andb_true_iff in H. destruct H as [H1 H2].
  apply byte_dec_bl in H1. subst d.
  destruct x; simpl; [reflexivity|]. apply IH; [exact H2 | lia].
Qed.

Lemma occurs_isPrefixOf (buffer p : bytes) (a : nat) :
  (a <= List.length buffer)%nat ->
  occurs buffer p (Z.of_nat a) <-> isPrefixOf p (skipn a buffer) = true.
Proof.
  intros Ha.
  rewrite isPrefixOf_firstn. unfold occurs, sub, len.
  rewrite Z.add_simpl_l, !Nat2Z.id. split.
  - intros [_ [_ H]]. exact H.
  - intros H. split; [lia|]. split; [|exact H].
    assert (L : List.length (firstn (List.length p) (skipn a buffer))
                = List.length p) by (rewrite H; reflexivity).
    rewrite length_firstn, length_skipn in L. lia.
Qed.

Lemma findFirst_spec (p : bytes) :
  forall s,
    match findFirst p s with
    | Some a => (a <= List.length s)%nat
                /\ isPrefixOf p (skipn a s) = true
                /\ forall b, (b < a)%nat -> isPrefixOf p (skipn b s) = false
    | None => forall b, isPrefixOf p (skipn b s) = false
    end.
Proof.
  induction s as [|c s IH]; simpl.
  - destruct (isPrefixOf p []) eqn:E.
    + split; [simpl; lia|]. split; [exact E | intros b Hb; lia].
    + intros b. rewrite skipn_nil. exact E.
  - destruct (isPrefixOf p (c :: s)) eqn:E.
    + split; [simpl; lia|]. split; [exact E | intros b Hb; lia].
    + destruct (findFirst p s) as [a|]; simpl.
      * destruct IH as [H0 [H1 H2]]. split; [lia|]. split; [exact H1|].
        intros [|b] Hb; [exact E|]. simpl. apply H2. lia.
      * intros [|b]; [exact E|]. simpl. apply IH.
Qed.

Lemma findFirst_leftmost (buffer p : bytes) (i : Z) :
  occurs buffer p i ->
  (forall s, 0 <= s < i -> ~ occurs buffer p s) ->
  findFirst p buffer = Some (Z.to_nat i).
Proof.
  intros Hocc Hleft.
  assert (Hi : 0 <= i <= len buffer).
  { destruct Hocc as [H1 [H2 _]]. pose proof (len_nonneg p). lia. }
  pose proof (findFirst_spec p buffer) as S.
  replace i with (Z.of_nat (Z.to_nat i)) in Hocc by lia.
  apply occurs_isPrefixOf in Hocc; [|unfold len in Hi; lia].
  destruct (findFirst p buffer) as [a|].
  - destruct S as [S0 [S1 S2]]. f_equal.
    destruct (Nat.lt_trichotomy a (Z.to_nat i)) as [Hlt|[Heq|Hgt]].
    + exfalso. apply (Hleft (Z.of_nat a)); [lia|].
      apply occurs_isPrefixOf; [exact S0 | exact S1].
    + exact Heq.
    + rewrite (S2 _ Hgt) in Hocc. discriminate.
  - rewrite S in Hocc. discriminate.
Qed.

Lemma findFirst_none (buffer p : bytes) :
  (forall s, 0 <= s -> ~ occurs buffer p s) ->
  findFirst p buffer = None.
Proof.
  intros Hno. pose proof (findFirst_spec p buffer) as S.
  destruct (findFirst p buffer) as [a|]; [|reflexivity].
  destruct S as [S0 [S1 _]]. exfalso. apply (Hno (Z.of_nat a)); [lia|].
  apply occurs_isPrefixOf; [exact S0 | exact S1].
Qed.

Lemma keepFrom_spec (p : bytes) :
  forall s,
    (keepFrom p s <= List.length s)%nat
    /\ isPrefixOf (skipn (keepFrom p s) s) p = true
    /\ forall b, (b < keepFrom p s)%nat -> isPrefixOf (skipn b s) p = false.
Proof.
  induction s as [|c s IH].
  - simpl. split; [lia|]. split; [reflexivity | intros b Hb; lia].
  - change (keepFrom p (c :: s))
      with (if isPrefixOf (c :: s) p then 0%nat else S (keepFrom p s)).
    destruct (isPrefixOf (c :: s) p) eqn:E.
    + split; [lia|]. split; [exact E | intros b Hb; lia].
    + destruct IH as [H0 [H1 H2]]. split; [simpl; lia|].
      split; [exact H1|].
      intros [|b] Hb; [exact E|]. apply H2. lia.
Qed.

Lemma keepFrom_least (buffer p : bytes) (i j : Z) :
  live buffer p i j -> i + j = len buffer ->
  (forall s, 0 <= s < i -> ~ agree buffer p s (len buffer)) ->
  keepFrom p buffer = Z.to_nat i.
Proof.
  intros Hlive Hend Hleft.
  destruct (keepFrom_spec p buffer) as [K0 [K1 K2]].
  pose proof Hlive as Hl. apply live_sub in Hl.
  destruct Hl as [L0 [L1 [L2 L3]]].
  assert (Hsuf : isPrefixOf (skipn (Z.to_nat i) buffer) p = true).
  { assert (E : skipn (Z.to_nat i) buffer = firstn (Z.to_nat j) p).
    { unfold sub in L3. simpl in L3.
      replace (Z.to_nat (j - 0)) with (Z.to_nat j) in L3 by lia.
      rewrite <- L3.
      rewrite firstn_all2; [reflexivity|].
      rewrite length_skipn. unfold len in Hend. lia. }
    rewrite E. apply isPrefixOf_self_firstn. }
  destruct (Nat.lt_trichotomy (keepFrom p buffer) (Z.to_nat i))
    as [Hlt|[Heq|Hgt]].
  - exfalso. apply (Hleft (Z.of_nat (keepFrom p buffer))); [lia|].
    intros x Hx _ Hn.
    pose proof (isPrefixOf_nth _ _ K1 (Z.to_nat x)) as N.
    rewrite length_skipn in N. unfold len in Hn.
    specialize (N ltac:(lia)). rewrite nth_error_skipn in N.
    unfold at_.
    destruct (Z.ltb_spec (Z.of_nat (keepFrom p buffer) + x) 0); [lia|].
    destruct (Z.ltb_spec x 0); [lia|].
    replace (Z.to_nat (Z.of_nat (keepFrom p buffer) + x))
      with (keepFrom p buffer + Z.to_nat x)%nat by lia.
    rewrite N. reflexivity.
  - exact Heq.
  - rewrite (K2 _ Hgt) in Hsuf. discriminate.
Qed.

(** ** A literal pair labels the stream as the plain search does *)

Lemma labeled_one (st : Z) (raw : bytes) :
  labeled [mkResult st raw] = labelAll st raw.
Proof. unfold labeled, labelAll. simpl. apply app_nil_r. Qed.

Section LiteralReference.

Variable X : Externals.
Variable fuel : nat.
Variables h t : kmpPattern.
Hypothesis Hh : kmpWfMax h.
Hypothesis Ht : kmpWfMax t.
Hypothesis Hh1 : 1 <= length h.
Hypothesis Ht1 : 1 <= length t.

Lemma active_max st : kmpWfMax (active st h t).
Proof. unfold active. destruct (st =? 0); assumption. Qed.

Lemma active_source st :
  source (active st h t) = if st =? 0 then source h else source t.
Proof. unfold active. destruct (st =? 0); reflexivity. Qed.

(** One call from an empty offset labels the buffer as the reference
    does. *)
Lemma one_call_reference :
  forall (r : nat) (st : Z) (buf : bytes),
    (List.length buf < r)%nat ->
    st = 0 \/ st = 2 ->
    2 * len buf + length h + length t < Z.of_nat fuel ->
    exists st' buf' o,
      literalRuns X fuel r h t st 0 buf st' (len buf') buf' o
      /\ refLabel r (source h) (source t) st buf = (labeled o, (st', buf')).
Proof.
  induction r as [|r IH]; intros st buf Hr Hst Hfuel; [lia|].
  pose proof (len_nonneg buf) as Hbuf.
  pose proof (active_max st) as Hmax.
  pose proof (kmpWfMax_kmpWf _ Hmax) as Hwf.
  assert (Hact : 1 <= length (active st h t) <= length h + length t).
  { unfold active. destruct (st =? 0); lia. }
  assert (Hlen : length (active st h t) = len (source (active st h t)))
    by (destruct Hmax; assumption).
  destruct (kmpMatch_ok (active st h t) buf 0 fuel Hwf ltac:(lia)
              (live_nil _ _) ltac:(lia))
    as [i' [j' [ok [E1 [E2 [E3 E4]]]]]].
  destruct (kmpMatch_leftmost (active st h t) buf 0 0 fuel i' j' ok Hmax
              ltac:(lia) (live_nil _ _) E1) as [_ [L2 [_ [_ L5]]]].
  pose proof E2 as Hlive. destruct E2 as [F0 [F1 [F2 _]]].
  cbn [refLabel]. rewrite <- active_source.
  set (p := source (active st h t)) in *.
  destruct ok.
  - specialize (E3 eq_refl). subst j'.
    assert (Hocc : occurs buf p i').
    { apply occurs_live. rewrite <- Hlen. exact Hlive. }
    assert (Hfind : findFirst p buf = Some (Z.to_nat i')).
    { apply findFirst_leftmost; [exact Hocc|].
      intros s Hs Ho. apply (L5 s Hs).
      apply (occurs_agree buf [] p s). rewrite app_nil_r. exact Ho. }
    rewrite Hfind.
    assert (Hrest : skipn (Z.to_nat i' + List.length p) buf
                    = slice_from buf (i' + length (active st h t))).
    { unfold slice_from. f_equal. rewrite Hlen. unfold len. lia. }
    rewrite Hrest.
    destruct (IH (Z.lxor st 2)
                (slice_from buf (i' + length (active st h t))))
      as [st' [buf' [o [G1 G2]]]].
    { unfold slice_from. rewrite length_skipn. unfold len in *. lia. }
    { destruct Hst; subst st; simpl; auto. }
    { rewrite len_slice_from; lia. }
    rewrite G2.
    eexists st', buf', _. split.
    { apply literalRuns_match; eauto; lia. }
    f_equal. rewrite labeled_app, labeled_front by lia.
    change (mkResult (st + 1) ?a :: o) with ([mkResult (st + 1) a] ++ o).
    rewrite labeled_app, labeled_one.
    destruct Hocc as [_ [_ Hsub]]. rewrite Hlen. fold p. rewrite Hsub.
    reflexivity.
  - destruct (E4 eq_refl) as [Hj' Hend].
    assert (Hfind : findFirst p buf = None).
    { apply findFirst_none. intros s Hs Ho.
      destruct (Z.lt_ge_cases s i') as [Hlt|Hge].
      - apply (L5 s ltac:(lia)).
        apply (occurs_agree buf [] p s). rewrite app_nil_r. exact Ho.
      - destruct Ho as [_ [Hfit _]]. lia. }
    rewrite Hfind.
    assert (Hkeep : keepFrom p buf = Z.to_nat i').
    { apply (keepFrom_least buf p i' j' Hlive Hend).
      intros s Hs. apply L5. lia. }
    rewrite Hkeep.
    eexists st, (slice_from buf i'), _. split.
    { rewrite len_slice_from by lia.
      replace (len buf - i') with j' by lia.
      apply literalRuns_nomatch; auto. lia. }
    rewrite labeled_front by lia. reflexivity.
Qed.

End LiteralReference.

(** From the new matcher, feeding chunks labels their concatenation as
    the reference does. *)
Lemma feed_reference (X : Externals) (fuel : nat) (h t : kmpPattern)
    (chunks : list bytes) :
  kmpWfMax h -> kmpWfMax t -> 1 <= length h -> 1 <= length t ->
  2 * len (List.concat chunks) + length h + length t < Z.of_nat fuel ->
  exists st' buf' segs,
    feed X fuel (litMatcher h t STATE_NONE 0 []) chunks
    = Done (litMatcher h t st' (len buf') buf', segs)
    /\ reference (source h) (source t) (List.concat chunks)
       = (labeled segs, (st', buf')).
Proof.
  intros Hmh Hmt Hh1 Ht1 Hfuel.
  pose proof (len_nonneg (List.concat chunks)) as Hc.
  pose proof (kmpWfMax_kmpWf _ Hmh) as Hwh.
  pose proof (kmpWfMax_kmpWf _ Hmt) as Hwt.
  assert (Hres : resumable h t STATE_NONE 0 []).
  { split; [left; reflexivity|]. split; [unfold active; simpl; lia|].
    apply live_nil. }
  destruct (feed_as_one_call X fuel h t Hwh Hwt Hh1 Ht1
              chunks STATE_NONE 0 [] Hres eq_refl)
    as [s1 [f1 [b1 [segs [o1 [F1 [R1 [L1 _]]]]]]]].
  { change (len (@nil byte)) with 0. lia. }
  destruct (one_call_reference X fuel h t Hmh Hmt Hh1 Ht1
              (S (List.length (List.concat chunks))) STATE_NONE
              (List.concat chunks))
    as [s2 [b2 [o2 [R2 Href]]]].
  { lia. } { left; reflexivity. } { lia. }
  simpl in R1.
  destruct (literalRuns_det X fuel h t _ _ _ _ _ _ _ _ _ _ _ _ _ R1 R2)
    as [-> [-> [-> ->]]].
  exists s2, b2, segs. split; [exact F1|].
  unfold reference. rewrite Href, L1. reflexivity.
Qed.

(** What [NewMatcher] builds for a literal pair. *)
Lemma NewMatcher_literal (MC MCP : bytes -> result Regexp) (w : World)
    (c0 c1 : option nat) (hd tl : bytes) (fuel : nat) :
  2 * len hd < Z.of_nat fuel -> 2 * len tl < Z.of_nat fuel ->
  exists h t,
    NewMatcher MC MCP fuel w (literalPair hd tl) c0 c1
    = Done (w, litMatcher h t STATE_NONE 0 [])
    /\ kmpWfMax h /\ kmpWfMax t /\ source h = hd /\ source t = tl
    /\ length h = len hd /\ length t = len tl.
Proof.
  intros Hfh Hft.
  destruct (newKmpPattern_ok hd fuel) as [h [Hnh [Hwh Hsh]]]; [lia|].
  destruct (newKmpPattern_ok tl fuel) as [t [Hnt [Hwt Hst]]]; [lia|].
  destruct (newKmpPattern_max _ _ _ Hnh) as [Hmh _].
  destruct (newKmpPattern_max _ _ _ Hnt) as [Hmt _].
  exists h, t. split.
  { unfold NewMatcher, newPattern, literalPair. simpl.
    rewrite Hnh. simpl. rewrite Hnt. reflexivity. }
  split; [exact Hmh|]. split; [exact Hmt|].
  split; [exact Hsh|]. split; [exact Hst|].
  destruct Hwh as [Hlh _]. destruct Hwt as [Hlt _].
  split; congruence.
Qed.

(** X4. A literal pair with non-empty delimiters labels the stream as the
    reference does: whatever the chunks, the labeled bytes of the
    segments are those the plain search gives on the whole stream (each
    delimiter at its leftmost occurrence after the previous one, the
    bytes between labeled NONE or BODY), and the matcher is left in the
    state the reference reaches, holding the bytes it holds back. *)
Theorem literal_pair_labels (X : Externals) (MC MCP : bytes -> result Regexp)
    (w : World) (c0 c1 : option nat) (hd tl : bytes) (chunks : list bytes)
    (fuel : nat) :
  1 <= len hd -> 1 <= len tl ->
  2 * len (List.concat chunks) + 2 * len hd + 2 * len tl < Z.of_nat fuel ->
  exists m m' segs,
    NewMatcher MC MCP fuel w (literalPair hd tl) c0 c1 = Done (w, m)
    /\ feed X fuel m chunks = Done (m', segs)
    /\ reference hd tl (List.concat chunks)
       = (labeled segs, (state m', buffer m'))
    /\ index m' = 0 /\ offset m' = len (buffer m').
Proof.
  intros Hhd Htl Hfuel.
  pose proof (len_nonneg (List.concat chunks)) as Hc.
  destruct (NewMatcher_literal MC MCP w c0 c1 hd tl fuel)
    as [h [t [Hnew [Hmh [Hmt [Hsh [Hst [Hlh Hlt]]]]]]]]; try lia.
  destruct (feed_reference X fuel h t chunks Hmh Hmt)
    as [st' [buf' [segs [F R]]]]; try lia.
  exists (litMatcher h t STATE_NONE 0 []), (litMatcher h t st' (len buf') buf'),
    segs.
  split; [exact Hnew|]. split; [exact F|]. split.
  - rewrite <- Hsh, <- Hst. exact R.
  - split; reflexivity.
Qed.

Lemma literal_pair_labels_witness :
  exists m m' segs,
    NewMatcher compileTable compileTable 64 initWorld
      (literalPair (str "<%") (str "%>")) None None = Done (initWorld, m)
    /\ feed asciiExternals 64 m [str "a<"; str "%b%"; str ">c<"]
       = Done (m', segs)
    /\ reference (str "<%") (str "%>")
         (List.concat [str "a<"; str "%b%"; str ">c<"])
       = (labeled segs, (state m', buffer m'))
    /\ index m' = 0 /\ offset m' = len (buffer m').
Proof.
  apply (literal_pair_labels asciiExternals compileTable compileTable
           initWorld None None (str "<%") (str "%>")
           [str "a<"; str "%b%"; str ">c<"] 64).
  - vm_compute. discriminate.
  - vm_compute. discriminate.
  - vm_compute. reflexivity.
Defined.

(** ** Delimiters are not cut *)

Section LiteralShapes.

Variable X : Externals.
Variable fuel : nat.
Variables h t : kmpPattern.
Hypothesis Hh : kmpWf h.
Hypothesis Ht : kmpWf t.
Hypothesis Hh1 : 1 <= length h.
Hypothesis Ht1 : 1 <= length t.

Lemma literalRuns_shapes :
  forall (rounds : nat) (st off : Z) (buf : bytes),
    len buf < Z.of_nat rounds ->
    resumable h t st off buf ->
    2 * len buf + length h + length t < Z.of_nat fuel ->
    exists st' off' buf' o,
      literalRuns X fuel rounds h t st off buf st' off' buf' o
      /\ resumable h t st' off' buf'
      /\ len buf' = off'
      /\ Forall (segmentOk (source h) (source t)) o
      /\ len buf' <= len buf.
Proof.
  induction rounds as [|rounds IH];
    intros st off buf Hrounds [Hst [Hoff Hlive]] Hfuel.
  - pose proof (len_nonneg buf). lia.
  - pose proof (len_nonneg buf) as Hbuf.
    pose proof (active_length h t Hh1 Ht1 st) as Hact.
    pose proof (active_wf h t Hh Ht st) as Hwf.
    assert (Hlen : length (active st h t) = len (source (active st h t)))
      by (destruct Hwf; assumption).
    destruct (kmpMatch_ok (active st h t) buf off fuel Hwf Hoff
                Hlive ltac:(lia))
      as [i' [j' [ok [E1 [E2 [E3 E4]]]]]].
    pose proof E2 as Hlive'. destruct E2 as [F0 [F1 [F2 _]]].
    assert (Hfront : Forall (segmentOk (source h) (source t))
                       (if i' =? 0 then []
                        else [mkResult st (slice_to buf i')])).
    { destruct (Z.eqb_spec i' 0); constructor; [|constructor].
      left. simpl. exact Hst. }
    destruct ok.
    + specialize (E3 eq_refl). subst j'.
      destruct (IH (Z.lxor st 2) 0
                  (slice_from buf (i' + length (active st h t))))
        as [st' [off' [buf' [o [G1 [G2 [G3 [G4 G5]]]]]]]].
      { rewrite len_slice_from; lia. }
      { apply (resumable_flip h t Hh1 Ht1); exact Hst. }
      { rewrite len_slice_from; lia. }
      eexists st', off', buf', _. split.
      { apply literalRuns_match; eauto; lia. }
      split; [exact G2|]. split; [exact G3|]. split.
      * apply Forall_app. split; [exact Hfront|].
        constructor; [|exact G4]. right.
        assert (Hraw : sub buf i' (i' + length (active st h t))
                       = source (active st h t)).
        { apply live_sub in Hlive'. destruct Hlive' as [_ [_ [_ Hs]]].
          rewrite Hs, Hlen. apply sub_all. }
        cbn [r_state r_raw]. rewrite Hraw.
        destruct Hst; subst st; [left | right]; split; reflexivity.
      * rewrite len_slice_from in G5; lia.
    + destruct (E4 eq_refl) as [Hj' Hend].
      eexists st, j', (slice_from buf i'), _. split.
      { apply literalRuns_nomatch; auto. lia. }
      split; [split; [exact Hst | split; [lia | apply live_skip; exact Hlive']]|].
      split; [rewrite len_slice_from; lia|]. split; [exact Hfront|].
      rewrite len_slice_from; lia.
Qed.

Lemma feed_shapes :
  forall (chunks : list bytes) (st off : Z) (buf : bytes),
    resumable h t st off buf -> len buf = off ->
    2 * (len buf + len (List.concat chunks)) + length h + length t
      < Z.of_nat fuel ->
    exists st' off' buf' segs,
      feed X fuel (litMatcher h t st off buf) chunks
      = Done (litMatcher h t st' off' buf', segs)
      /\ Forall (segmentOk (source h) (source t)) segs.
Proof.
  unfold feed.
  induction chunks as [|c chunks IH]; intros st off buf Hres Hlen Hfuel.
  - exists st, off, buf, []. split; [reflexivity | constructor].
  - change (List.concat (c :: chunks)) with (c ++ List.concat chunks)
      in Hfuel.
    rewrite len_app in Hfuel.
    pose proof (len_nonneg buf) as Hb. pose proof (len_nonneg c) as Hc.
    pose proof (len_nonneg (List.concat chunks)) as Hcs.
    assert (Hres1 : resumable h t st off (buf ++ c)).
    { destruct Hres as [A [B C]]. split; [exact A|]. split; [exact B|].
      apply live_app; exact C. }
    destruct (literalRuns_shapes fuel st off (buf ++ c))
      as [st1 [off1 [buf1 [o1 [R1 [I1 [I2 [N1 I3]]]]]]]];
      [rewrite len_app; lia | exact Hres1 | rewrite len_app; lia|].
    rewrite len_app in I3.
    destruct (IH st1 off1 buf1 I1 I2 ltac:(lia))
      as [st' [off' [buf' [segs2 [F1 N2]]]]].
    exists st', off', buf', (o1 ++ segs2). split.
    + simpl. rewrite (Match_literalRuns X fuel h t _ _ _ _ _ _ _ _ R1).
      cbn [bind]. rewrite F1. reflexivity.
    + apply Forall_app. split; assumption.
Qed.

End LiteralShapes.

(** X5. For a literal pair with non-empty delimiters a delimiter is never
    cut: whatever the chunks, every segment labeled HEAD is the whole head
    delimiter and every segment labeled TAIL the whole tail delimiter; the
    other segments are labeled NONE or BODY. *)
Theorem literal_delimiters_whole (X : Externals)
    (MC MCP : bytes -> result Regexp) (w : World) (c0 c1 : option nat)
    (hd tl : bytes) (chunks : list bytes) (fuel : nat) :
  1 <= len hd -> 1 <= len tl ->
  2 * len (List.concat chunks) + 2 * len hd + 2 * len tl < Z.of_nat fuel ->
  exists m m' segs,
    NewMatcher MC MCP fuel w (literalPair hd tl) c0 c1 = Done (w, m)
    /\ feed X fuel m chunks = Done (m', segs)
    /\ Forall (segmentOk hd tl) segs.
Proof.
  intros Hhd Htl Hfuel.
  pose proof (len_nonneg (List.concat chunks)) as Hc.
  destruct (NewMatcher_literal MC MCP w c0 c1 hd tl fuel)
    as [h [t [Hnew [Hmh [Hmt [Hsh [Hst [Hlh Hlt]]]]]]]]; try lia.
  assert (Hres : resumable h t STATE_NONE 0 []).
  { split; [left; reflexivity|]. split; [unfold active; simpl; lia|].
    apply live_nil. }
  destruct (feed_shapes X fuel h t (kmpWfMax_kmpWf _ Hmh)
              (kmpWfMax_kmpWf _ Hmt) ltac:(lia) ltac:(lia)
              chunks STATE_NONE 0 [] Hres eq_refl)
    as [st' [off' [buf' [segs [F S]]]]].
  { change (len (@nil byte)) with 0. lia. }
  eexists _, _, segs. split; [exact Hnew|]. split; [exact F|].
  rewrite <- Hsh, <- Hst. exact S.
Qed.

Lemma literal_delimiters_whole_witness :
  exists m m' segs,
    NewMatcher compileTable compileTable 64 initWorld
      (literalPair (str "<%") (str "%>")) None None = Done (initWorld, m)
    /\ feed asciiExternals 64 m [str "a<"; str "%b%"; str ">c<"]
       = Done (m', segs)
    /\ Forall (segmentOk (str "<%") (str "%>")) segs.
Proof.
  apply (literal_delimiters_whole asciiExternals compileTable compileTable
           initWorld None None (str "<%") (str "%>")
           [str "a<"; str "%b%"; str ">c<"] 64).
  - vm_compute. discriminate.
  - vm_compute. discriminate.
  - vm_compute. reflexivity.
Defined.

(** ** Drain, and delimiters that are empty *)

(** X6. [Drain] makes a literal matcher the new matcher again, whatever it
    has been fed: the stream fed afterwards is labeled as the reference
    labels it on its own. *)
Theorem drain_restarts (X : Externals) (MC MCP : bytes -> result Regexp)
    (w : World) (c0 c1 : option nat) (hd tl : bytes)
    (before after : list bytes) (fuel : nat) :
  1 <= len hd -> 1 <= len tl ->
  2 * len (List.concat before) + 2 * len hd + 2 * len tl < Z.of_nat fuel ->
  2 * len (List.concat after) + 2 * len hd + 2 * len tl < Z.of_nat fuel ->
  exists m m1 segs1 m2 segs2,
    NewMatcher MC MCP fuel w (literalPair hd tl) c0 c1 = Done (w, m)
    /\ feed X fuel m before = Done (m1, segs1)
    /\ Drain m1 = (m, buffer m1)
    /\ feed X fuel (fst (Drain m1)) after = Done (m2, segs2)
    /\ reference hd tl (List.concat after)
       = (labeled segs2, (state m2, buffer m2)).
Proof.
  intros Hhd Htl Hf1 Hf2.
  pose proof (len_nonneg (List.concat before)) as Hb.
  pose proof (len_nonneg (List.concat after)) as Ha.
  destruct (NewMatcher_literal MC MCP w c0 c1 hd tl fuel)
    as [h [t [Hnew [Hmh [Hmt [Hsh [Hst [Hlh Hlt]]]]]]]]; try lia.
  destruct (feed_reference X fuel h t before Hmh Hmt)
    as [st1 [buf1 [segs1 [F1 _]]]]; try lia.
  destruct (feed_reference X fuel h t after Hmh Hmt)
    as [st2 [buf2 [segs2 [F2 R2]]]]; try lia.
  eexists _, _, segs1, _, segs2.
  split; [exact Hnew|]. split; [exact F1|].
  split; [reflexivity|]. split; [exact F2|].
  rewrite <- Hsh, <- Hst. exact R2.
Qed.

Lemma drain_restarts_witness :
  exists m m1 segs1 m2 segs2,
    NewMatcher compileTable compileTable 64 initWorld
      (literalPair (str "<%") (str "%>")) None None = Done (initWorld, m)
    /\ feed asciiExternals 64 m [str "a<%b"; str "%"] = Done (m1, segs1)
    /\ Drain m1 = (m, buffer m1)
    /\ feed asciiExternals 64 (fst (Drain m1)) [str ">c<"; str "%d"]
       = Done (m2, segs2)
    /\ reference (str "<%") (str "%>") (List.concat [str ">c<"; str "%d"])
       = (labeled segs2, (state m2, buffer m2)).
Proof.
  apply (drain_restarts asciiExternals compileTable compileTable
           initWorld None None (str "<%") (str "%>")
           [str "a<%b"; str "%"] [str ">c<"; str "%d"] 64).
  - vm_compute. discriminate.
  - vm_compute. discriminate.
  - vm_compute. reflexivity.
  - vm_compute. reflexivity.
Defined.

(** With an empty pattern the scan is not entered: the match is where
    the caller stands. *)
Lemma encore_empty (X : Externals) (fuel : nat) :
  forall (rounds : nat) (st : Z) (buf : bytes) (out : list textResult),
    st = 0 \/ st = 2 ->
    encore X fuel rounds consumeAll
      (litMatcher (mkKmp [] 0 []) (mkKmp [] 0 []) st 0 buf) out = Timeout.
Proof.
  induction rounds as [|rounds IH]; intros st buf out Hst; [reflexivity|].
  pose proof (len_nonneg buf) as Hb.
  unfold litMatcher. cbn [encore].
  rewrite getPattern_lit by exact Hst.
  cbn [bind pattern_Match state index offset buffer].
  assert (Hk : kmpMatch fuel (active st (mkKmp [] 0 []) (mkKmp [] 0 [])) 0 0
                 buf = Done (0, 0, true)).
  { unfold active. destruct (st =? 0); reflexivity. }
  rewrite Hk. cbn [bind]. rewrite setPattern_lit by exact Hst.
  cbn [state index offset buffer patterns].
  change (0 <? 0) with false.
  cbn [bind negb state index offset buffer patterns].
  rewrite (Buffer_Next_ok buf 0) by lia. unfold yield.
  change (consumeAll _) with false.
  cbn [bind negb state index offset buffer patterns].
  change (slice_from buf 0) with buf.
  apply (IH (Z.lxor st 2) buf).
  destruct Hst; subst st; simpl; auto.
Qed.

(** X7. With both delimiters empty a call read to the end never returns:
    the head is found at once without a byte being taken, then the tail,
    then the head again.  Whatever the fuel, the run of [Match] is not
    over. *)
Theorem empty_delimiters_never_return (X : Externals)
    (MC MCP : bytes -> result Regexp) (w : World) (c0 c1 : option nat)
    (fuel : nat) (s : bytes) :
  (0 < fuel)%nat ->
  exists m,
    NewMatcher MC MCP fuel w (literalPair [] []) c0 c1 = Done (w, m)
    /\ forall fuel', Match X fuel' consumeAll m s = Timeout.
Proof.
  intros Hfuel. destruct fuel as [|fuel]; [lia|].
  exists (litMatcher (mkKmp [] 0 []) (mkKmp [] 0 []) STATE_NONE 0 []).
  split; [reflexivity|].
  intros fuel'. unfold Match. apply (encore_empty X fuel' fuel' 0).
  left; reflexivity.
Qed.

Lemma empty_delimiters_never_return_witness :
  exists m,
    NewMatcher compileTable compileTable 8 initWorld (literalPair [] [])
      None None = Done (initWorld, m)
    /\ forall fuel', Match asciiExternals fuel' consumeAll m (str "abc")
                     = Timeout.
Proof.
  apply (empty_delimiters_never_return asciiExternals compileTable
           compileTable initWorld None None 8 (str "abc")).
  lia.
Defined.

(** ** The life of a literal matcher *)

(** X8. A literal matcher takes no machine and gives none back: for
    non-empty delimiters and whatever the chunks, [NewMatcher], the
    calls of [Match] and [Close] leave the pools as they were.  [Close]
    after [Drain] reports no error; without [Drain] it reports
    [ErrBufferNotDrained] exactly when bytes are held back. *)
Theorem literal_matcher_closes (X : Externals)
    (MC MCP : bytes -> result Regexp) (w : World)
    (c0 c1 k0 k1 : option nat) (hd tl : bytes) (chunks : list bytes)
    (fuel : nat) :
  1 <= len hd -> 1 <= len tl ->
  2 * len (List.concat chunks) + 2 * len hd + 2 * len tl < Z.of_nat fuel ->
  exists m m' segs,
    NewMatcher MC MCP fuel w (literalPair hd tl) c0 c1 = Done (w, m)
    /\ feed X fuel m chunks = Done (m', segs)
    /\ Close w (fst (Drain m')) k0 k1 = Done (w, None)
    /\ Close w m' k0 k1
       = Done (w, if 0 <? len (buffer m') then Some ErrBufferNotDrained
                  else None).
Proof.
  intros Hhd Htl Hfuel.
  pose proof (len_nonneg (List.concat chunks)) as Hc.
  destruct (NewMatcher_literal MC MCP w c0 c1 hd tl fuel)
    as [h [t [Hnew [Hmh [Hmt [Hsh [Hst [Hlh Hlt]]]]]]]]; try lia.
  destruct (feed_reference X fuel h t chunks Hmh Hmt)
    as [st' [buf' [segs [F _]]]]; try lia.
  exists (litMatcher h t STATE_NONE 0 []),
    (litMatcher h t st' (len buf') buf'), segs.
  split; [exact Hnew|]. split; [exact F|].
  split; [reflexivity|].
  unfold Close, litMatcher. cbn [patterns fst snd pattern_Clear bind buffer].
  destruct (0 <? len buf'); reflexivity.
Qed.

Lemma literal_matcher_closes_witness :
  exists m m' segs,
    NewMatcher compileTable compileTable 64 initWorld
      (literalPair (str "<%") (str "%>")) None None = Done (initWorld, m)
    /\ feed asciiExternals 64 m [str "a<"; str "%b%"; str ">c<"]
       = Done (m', segs)
    /\ Close initWorld (fst (Drain m')) None None = Done (initWorld, None)
    /\ Close initWorld m' None None
       = Done (initWorld,
               if 0 <? len (buffer m') then Some ErrBufferNotDrained
               else None).
Proof.
  apply (literal_matcher_closes asciiExternals compileTable compileTable
           initWorld None None None None (str "<%") (str "%>")
           [str "a<"; str "%b%"; str ">c<"] 64).
  - vm_compute. discriminate.
  - vm_compute. discriminate.
  - vm_compute. reflexivity.
Defined.

(** ** Pairs and their options *)

Lemma NewPair_snoc (h t : bytes) (opts : list pairOption) (o : pairOption) :
  NewPair h t (opts ++ [o]) = o (NewPair h t opts).
Proof. unfold NewPair. rewrite fold_left_app. reflexivity. Qed.

Lemma NewPair_delims (h t : bytes) (opts : list pairOption) :
  Forall packageOption opts ->
  head (NewPair h t opts) = h /\ tail (NewPair h t opts) = t.
Proof.
  induction opts as [|o opts IH] using rev_ind; intros H.
  - split; reflexivity.
  - apply Forall_app in H. destruct H as [H1 H2].
    apply Forall_inv in H2. rewrite NewPair_snoc.
    destruct (IH H1) as [A B]. destruct H2; simpl; auto.
Qed.

(** X9. The options change the two modes and nothing else: the delimiters
    are those given to [NewPair]; the option applied last decides the
    mode of its side and leaves the other side as the options before it
    made it; and an option given no mode sets the mode to none, so the
    delimiter is matched literally. *)
Theorem NewPair_options (h t : bytes) (opts : list pairOption)
    (mode : list Z) :
  Forall packageOption opts ->
  head (NewPair h t opts) = h /\ tail (NewPair h t opts) = t
  /\ NewPair h t (opts ++ [WithRegexHead mode])
     = mkPair h (modeOf mode) t (tailRegex (NewPair h t opts))
  /\ NewPair h t (opts ++ [WithRegexTail mode])
     = mkPair h (headRegex (NewPair h t opts)) t (modeOf mode)
  /\ NewPair h t [WithRegexHead []; WithRegexTail []] = literalPair h t.
Proof.
  intros H. destruct (NewPair_delims h t opts H) as [A B].
  split; [exact A|]. split; [exact B|].
  rewrite !NewPair_snoc. unfold WithRegexHead, WithRegexTail.
  cbv zeta. rewrite A, B. auto.
Qed.

Lemma NewPair_options_witness :
  head (NewPair (str "<%") (str "%>") [WithRegexHead [REGEX_MODE_PERL]])
    = str "<%"
  /\ tail (NewPair (str "<%") (str "%>") [WithRegexHead [REGEX_MODE_PERL]])
     = str "%>"
  /\ NewPair (str "<%") (str "%>")
       ([WithRegexHead [REGEX_MODE_PERL]] ++ [WithRegexHead []])
     = mkPair (str "<%") (modeOf []) (str "%>")
         (tailRegex (NewPair (str "<%") (str "%>")
                       [WithRegexHead [REGEX_MODE_PERL]]))
  /\ NewPair (str "<%") (str "%>")
       ([WithRegexHead [REGEX_MODE_PERL]] ++ [WithRegexTail []])
     = mkPair (str "<%")
         (headRegex (NewPair (str "<%") (str "%>")
                       [WithRegexHead [REGEX_MODE_PERL]]))
         (str "%>") (modeOf [])
  /\ NewPair (str "<%") (str "%>") [WithRegexHead []; WithRegexTail []]
     = literalPair (str "<%") (str "%>").
Proof.
  apply (NewPair_options (str "<%") (str "%>")
           [WithRegexHead [REGEX_MODE_PERL]] []).
  constructor; [apply optHead | constructor].
Defined.

(** X10. A mode other than none, Perl and POSIX makes [NewMatcher] panic:
    [newRegexPattern] reaches its [default] case.  The head is built
    first, so with such a head mode nothing is taken out of the pools. *)
Theorem NewMatcher_unknown_mode (MC MCP : bytes -> result Regexp)
    (fuel : nat) (w : World) (pair : Pair) (c0 c1 : option nat) :
  headRegex pair <> _REGEX_MODE_NONE ->
  headRegex pair <> REGEX_MODE_PERL ->
  headRegex pair <> REGEX_MODE_POSIX ->
  NewMatcher MC MCP fuel w pair c0 c1 = Panic.
Proof.
  unfold _REGEX_MODE_NONE, REGEX_MODE_PERL, REGEX_MODE_POSIX.
  intros H0 H1 H2. unfold NewMatcher, newPattern, newRegexPattern.
  destruct (Z.eqb_spec (headRegex pair) 0); [contradiction|].
  unfold REGEX_MODE_PERL, REGEX_MODE_POSIX.
  destruct (Z.eqb_spec (headRegex pair) 1); [contradiction|].
  destruct (Z.eqb_spec (headRegex pair) 2); [contradiction|].
  reflexivity.
Qed.

Lemma NewMatcher_unknown_mode_witness :
  NewMatcher compileTable compileTable 32 initWorld
    (NewPair (str "a") (str "t") [WithRegexHead [3]]) None None = Panic.
Proof.
  apply NewMatcher_unknown_mode; vm_compute; discriminate.
Defined.

(** ** lazyFlag: the two runes and the conditions *)

Lemma toInt32_id (r : Z) : isRune r -> toInt32 r = r.
Proof.
  unfold isRune, toInt32. intros H.
  destruct (Z.lt_ge_cases r 0) as [Hneg|Hpos].
  - replace (r mod 2 ^ 32) with (r + 2 ^ 32).
    + destruct (Z.ltb_spec (r + 2 ^ 32) (2 ^ 31)); lia.
    + apply Z.mod_unique with (q := -1); lia.
  - rewrite Z.mod_small by lia.
    destruct (Z.ltb_spec r (2 ^ 31)); lia.
Qed.

Lemma toInt32_mod (r : Z) : toInt32 (r mod 2 ^ 32) = toInt32 r.
Proof. unfold toInt32. rewrite Z.mod_mod by lia. reflexivity. Qed.

Lemma newLazyFlag_sum (r1 r2 : Z) :
  newLazyFlag r1 r2 = (r1 mod 2 ^ 32) * 2 ^ 32 + r2 mod 2 ^ 32.
Proof.
  unfold newLazyFlag.
  assert (Hb : 0 <= r2 mod 2 ^ 32 < 2 ^ 32) by (apply Z.mod_pos_bound; lia).
  assert (Ha : Z.shiftl (r1 mod 2 ^ 64) 32 mod 2 ^ 64
               = Z.shiftl (r1 mod 2 ^ 32) 32).
  { rewrite !Z.shiftl_mul_pow2 by lia.
    change (2 ^ 64) with (2 ^ 32 * 2 ^ 32).
    rewrite Z.mul_mod_distr_r by lia.
    rewrite Z.rem_mul_r by lia.
    f_equal.
    rewrite Z.mul_comm, Z.mod_add by lia.
    apply Z.mod_mod. lia. }
  rewrite Ha.
  rewrite <- Z.lxor_lor.
  - rewrite <- Z.add_nocarry_lxor.
    + rewrite Z.shiftl_mul_pow2 by lia. reflexivity.
    + apply Z.bits_inj'. intros n Hn. rewrite Z.land_spec, Z.bits_0.
      destruct (Z.lt_ge_cases n 32).
      * rewrite Z.shiftl_spec_low by lia. reflexivity.
      * rewrite (Z.bits_above_log2 (r2 mod 2 ^ 32) n); [apply andb_false_r| lia |].
        destruct (Z.eq_dec (r2 mod 2 ^ 32) 0) as [->|Hnz]; [simpl; lia|].
        apply Z.log2_lt_pow2; [lia|].
        apply Z.lt_le_trans with (m := 2 ^ 32); [lia|].
        apply Z.pow_le_mono_r; lia.
  - apply Z.bits_inj'. intros n Hn. rewrite Z.land_spec, Z.bits_0.
    destruct (Z.lt_ge_cases n 32).
    + rewrite Z.shiftl_spec_low by lia. reflexivity.
    + rewrite (Z.bits_above_log2 (r2 mod 2 ^ 32) n); [apply andb_false_r| lia |].
      destruct (Z.eq_dec (r2 mod 2 ^ 32) 0) as [->|Hnz]; [simpl; lia|].
      apply Z.log2_lt_pow2; [lia|].
      apply Z.lt_le_trans with (m := 2 ^ 32); [lia|].
      apply Z.pow_le_mono_r; lia.
Qed.

Lemma lazyFlag_runes (r1 r2 : Z) :
  isRune r1 -> isRune r2 ->
  toInt32 (Z.shiftr (newLazyFlag r1 r2) 32) = r1
  /\ toInt32 (newLazyFlag r1 r2) = r2.
Proof.
  intros H1 H2. rewrite newLazyFlag_sum.
  assert (Ha : 0 <= r1 mod 2 ^ 32 < 2 ^ 32) by (apply Z.mod_pos_bound; lia).
  assert (Hb : 0 <= r2 mod 2 ^ 32 < 2 ^ 32) by (apply Z.mod_pos_bound; lia).
  split.
  - rewrite Z.shiftr_div_pow2 by lia.
    rewrite Z.div_add_l by lia.
    rewrite (Z.div_small (r2 mod 2 ^ 32)) by lia.
    rewrite Z.add_0_r, toInt32_mod. apply toInt32_id; exact H1.
  - rewrite <- toInt32_mod.
    rewrite Z.add_comm, Z.mod_add by lia.
    rewrite Z.mod_mod by lia.
    rewrite toInt32_mod. apply toInt32_id; exact H2.
Qed.

Lemma range_eq (f g : Z -> bool) (n : nat) :
  forallb (fun op => Bool.eqb (f op) (g op)) (map Z.of_nat (seq 0 n)) = true ->
  forall op, 0 <= op < Z.of_nat n -> f op = g op.
Proof.
  intros H op Hop. rewrite forallb_forall in H.
  apply eqb_prop. apply H. apply in_map_iff.
  exists (Z.to_nat op). split; [lia|]. apply in_seq. lia.
Qed.

Lemma lazyFlag_match_spec (X : Externals) (r1 r2 op : Z) :
  isRune r1 -> isRune r2 -> 0 <= op < 256 ->
  lazyFlag_match X (newLazyFlag r1 r2) op = contextAllows X r1 r2 op.
Proof.
  intros H1 H2 Hop.
  destruct (lazyFlag_runes r1 r2 H1 H2) as [E1 E2].
  unfold lazyFlag_match, contextAllows. cbv zeta. rewrite E1, E2.
  rewrite !(Z.ltb_antisym 0).
  generalize (r1 =? 10) (0 <=? r1) (r2 =? 10) (0 <=? r2)
             (Bool.eqb (IsWordChar X r1) (IsWordChar X r2)).
  intros b1 b2 b3 b4 b5. revert op Hop.
  change 256 with (Z.of_nat 256).
  destruct b1, b2, b3, b4, b5; apply range_eq; vm_compute; reflexivity.
Qed.

(** X11. [newLazyFlag] loses nothing: from the flag of two runes,
    [lazyFlag.match] reads back the first as [rune(f >> 32)] and the
    second as [rune(f)], negative runes (the ends of the text) included. *)
Theorem lazyFlag_keeps_runes (r1 r2 : Z) :
  isRune r1 -> isRune r2 ->
  toInt32 (Z.shiftr (newLazyFlag r1 r2) 32) = r1
  /\ toInt32 (newLazyFlag r1 r2) = r2.
Proof. apply lazyFlag_runes. Qed.

Lemma lazyFlag_keeps_runes_witness :
  toInt32 (Z.shiftr (newLazyFlag (-1) 97) 32) = -1
  /\ toInt32 (newLazyFlag (-1) 97) = 97.
Proof.
  apply (lazyFlag_keeps_runes (-1) 97); unfold isRune; lia.
Defined.

(** X12. [lazyFlag.match] holds exactly when every condition asked for is
    met by the two runes: begin-of-line after a newline or at the
    beginning, end-of-line before a newline or at the end, begin- and
    end-of-text at the beginning and the end, a word boundary between a
    word character and another one, no word boundary otherwise; and no
    bit outside these six is set. *)
Theorem lazyFlag_match_decides (X : Externals) (r1 r2 op : Z) :
  isRune r1 -> isRune r2 -> 0 <= op < 256 ->
  lazyFlag_match X (newLazyFlag r1 r2) op = contextAllows X r1 r2 op.
Proof. apply lazyFlag_match_spec. Qed.

Lemma lazyFlag_match_decides_witness :
  lazyFlag_match asciiExternals (newLazyFlag 32 97)
    (Z.lor EmptyWordBoundary EmptyBeginLine)
  = contextAllows asciiExternals 32 97
      (Z.lor EmptyWordBoundary EmptyBeginLine).
Proof.
  apply (lazyFlag_match_decides asciiExternals 32 97
           (Z.lor EmptyWordBoundary EmptyBeginLine));
    unfold isRune; try lia.
  vm_compute; split; [discriminate | reflexivity].
Defined.

(** ** The context of a position *)

Lemma byteRune_range (c : byte) : 0 <= byteRune c < 256.
Proof.
  unfold byteRune. pose proof (Byte.to_N_bounded c). lia.
Qed.

Lemma slice_from_at {A : Type} (l : list A) (pos : Z) (c : A) :
  at_ l pos = Done c -> exists rest, slice_from l pos = c :: rest.
Proof.
  intros H. apply at_Done in H. destruct H as [_ H].
  unfold slice_from. revert H. generalize (Z.to_nat pos). clear pos.
  induction l as [|a l IH]; intros [|n] H; simpl in *; try discriminate.
  - inversion H; subst. eauto.
  - apply IH; exact H.
Qed.

Lemma slice_to_at {A : Type} (l : list A) (pos : Z) (c : A) :
  at_ l (pos - 1) = Done c -> exists front, slice_to l pos = front ++ [c].
Proof.
  intros H. pose proof (at_Done_range _ _ _ H) as Hr.
  apply at_Done in H. destruct H as [_ H].
  unfold slice_to. replace (Z.to_nat pos) with (S (Z.to_nat (pos - 1))) by lia.
  revert H. generalize (Z.to_nat (pos - 1)). clear.
  induction l as [|a l IH]; intros [|n] H; simpl in *; try discriminate.
  - inversion H; subst. exists []. reflexivity.
  - destruct (IH n H) as [front Hf]. exists (a :: front). simpl.
    rewrite <- Hf. reflexivity.
Qed.

Section Context.

Variable X : Externals.
Hypothesis HX : decodersOk X.

(** The two runes [inputBytes.context] puts in the flag. *)
Lemma input_context_runes (i : bytes) (pos : Z) (f : Z) :
  0 <= pos <= len i ->
  input_context X i pos = Done f ->
  exists r1 r2,
    f = newLazyFlag r1 r2 /\ isRune r1 /\ isRune r2
    /\ (pos = 0 -> r1 = endOfText)
    /\ (0 < pos -> 0 <= r1
                   /\ (r1 = 10 <-> exists c, at_ i (pos - 1) = Done c
                                             /\ byteRune c = 10))
    /\ (pos = len i -> r2 = endOfText)
    /\ (pos < len i -> 0 <= r2
                       /\ (r2 = 10 <-> exists c, at_ i pos = Done c
                                                 /\ byteRune c = 10)).
Proof.
  intros Hpos H. destruct HX as [HD HL]. unfold input_context in H.
  unfold RuneSelf, endOfText in *.
  apply bind_Done in H. destruct H as [r1 [H1 H]].
  apply bind_Done in H. destruct H as [r2 [H2 H]].
  inversion H; subst f. clear H. exists r1, r2.
  split; [reflexivity|].
  assert (A1 : isRune r1
               /\ (pos = 0 -> r1 = -1)
               /\ (0 < pos -> 0 <= r1
                    /\ (r1 = 10 <-> exists c, at_ i (pos - 1) = Done c
                                              /\ byteRune c = 10))).
  { destruct (Z.leb_spec 0 (pos - 1)); cbn [andb] in H1.
    - destruct (Z.ltb_spec (pos - 1) (len i)); [|lia].
      apply bind_Done in H1. destruct H1 as [c [Hc H1]].
      pose proof (byteRune_range c) as Hb.
      destruct (Z.leb_spec 128 (byteRune c)).
      + inversion H1; subst r1. clear H1.
        destruct (slice_to_at _ _ _ Hc) as [front Hf]. rewrite Hf.
        pose proof (HL front c ltac:(lia)) as Hr.
        split; [unfold isRune; lia|]. split; [lia|]. intros _.
        split; [lia|]. split; [lia|].
        intros [c' [Hc' E]]. rewrite Hc in Hc'. inversion Hc'; subst. lia.
      + inversion H1; subst r1. clear H1.
        split; [unfold isRune; lia|]. split; [lia|]. intros _.
        split; [lia|]. split.
        * intros E. exists c. auto.
        * intros [c' [Hc' E]]. rewrite Hc in Hc'. inversion Hc'; subst.
          exact E.
    - inversion H1; subst r1. split; [unfold isRune; lia|].
      split; [reflexivity | lia]. }
  assert (A2 : isRune r2
               /\ (pos = len i -> r2 = -1)
               /\ (pos < len i -> 0 <= r2
                    /\ (r2 = 10 <-> exists c, at_ i pos = Done c
                                              /\ byteRune c = 10))).
  { destruct (Z.leb_spec 0 pos); [|lia]. cbn [andb] in H2.
    destruct (Z.ltb_spec pos (len i)).
    - apply bind_Done in H2. destruct H2 as [c [Hc H2]].
      pose proof (byteRune_range c) as Hb.
      destruct (Z.leb_spec 128 (byteRune c)).
      + inversion H2; subst r2. clear H2.
        destruct (slice_from_at _ _ _ Hc) as [rest Hf]. rewrite Hf.
        pose proof (HD c rest ltac:(lia)) as Hr.
        split; [unfold isRune; lia|]. split; [lia|]. intros _.
        split; [lia|]. split; [lia|].
        intros [c' [Hc' E]]. rewrite Hc in Hc'. inversion Hc'; subst. lia.
      + inversion H2; subst r2. clear H2.
        split; [unfold isRune; lia|]. split; [lia|]. intros _.
        split; [lia|]. split.
        * intros E. exists c. auto.
        * intros [c' [Hc' E]]. rewrite Hc in Hc'. inversion Hc'; subst.
          exact E.
    - inversion H2; subst r2. split; [unfold isRune; lia|].
      split; [reflexivity | lia]. }
  destruct A1 as [A11 [A12 A13]]. destruct A2 as [A21 [A22 A23]].
  split; [exact A11|]. split; [exact A21|]. split; [exact A12|].
  split; [exact A13|]. split; [exact A22 | exact A23].
Qed.

End Context.

Lemma contextAllows_BeginLine X r1 r2 :
  contextAllows X r1 r2 EmptyBeginLine = ((r1 =? 10) || (r1 <? 0)).
Proof.
  unfold contextAllows, EmptyBeginLine.
  change (Z.testbit 1 0) with true. change (Z.testbit 1 1) with false.
  change (Z.testbit 1 2) with false. change (Z.testbit 1 3) with false.
  change (Z.testbit 1 4) with false. change (Z.testbit 1 5) with false.
  change (1 <? 64) with true. cbn [implb andb].
  rewrite !andb_true_r. reflexivity.
Qed.

Lemma contextAllows_EndLine X r1 r2 :
  contextAllows X r1 r2 EmptyEndLine = ((r2 =? 10) || (r2 <? 0)).
Proof.
  unfold contextAllows, EmptyEndLine.
  change (Z.testbit 2 0) with false. change (Z.testbit 2 1) with true.
  change (Z.testbit 2 2) with false. change (Z.testbit 2 3) with false.
  change (Z.testbit 2 4) with false. change (Z.testbit 2 5) with false.
  change (2 <? 64) with true. cbn [implb andb].
  rewrite !andb_true_r. reflexivity.
Qed.

Lemma contextAllows_BeginText X r1 r2 :
  contextAllows X r1 r2 EmptyBeginText = (r1 <? 0).
Proof.
  unfold contextAllows, EmptyBeginText.
  change (Z.testbit 4 0) with false. change (Z.testbit 4 1) with false.
  change (Z.testbit 4 2) with true. change (Z.testbit 4 3) with false.
  change (Z.testbit 4 4) with false. change (Z.testbit 4 5) with false.
  change (4 <? 64) with true. cbn [implb andb].
  rewrite !andb_true_r. reflexivity.
Qed.

Lemma contextAllows_EndText X r1 r2 :
  contextAllows X r1 r2 EmptyEndText = (r2 <? 0).
Proof.
  unfold contextAllows, EmptyEndText.
  change (Z.testbit 8 0) with false. change (Z.testbit 8 1) with false.
  change (Z.testbit 8 2) with false. change (Z.testbit 8 3) with true.
  change (Z.testbit 8 4) with false. change (Z.testbit 8 5) with false.
  change (8 <? 64) with true. cbn [implb andb].
  rewrite !andb_true_r. reflexivity.
Qed.

(** X13. The flag [inputBytes.context] builds at a position of the buffer
    lets the text anchors through at the ends of the buffer only, and the
    line anchors there and next to a newline: begin-of-text holds exactly
    at offset 0, end-of-text exactly at the end, begin-of-line at offset 0
    or after a newline byte, end-of-line at the end or before one. *)
Theorem context_anchors (X : Externals) (i : bytes) (pos f : Z) :
  decodersOk X ->
  0 <= pos <= len i ->
  input_context X i pos = Done f ->
  (lazyFlag_match X f EmptyBeginText = true <-> pos = 0)
  /\ (lazyFlag_match X f EmptyEndText = true <-> pos = len i)
  /\ (lazyFlag_match X f EmptyBeginLine = true
      <-> pos = 0 \/ exists c, at_ i (pos - 1) = Done c /\ byteRune c = 10)
  /\ (lazyFlag_match X f EmptyEndLine = true
      <-> pos = len i \/ exists c, at_ i pos = Done c /\ byteRune c = 10).
Proof.
  intros HX Hpos H.
  destruct (input_context_runes X HX i pos f Hpos H)
    as [r1 [r2 [-> [R1 [R2 [B0 [B1 [E0 E1]]]]]]]].
  unfold endOfText in *.
  rewrite !lazyFlag_match_spec by (auto; vm_compute; split; congruence).
  rewrite contextAllows_BeginText, contextAllows_EndText,
    contextAllows_BeginLine, contextAllows_EndLine.
  split; [|split; [|split]].
  - rewrite Z.ltb_lt. split; intros Hx.
    + destruct (Z.eq_dec pos 0); [assumption|].
      destruct (B1 ltac:(lia)). lia.
    + rewrite (B0 Hx). lia.
  - rewrite Z.ltb_lt. split; intros Hx.
    + destruct (Z.eq_dec pos (len i)); [assumption|].
      destruct (E1 ltac:(lia)). lia.
    + rewrite (E0 Hx). lia.
  - rewrite orb_true_iff, Z.eqb_eq, Z.ltb_lt. split.
    + intros [Hx|Hx].
      * destruct (Z.eq_dec pos 0); [left; assumption|].
        right. apply (B1 ltac:(lia)). exact Hx.
      * destruct (Z.eq_dec pos 0); [left; assumption|].
        destruct (B1 ltac:(lia)). lia.
    + intros [Hx|Hx].
      * right. rewrite (B0 Hx). lia.
      * destruct (Z.eq_dec pos 0) as [Hz|Hz].
        -- right. rewrite (B0 Hz). lia.
        -- left. apply (B1 ltac:(lia)). exact Hx.
  - rewrite orb_true_iff, Z.eqb_eq, Z.ltb_lt. split.
    + intros [Hx|Hx].
      * destruct (Z.eq_dec pos (len i)); [left; assumption|].
        right. apply (E1 ltac:(lia)). exact Hx.
      * destruct (Z.eq_dec pos (len i)); [left; assumption|].
        destruct (E1 ltac:(lia)). lia.
    + intros [Hx|Hx].
      * right. rewrite (E0 Hx). lia.
      * destruct (Z.eq_dec pos (len i)) as [Hz|Hz].
        -- right. rewrite (E0 Hz). lia.
        -- left. apply (E1 ltac:(lia)). exact Hx.
Qed.

Lemma context_anchors_witness :
  (lazyFlag_match asciiExternals
     (fromDone 0 (input_context asciiExternals (str "ab") 1)) EmptyBeginText
   = true <-> 1 = 0)
  /\ (lazyFlag_match asciiExternals
        (fromDone 0 (input_context asciiExternals (str "ab") 1)) EmptyEndText
      = true <-> 1 = len (str "ab"))
  /\ (lazyFlag_match asciiExternals
        (fromDone 0 (input_context asciiExternals (str "ab") 1))
        EmptyBeginLine = true
      <-> 1 = 0 \/ exists c, at_ (str "ab") (1 - 1) = Done c
                             /\ byteRune c = 10)
  /\ (lazyFlag_match asciiExternals
        (fromDone 0 (input_context asciiExternals (str "ab") 1))
        EmptyEndLine = true
      <-> 1 = len (str "ab") \/ exists c, at_ (str "ab") 1 = Done c
                                          /\ byteRune c = 10).
Proof.
  apply (context_anchors asciiExternals (str "ab") 1).
  - split; intros; unfold RuneSelf; simpl; lia.
  - vm_compute. split; discriminate.
  - vm_compute. reflexivity.
Defined.

(** ** The prefix scan of the machine *)

Lemma matchPrefixLoop_ok (prefix inner : bytes) :
  forall (fuel : nat) (i0 i1 : Z),
    live inner prefix (i1 - i0) i0 ->
    len inner - i1 < Z.of_nat fuel ->
    exists index' offset',
      matchPrefixLoop fuel prefix inner i0 i1 = Done (index', offset')
      /\ live inner prefix index' offset'
      /\ i1 - i0 <= index'
      /\ (offset' = len prefix \/ index' + offset' = len inner).
Proof.
  induction fuel as [|fuel IH]; intros i0 i1 [H0 [H1 [H2 H3]]] Hfuel.
  - lia.
  - simpl. destruct (Z.ltb_spec i0 (len prefix)) as [Hp|Hp];
      [destruct (Z.ltb_spec i1 (len inner)) as [Hi|Hi]|]; cbn [andb].
    + destruct (at_range prefix i0) as [a Ha]; [lia|].
      destruct (at_range inner i1) as [b Hb]; [lia|].
      rewrite Ha, Hb. cbn [bind].
      destruct (Byte.eqb a b) eqn:Heq; cbn [negb].
      * apply byte_dec_bl in Heq. subst b.
        destruct (IH (i0 + 1) (i1 + 1)) as [x [y [E1 [E2 [E3 E4]]]]];
          [|lia|].
        { split; [lia|]. split; [lia|]. split; [lia|].
          intros k Hk. destruct (Z.eq_dec k i0) as [->|Hne].
          - replace (i1 + 1 - (i0 + 1) + i0) with i1 by lia. congruence.
          - replace (i1 + 1 - (i0 + 1) + k) with (i1 - i0 + k) by lia.
            apply H3; lia. }
        exists x, y. split; [exact E1|]. split; [exact E2|].
        split; [lia | exact E4].
      * destruct (IH 0 (i1 + 1)) as [x [y [E1 [E2 [E3 E4]]]]]; [|lia|].
        { split; [lia|]. split; [lia|]. split; [lia|]. intros k Hk; lia. }
        exists x, y. split; [exact E1|]. split; [exact E2|].
        split; [lia | exact E4].
    + exists (i1 - i0), i0. split; [reflexivity|].
      split; [split; [lia | split; [lia | split; [lia | exact H3]]]|].
      split; [lia|]. right. lia.
    + exists (i1 - i0), i0. split; [reflexivity|].
      split; [split; [lia | split; [lia | split; [lia | exact H3]]]|].
      split; [lia|]. left. lia.
Qed.

(** X14. [matchPrefix] returns from every valid resume point, with an index
    not before the one given and a valid resume point again:
    [inner[index' : index'+offset']] is [prefix[0 : offset']]; and either
    the whole prefix is matched or the input is read to its end. *)
Theorem matchPrefix_resume (fuel : nat) (m : Machine) (re : Regexp)
    (i : bytes) (index offset : Z) :
  m_re m = Some re ->
  0 <= index -> 0 <= offset <= len (re_prefix re) ->
  index + offset <= len i ->
  sub i index (index + offset) = sub (re_prefix re) 0 offset ->
  len i - (index + offset) < Z.of_nat fuel ->
  exists index' offset',
    matchPrefix fuel m i index offset = Done (index', offset')
    /\ index <= index'
    /\ 0 <= offset' <= len (re_prefix re)
    /\ index' + offset' <= len i
    /\ sub i index' (index' + offset') = sub (re_prefix re) 0 offset'
    /\ (offset' = len (re_prefix re) \/ index' + offset' = len i).
Proof.
  intros Hre Hi Ho Hfit Hsub Hfuel.
  unfold matchPrefix. rewrite Hre. cbn [deref bind].
  destruct (matchPrefixLoop_ok (re_prefix re) i fuel offset (index + offset))
    as [x [y [E1 [E2 [E3 E4]]]]]; [|lia|].
  { replace (index + offset - offset) with index by lia.
    apply live_sub. repeat split; auto; lia. }
  exists x, y. split; [exact E1|].
  apply live_sub in E2. destruct E2 as [F0 [F1 [F2 F3]]].
  split; [lia|]. split; [exact F1|]. split; [exact F2|].
  split; [exact F3 | exact E4].
Qed.

Lemma matchPrefix_resume_witness :
  exists index' offset',
    matchPrefix 16
      (fromDone newMachine
         (freshMachine (mkRegexp prog_abc (str "ab") 0 2 0 false)))
      (str "xaxab") 0 0
      = Done (index', offset')
    /\ 0 <= index'
    /\ 0 <= offset' <= len (str "ab")
    /\ index' + offset' <= len (str "xaxab")
    /\ sub (str "xaxab") index' (index' + offset') = sub (str "ab") 0 offset'
    /\ (offset' = len (str "ab") \/ index' + offset' = len (str "xaxab")).
Proof.
  apply (matchPrefix_resume 16
           (fromDone newMachine
              (freshMachine (mkRegexp prog_abc (str "ab") 0 2 0 false)))
           (mkRegexp prog_abc (str "ab") 0 2 0 false) (str "xaxab") 0 0).
  - reflexivity.
  - lia.
  - vm_compute. split; discriminate.
  - vm_compute. discriminate.
  - reflexivity.
  - vm_compute. reflexivity.
Defined.

(** ** The queues are sparse sets *)

Lemma getq_setq_same m q v : getq (setq m q v) q = v.
Proof. destruct q; reflexivity. Qed.

Lemma getq_setq_other m q v : getq (setq m q v) (other q) = getq m (other q).
Proof. destruct q; reflexivity. Qed.

Lemma getq_putThread m t th q : getq (putThread m t th) q = getq m q.
Proof. destruct q; reflexivity. Qed.

Lemma getq_set_pool m v q : getq (set_pool m v) q = getq m q.
Proof. destruct q; reflexivity. Qed.

Lemma getq_set_matchcap m v q : getq (set_matchcap m v) q = getq m q.
Proof. destruct q; reflexivity. Qed.

Lemma getq_set_matched m v q : getq (set_matched m v) q = getq m q.
Proof. destruct q; reflexivity. Qed.

Lemma getq_set_accum m v q : getq (set_accum m v) q = getq m q.
Proof. destruct q; reflexivity. Qed.

Lemma capWrite_getq m c v m' q :
  capWrite m c v = Done m' -> getq m' q = getq m q.
Proof.
  destruct c; simpl; intros H.
  - inversion H; subst. apply getq_set_matchcap.
  - apply bind_Done in H. destruct H as [th [_ H]]. inversion H; subst.
    apply getq_putThread.
Qed.

Lemma alloc_getq m i m' t q :
  alloc m i = Done (m', t) -> getq m' q = getq m q.
Proof.
  unfold alloc. destruct (rev (m_pool m)); intros H.
  - inversion H; subst. destruct q; reflexivity.
  - apply bind_Done in H. destruct H as [th [_ H]]. inversion H; subst.
    rewrite getq_putThread. apply getq_set_pool.
Qed.

Lemma qwf_nil (s : list Z) : qwf (mkQueue s []).
Proof.
  intros j e H. simpl in H. apply at_Done in H. destruct H as [_ H].
  destruct (Z.to_nat j); discriminate.
Qed.

Lemma at_app_last {A : Type} (l : list A) (a : A) :
  at_ (l ++ [a]) (len l) = Done a.
Proof.
  apply at_Done. split; [apply len_nonneg|].
  unfold len. rewrite Nat2Z.id. rewrite nth_error_app2 by lia.
  rewrite Nat.sub_diag. reflexivity.
Qed.

Lemma at_app_inv {A : Type} (l : list A) (a e : A) (j : Z) :
  at_ (l ++ [a]) j = Done e ->
  (j < len l /\ at_ l j = Done e) \/ (j = len l /\ e = a).
Proof.
  intros H. pose proof (at_Done_range _ _ _ H) as Hr.
  rewrite len_app in Hr. change (len [a]) with 1 in Hr.
  destruct (Z.lt_ge_cases j (len l)) as [Hlt|Hge].
  - left. split; [exact Hlt|]. rewrite <- H. symmetry.
    unfold at_. destruct (Z.ltb_spec j 0); [reflexivity|].
    rewrite nth_error_app1; [reflexivity|]. unfold len in Hlt. lia.
  - right. assert (j = len l) by lia. subst j. split; [reflexivity|].
    rewrite at_app_last in H. inversion H; reflexivity.
Qed.

(** Appending the entry for a pc the membership test did not find. *)
Lemma qwf_push (qu : queue) (pc j0 : Z) (sparse' : list Z) :
  qwf qu ->
  at_ (q_sparse qu) pc = Done j0 ->
  (if j0 <? len (q_dense qu)
   then e <- at_ (q_dense qu) j0 ;; Done (e_pc e =? pc)
   else Done false) = Done false ->
  upd (q_sparse qu) pc (len (q_dense qu)) = Done sparse' ->
  qwf (mkQueue sparse' (q_dense qu ++ [mkEntry pc None])).
Proof.
  intros Hwf Hj0 Habsent Hupd j e He. simpl in *.
  apply upd_inv in Hupd. destruct Hupd as [Hpc ->].
  apply at_app_inv in He. destruct He as [[Hlt He]|[-> ->]].
  - pose proof (Hwf j e He) as Hs.
    destruct (Z.eq_dec (e_pc e) pc) as [Heq|Hne].
    + exfalso. rewrite Heq, Hj0 in Hs. inversion Hs; subst j0.
      destruct (Z.ltb_spec j (len (q_dense qu))); [|lia].
      rewrite He in Habsent. cbn [bind] in Habsent.
      inversion Habsent as [Hb]. apply Z.eqb_neq in Hb. contradiction.
    + rewrite at_set_nth_other; auto; try lia.
      apply at_Done_range in Hs. lia.
  - simpl. apply at_set_nth_same. exact Hpc.
Qed.

(** Installing a thread in the entry for its pc. *)
Lemma qwf_install (s : list Z) (d d' : list entry) (pc : Z)
    (t : option nat) :
  qwf (mkQueue s (d ++ [mkEntry pc None])) ->
  upd (d ++ [mkEntry pc None]) (len d) (mkEntry pc t) = Done d' ->
  qwf (mkQueue s d').
Proof.
  intros Hwf Hupd j e He. simpl in *.
  apply upd_inv in Hupd. destruct Hupd as [Hr ->].
  destruct (Z.eq_dec j (len d)) as [->|Hne].
  - rewrite at_set_nth_same in He by exact Hr. inversion He; subst e.
    apply (Hwf (len d) (mkEntry pc None)). apply at_app_last.
  - pose proof (at_Done_range _ _ _ He) as Hj.
    rewrite at_set_nth_other in He; try lia.
    apply (Hwf j e He).
Qed.

Section Queues.

Variable X : Externals.

Lemma add_queues :
  forall fuel m q pc pos cap cond t m' t',
    qwf (getq m q) ->
    add X fuel m q pc pos cap cond t = Done (m', t') ->
    qwf (getq m' q) /\ getq m' (other q) = getq m (other q).
Proof.
  induction fuel as [|fuel IH]; intros m q pc pos cap cond t m' t' Hwf H;
    [discriminate|].
  simpl in H.
  destruct (pc =? 0); [inversion H; subst; auto|].
  apply bind_Done in H. destruct H as [j0 [Hj0 H]].
  apply bind_Done in H. destruct H as [present [Hpres H]].
  destruct present; [inversion H; subst; auto|].
  match type of H with
  | (if ?c then Panic else _) = _ => destruct c; [discriminate|]
  end.
  apply bind_Done in H. destruct H as [sparse' [Hupd H]].
  pose proof (qwf_push _ _ _ _ Hwf Hj0 Hpres Hupd) as Hwf0.
  set (d := q_dense (getq m q)) in *.
  set (m0 := setq m q (mkQueue sparse' (d ++ [mkEntry pc None]))) in H.
  assert (Q0 : getq m0 q = mkQueue sparse' (d ++ [mkEntry pc None]))
    by apply getq_setq_same.
  assert (O0 : getq m0 (other q) = getq m (other q))
    by apply getq_setq_other.
  assert (Hwf0' : qwf (getq m0 q)) by (rewrite Q0; exact Hwf0).
  apply bind_Done in H. destruct H as [prog [_ H]].
  apply bind_Done in H. destruct H as [i [_ H]].
  assert (Hrec : forall pc' t0 m1 t1,
             add X fuel m0 q pc' pos cap cond t0 = Done (m1, t1) ->
             qwf (getq m1 q) /\ getq m1 (other q) = getq m (other q)).
  { intros pc' t0 m1 t1 H1. apply IH in H1; [|exact Hwf0'].
    destruct H1 as [A B]. split; [exact A | congruence]. }
  assert (Hrune :
            ('(m1, tid) <- match t with
                           | None =>
                             '(m1, tid) <- alloc m0 pc ;;
                             th <- getThread m1 tid ;;
                             c <- capRead m1 cap ;;
                             Done (putThread m1 tid
                                     (mkThread (t_inst th)
                                        (copy (t_cap th) c)
                                        (t_cap_rest th)), tid)
                           | Some tid =>
                             th <- getThread m0 tid ;;
                             Done (putThread m0 tid
                                     (mkThread pc (t_cap th)
                                        (t_cap_rest th)), tid)
                           end ;;
             let qu := getq m1 q in
             dense' <- upd (q_dense qu) (len d) (mkEntry pc (Some tid)) ;;
             Done (setq m1 q (mkQueue (q_sparse qu) dense'), None))
            = Done (m', t') ->
            qwf (getq m' q) /\ getq m' (other q) = getq m (other q)).
  { clear H. intros H.
    apply bind_Done in H. destruct H as [[m1 tid] [H1 H]].
    assert (F : forall q', getq m1 q' = getq m0 q').
    { intros q'. destruct t.
      - apply bind_Done in H1. destruct H1 as [th [_ H1]].
        inversion H1; subst. apply getq_putThread.
      - apply bind_Done in H1. destruct H1 as [[m2 tid2] [H2 H1]].
        apply bind_Done in H1. destruct H1 as [th [_ H1]].
        apply bind_Done in H1. destruct H1 as [c [_ H1]].
        inversion H1; subst. rewrite getq_putThread.
        apply (alloc_getq _ _ _ _ _ H2). }
    cbv zeta in H. rewrite (F q), Q0 in H. cbn [q_dense q_sparse] in H.
    apply bind_Done in H. destruct H as [dense' [Hd H]].
    inversion H; subst. rewrite getq_setq_same, getq_setq_other.
    split.
    - apply (qwf_install _ _ _ _ _ Hwf0 Hd).
    - rewrite (F (other q)). exact O0. }
  destruct (Op i).
  - (* InstAlt *)
    apply bind_Done in H. destruct H as [[m1 t1] [H1 H]].
    apply Hrec in H1. destruct H1 as [A1 B1].
    apply IH in H; [|exact A1]. destruct H as [A B].
    split; [exact A | congruence].
  - apply bind_Done in H. destruct H as [[m1 t1] [H1 H]].
    apply Hrec in H1. destruct H1 as [A1 B1].
    apply IH in H; [|exact A1]. destruct H as [A B].
    split; [exact A | congruence].
  - (* InstCapture *)
    apply bind_Done in H. destruct H as [c [_ H]].
    match type of H with
    | (if ?b then _ else _) = _ => destruct b
    end.
    + apply bind_Done in H. destruct H as [opos [_ H]].
      apply bind_Done in H. destruct H as [c' [_ H]].
      apply bind_Done in H. destruct H as [m1 [H1 H]].
      apply bind_Done in H. destruct H as [[m2 t2] [H2 H]].
      apply bind_Done in H. destruct H as [c2 [_ H]].
      apply bind_Done in H. destruct H as [c2' [_ H]].
      apply bind_Done in H. destruct H as [m3 [H3 H]].
      inversion H; subst.
      pose proof (capWrite_getq _ _ _ _ q H1) as G1.
      pose proof (capWrite_getq _ _ _ _ (other q) H1) as G1'.
      apply IH in H2; [|rewrite G1; exact Hwf0'].
      destruct H2 as [A2 B2].
      rewrite (capWrite_getq _ _ _ _ q H3).
      rewrite (capWrite_getq _ _ _ _ (other q) H3).
      split; [exact A2 | congruence].
    + apply Hrec in H. exact H.
  - (* InstEmptyWidth *)
    destruct (lazyFlag_match _ _ _).
    + apply Hrec in H. exact H.
    + inversion H; subst. split; [exact Hwf0' | exact O0].
  - (* InstMatch *)
    apply bind_Done in H. destruct H as [re [_ H]].
    apply bind_Done in H. destruct H as [tid [_ H]].
    apply bind_Done in H. destruct H as [th [_ H]].
    apply bind_Done in H. destruct H as [record [_ H]].
    apply bind_Done in H. destruct H as [m1 [H1 H]].
    assert (F : forall q', getq m1 q' = getq m0 q').
    { intros q'. destruct record.
      - apply bind_Done in H1. destruct H1 as [c0 [_ H1]].
        apply bind_Done in H1. destruct H1 as [c' [_ H1]].
        apply bind_Done in H1. destruct H1 as [c'' [_ H1]].
        inversion H1; subst. rewrite getq_set_matchcap.
        apply getq_putThread.
      - inversion H1; reflexivity. }
    inversion H; subst. rewrite !getq_set_matched.
    destruct (negb (re_longest re)).
    + rewrite getq_setq_same, getq_setq_other, getq_set_pool.
      split; [apply qwf_nil|]. rewrite F. exact O0.
    + rewrite !F. split; [exact Hwf0' | exact O0].
  - (* InstFail *) inversion H; subst. split; [exact Hwf0' | exact O0].
  - (* InstNop *) apply Hrec in H. exact H.
  - apply Hrune; exact H.
  - apply Hrune; exact H.
  - apply Hrune; exact H.
  - apply Hrune; exact H.
Qed.

End Queues.

Lemma queuesOk_frame (m m' : Machine) :
  (forall q, getq m' q = getq m q) -> queuesOk m -> queuesOk m'.
Proof. intros F H q. rewrite F. apply H. Qed.

Lemma other_other (q : qsel) : other (other q) = q.
Proof. destruct q; reflexivity. Qed.

Lemma qsel_cases (q q' : qsel) : q' = q \/ q' = other q.
Proof. destruct q, q'; auto. Qed.

Section QueuesOfMatch.

Variable X : Externals.

Lemma add_queuesOk fuel m q pc pos cap cond t m' t' :
  queuesOk m ->
  add X fuel m q pc pos cap cond t = Done (m', t') ->
  queuesOk m'.
Proof.
  intros Hok H. apply add_queues in H; [|apply Hok].
  destruct H as [A B]. intros q'.
  destruct (qsel_cases q q') as [->| ->]; [exact A|].
  rewrite B. apply Hok.
Qed.

Lemma stepThread_queuesOk fuel m nextq nextPos c nextCond longest d m' :
  queuesOk m ->
  stepThread X fuel m nextq nextPos c nextCond longest d = Done m' ->
  queuesOk m'.
Proof.
  intros Hok. unfold stepThread. destruct (e_t d) as [tid|]; intros H;
    [|inversion H; subst; exact Hok].
  apply bind_Done in H. destruct H as [th [_ H]].
  apply bind_Done in H. destruct H as [skip [_ H]].
  destruct skip.
  { inversion H; subst. eapply queuesOk_frame; [|exact Hok].
    intros q; apply getq_set_pool. }
  apply bind_Done in H. destruct H as [prog [_ H]].
  apply bind_Done in H. destruct H as [i [_ H]].
  apply bind_Done in H. destruct H as [doAdd [_ H]].
  apply bind_Done in H. destruct H as [[m1 t1] [H1 H]].
  assert (E1 : queuesOk m1).
  { destruct doAdd.
    - eapply add_queuesOk; eauto.
    - inversion H1; subst; exact Hok. }
  destruct t1; inversion H; subst; [|exact E1].
  eapply queuesOk_frame; [|exact E1]. intros q; apply getq_set_pool.
Qed.

Lemma stepLoop_queuesOk fuel nextq nextPos c nextCond longest :
  forall ds m m',
    queuesOk m ->
    stepLoop X fuel m nextq nextPos c nextCond longest ds = Done m' ->
    queuesOk m'.
Proof.
  induction ds as [|d ds IH]; intros m m' Hok H; simpl in H.
  - inversion H; subst; exact Hok.
  - apply bind_Done in H. destruct H as [m1 [H1 H]].
    apply stepThread_queuesOk in H1; [|exact Hok]. eapply IH; eauto.
Qed.

Lemma queuesOk_setq m q s :
  queuesOk m -> queuesOk (setq m q (mkQueue s [])).
Proof.
  intros Hok q'. destruct (qsel_cases q q') as [->| ->].
  - rewrite getq_setq_same. apply qwf_nil.
  - rewrite getq_setq_other. apply Hok.
Qed.

Lemma step_queuesOk fuel m runq nextq pos nextPos c nextCond m' :
  queuesOk m ->
  step X fuel m runq nextq pos nextPos c nextCond = Done m' ->
  queuesOk m' /\ q_dense (getq m' runq) = [].
Proof.
  intros Hok. unfold step. intros H.
  apply bind_Done in H. destruct H as [re [_ H]].
  apply bind_Done in H. destruct H as [m1 [H1 H]].
  apply stepLoop_queuesOk in H1; [|exact Hok]. inversion H; subst.
  split; [apply queuesOk_setq; exact H1|].
  rewrite getq_setq_same. reflexivity.
Qed.

Lemma matchExit_queuesOk m l :
  queuesOk m -> queuesOk (fst (matchExit m l)).
Proof.
  intros Hok q. unfold matchExit. cbn [fst].
  destruct q; simpl; destruct (l_runq l); simpl; first [apply (Hok Q0) | apply (Hok Q1)].
Qed.

Lemma weave_queuesOk fuel i m l continue_ m' r :
  (forall m1 l1 m2 r2,
      queuesOk m1 -> continue_ m1 l1 = Done (m2, r2) -> queuesOk m2) ->
  queuesOk m ->
  weave X fuel i m l continue_ = Done (m', r) ->
  queuesOk m'.
Proof.
  intros Hk Hok H. unfold weave in H.
  apply bind_Done in H. destruct H as [m1 [H1 H]].
  assert (E1 : queuesOk m1).
  { destruct (negb (m_matched m)).
    - apply bind_Done in H1. destruct H1 as [m2 [H2 H1]].
      apply bind_Done in H1. destruct H1 as [prog [_ H1]].
      apply bind_Done in H1. destruct H1 as [[m3 t3] [H3 H1]].
      inversion H1; subst. eapply add_queuesOk; [|exact H3].
      destruct (0 <? len (m_matchcap m)).
      + apply bind_Done in H2. destruct H2 as [mc [_ H2]].
        inversion H2; subst. eapply queuesOk_frame; [|exact Hok].
        intros q; apply getq_set_matchcap.
      + inversion H2; subst. exact Hok.
    - inversion H1; subst; exact Hok. }
  destruct (l_width l =? 0).
  { inversion H; subst. apply (matchExit_queuesOk m1 l E1). }
  apply bind_Done in H. destruct H as [m2 [H2 H]].
  apply step_queuesOk in H2; [|exact E1]. destruct H2 as [E2 _].
  destruct (m_matched m2).
  { inversion H; subst.
    match goal with
    | |- queuesOk ?a =>
      change a with (fst (matchExit m2
                            (mkLocals (l_index l) (l_offset l + l_width l)
                               (l_r l) (l_width l) (l_r1 l) (l_width1 l)
                               (newLazyFlag (l_r l) (l_r1 l)) (l_runq l))))
    end.
    apply matchExit_queuesOk. exact E2. }
  match type of H with
  | (if ?b then _ else _) = _ => destruct b
  end.
  - cbv zeta in H.
    apply bind_Done in H. destruct H as [[r0 w0] [_ H]].
    apply bind_Done in H. destruct H as [[r1 w1] [_ H]].
    exact (Hk _ _ _ _ E2 H).
  - cbv zeta in H.
    apply bind_Done in H. destruct H as [[r1 w1] [_ H]].
    exact (Hk _ _ _ _ E2 H).
Qed.

Lemma matchLoop_queuesOk fuel i :
  forall steps m l m' r,
    queuesOk m ->
    matchLoop X fuel steps i m l = Done (m', r) ->
    queuesOk m'.
Proof.
  induction steps as [|steps IH]; intros m l m' r Hok H; [discriminate|].
  simpl in H.
  match type of H with
  | (if ?b then _ else _) = _ => destruct b
  end.
  - destruct (m_matched m).
    { inversion H; subst. apply (matchExit_queuesOk m l Hok). }
    apply bind_Done in H. destruct H as [re [_ H]].
    match type of H with
    | (if ?b then _ else _) = _ => destruct b
    end.
    { eapply weave_queuesOk; [| exact Hok | exact H].
      intros; eapply IH; eauto. }
    apply bind_Done in H. destruct H as [[i' o'] [_ H]].
    match type of H with
    | (if ?b then _ else _) = _ => destruct b
    end.
    + eapply weave_queuesOk; [| exact Hok | exact H].
      intros; eapply IH; eauto.
    + inversion H; subst; exact Hok.
  - eapply weave_queuesOk; [| exact Hok | exact H].
    intros; eapply IH; eauto.
Qed.

Lemma match_queuesOk fuel m i index offset m' r :
  queuesOk m ->
  match_ X fuel m i index offset = Done (m', r) ->
  queuesOk m'.
Proof.
  intros Hok. unfold match_. intros H.
  apply bind_Done in H. destruct H as [re [_ H]].
  match type of H with
  | (if ?b then _ else _) = _ => destruct b
  end; [inversion H; subst; exact Hok|].
  apply bind_Done in H. destruct H as [[r0 w0] [_ H]].
  apply bind_Done in H. destruct H as [[r1 w1] [_ H]].
  apply bind_Done in H. destruct H as [flag [_ H]].
  eapply matchLoop_queuesOk; eauto.
Qed.

Lemma Machine_Match_queuesOk fuel m index offset buf m' r :
  queuesOk m ->
  Machine_Match X fuel m index offset buf = Done (m', r) ->
  queuesOk m'.
Proof.
  intros Hok. unfold Machine_Match. intros H.
  apply bind_Done in H. destruct H as [[m1 [[idx off] ok]] [H1 H]].
  apply match_queuesOk in H1; [|exact Hok].
  destruct ok; cbn [negb] in H.
  - apply bind_Done in H. destruct H as [mc0 [_ H]].
    apply bind_Done in H. destruct H as [mc1 [_ H]].
    inversion H; subst. eapply queuesOk_frame; [|exact H1].
    intros q. rewrite getq_set_matched. apply getq_set_accum.
  - apply bind_Done in H. destruct H as [ths [_ H]].
    apply bind_Done in H. destruct H as [shift [_ H]].
    destruct (shift =? MaxInt); inversion H; subst;
      (eapply queuesOk_frame; [|exact H1]); intros q; apply getq_set_accum.
Qed.

End QueuesOfMatch.

(** A sparse set holds no pc twice, and no more entries than its sparse
    array has slots. *)
Lemma qwf_NoDup (q : queue) : qwf q -> NoDup (map e_pc (q_dense q)).
Proof.
  intros Hwf. apply NoDup_nth_error. intros a b Ha Hab.
  rewrite length_map in Ha.
  destruct (nth_error (q_dense q) a) as [ea|] eqn:Ea;
    [|apply nth_error_None in Ea; lia].
  rewrite (map_nth_error e_pc _ _ Ea) in Hab. symmetry in Hab.
  rewrite nth_error_map in Hab.
  destruct (nth_error (q_dense q) b) as [eb|] eqn:Eb; [|discriminate].
  simpl in Hab. inversion Hab as [Hpc].
  assert (A : at_ (q_dense q) (Z.of_nat a) = Done ea).
  { apply at_Done. split; [lia|]. rewrite Nat2Z.id. exact Ea. }
  assert (B : at_ (q_dense q) (Z.of_nat b) = Done eb).
  { apply at_Done. split; [lia|]. rewrite Nat2Z.id. exact Eb. }
  apply Hwf in A. apply Hwf in B. rewrite Hpc in B. rewrite A in B.
  inversion B. lia.
Qed.

Lemma NoDup_map_on {A B : Type} (f : A -> B) (l : list A) :
  (forall x y, In x l -> In y l -> f x = f y -> x = y) ->
  NoDup l -> NoDup (map f l).
Proof.
  induction l as [|a l IH]; intros Hinj Hnd; simpl; [constructor|].
  inversion Hnd as [|? ? Hnotin Hnd']; subst. constructor.
  - intros Hin. apply in_map_iff in Hin. destruct Hin as [b [Hf Hb]].
    assert (b = a) by (apply Hinj; simpl; auto). subst b. contradiction.
  - apply IH; [|exact Hnd']. intros x y Hx Hy. apply Hinj; simpl; auto.
Qed.

Lemma qwf_length (q : queue) :
  qwf q -> len (q_dense q) <= len (q_sparse q).
Proof.
  intros Hwf.
  pose proof (qwf_NoDup q Hwf) as Hnd.
  assert (Hin : forall e, In e (q_dense q) ->
                          0 <= e_pc e < len (q_sparse q)).
  { intros e He. apply In_nth_error in He. destruct He as [n Hn].
    assert (A : at_ (q_dense q) (Z.of_nat n) = Done e).
    { apply at_Done. split; [lia|]. rewrite Nat2Z.id. exact Hn. }
    apply Hwf in A. apply at_Done_range in A. exact A. }
  assert (Hnd' : NoDup (map (fun e => Z.to_nat (e_pc e)) (q_dense q))).
  { rewrite <- (map_map e_pc Z.to_nat).
    apply NoDup_map_on; [|exact Hnd].
    intros x y Hx Hy Hxy.
    apply in_map_iff in Hx. destruct Hx as [ex [<- Hx]].
    apply in_map_iff in Hy. destruct Hy as [ey [<- Hy]].
    apply Hin in Hx. apply Hin in Hy. lia. }
  assert (Hincl : incl (map (fun e => Z.to_nat (e_pc e)) (q_dense q))
                       (seq 0 (List.length (q_sparse q)))).
  { intros n Hn. apply in_map_iff in Hn. destruct Hn as [e [<- He]].
    apply Hin in He. apply in_seq. unfold len in He. lia. }
  pose proof (NoDup_incl_length Hnd' Hincl) as L.
  rewrite length_map, length_seq in L. unfold len. lia.
Qed.

(** X15. [Machine.Match] keeps both queues sparse sets: when every dense
    entry of the two queues is indexed by the sparse array at its pc
    before the call, it is so after it; no pc is then twice in a queue,
    and no queue holds more entries than its sparse array has slots, so
    that extending [dense] by one stays within its capacity. *)
Theorem Machine_Match_keeps_queues (X : Externals) (fuel : nat)
    (m m' : Machine) (index offset : Z) (buf : bytes) (r : Z * Z * bool) :
  queuesOk m ->
  Machine_Match X fuel m index offset buf = Done (m', r) ->
  queuesOk m'
  /\ forall q, NoDup (map e_pc (q_dense (getq m' q)))
               /\ len (q_dense (getq m' q)) <= len (q_sparse (getq m' q)).
Proof.
  intros Hok H. apply Machine_Match_queuesOk in H; [|exact Hok].
  split; [exact H|]. intros q. split.
  - apply qwf_NoDup. apply H.
  - apply qwf_length. apply H.
Qed.

Lemma Machine_Match_keeps_queues_witness :
  queuesOk machine_abc_xab
  /\ forall q, NoDup (map e_pc (q_dense (getq machine_abc_xab q)))
               /\ len (q_dense (getq machine_abc_xab q))
                  <= len (q_sparse (getq machine_abc_xab q)).
Proof.
  apply (Machine_Match_keeps_queues asciiExternals 8 machine_abc
           machine_abc_xab 0 0 (str "xab") (1, 2, false)).
  - intros q; destruct q; vm_compute; apply qwf_nil.
  - vm_compute. reflexivity.
Defined.

(** ** Regexp.Get and Regexp.Put *)

Lemma set_threads_twice m a b : set_threads (set_threads m a) b = set_threads m b.
Proof. reflexivity. Qed.

Lemma poolRemake_frame n :
  forall ts m m', poolRemake m ts n = Done m' ->
                  exists ths, m' = set_threads m ths.
Proof.
  induction ts as [|t ts IH]; intros m m' H; simpl in H.
  - inversion H; subst. exists (m_threads m'). destruct m'; reflexivity.
  - apply bind_Done in H. destruct H as [th [_ H]].
    apply IH in H. destruct H as [ths ->]. exists ths. reflexivity.
Qed.

Lemma poolReslice_frame n :
  forall ts m m', poolReslice m ts n = Done m' ->
                  exists ths, m' = set_threads m ths.
Proof.
  induction ts as [|t ts IH]; intros m m' H; simpl in H.
  - inversion H; subst. exists (m_threads m'). destruct m'; reflexivity.
  - apply bind_Done in H. destruct H as [th [_ H]].
    apply bind_Done in H. destruct H as [[c rest] [_ H]].
    apply IH in H. destruct H as [ths ->]. exists ths. reflexivity.
Qed.

Lemma reslice_len s rest n c r :
  reslice s rest n = Done (c, r) -> len c = n /\ c ++ r = s ++ rest.
Proof.
  unfold reslice. intros H.
  destruct (Z.ltb_spec n 0) as [Hn|Hn]; [discriminate|].
  destruct (Z.ltb_spec (len (s ++ rest)) n) as [Hl|Hl]; [discriminate|].
  simpl in H. inversion H; subst. split.
  - apply len_slice_to. lia.
  - apply firstn_skipn.
Qed.

(** What [Regexp.Get] has done to the machine it returns, [m0] being the
    machine it started from. *)
Lemma Regexp_Get_machine (w w' : World) (re : Regexp) (choice : option nat)
    (id : nat) (m : Machine) :
  Regexp_Get w re choice = Done (w', (id, m)) ->
  exists pl m0 n,
    at_ (matchPool w) (re_mpool re) = Done pl
    /\ m0 = match fst (Pool_Get pl choice) with
            | Some im => snd im
            | None => newMachine
            end
    /\ queueSize (re_mpool re) (len (Insts (re_prog re))) = Done n
    /\ m_re m = Some re /\ m_p m = Some (re_prog re)
    /\ m_accum m = 0 /\ m_matched m = false
    /\ len (m_matchcap m) = NumCap (re_prog re)
    /\ m_pool m = m_pool m0
    /\ (if len (q_sparse (m_q0 m0)) <? n
        then m_q0 m = mkQueue (zeros n) [] /\ m_q1 m = mkQueue (zeros n) []
        else m_q0 m = m_q0 m0 /\ m_q1 m = m_q1 m0).
Proof.
  unfold Regexp_Get. intros H.
  apply bind_Done in H. destruct H as [pl [Hpl H]].
  destruct (Pool_Get pl choice) as [got pl'] eqn:Hget.
  apply bind_Done in H. destruct H as [pools' [Hup H]].
  exists pl. rewrite Hget. cbn [fst].
  set (m0 := match got with Some im => snd im | None => newMachine end).
  assert (Hgot : (let '(w0, (id0, m1)) :=
                    match got with
                    | Some im => (mkWorld pools' (w_next w), im)
                    | None => (mkWorld pools' (S (w_next w)),
                               (w_next w, newMachine))
                    end in m1) = m0).
  { unfold m0. destruct got as [[i1 m1]|]; reflexivity. }
  destruct (match got with
            | Some im => (mkWorld pools' (w_next w), im)
            | None => (mkWorld pools' (S (w_next w)), (w_next w, newMachine))
            end) as [w0 [id0 m1]].
  simpl in Hgot. subst m1.
  apply bind_Done in H; destruct H as [ma [Ha H]].
  apply bind_Done in H; destruct H as [mb [Hb H]].
  apply bind_Done in H; destruct H as [[mc rest] [Hc H]].
  apply bind_Done in H; destruct H as [n [Hn H]].
  exists m0. eexists. split; [exact Hpl|]. split; [reflexivity|].
  unfold queueSize. rewrite Hn. cbn [bind]. split; [reflexivity|].
  assert (Fa : exists mcap mrest ths,
             ma = mkMachine (Some re) (Some (re_prog re)) (m_q0 m0) (m_q1 m0)
                    (m_pool m0) false mcap mrest 0 ths).
  { cbn [m_re m_p m_q0 m_q1 m_pool m_matched m_matchcap m_matchcap_rest
          m_accum m_threads] in Ha.
    match type of Ha with
    | (if ?b then _ else _) = _ => destruct b
    end.
    - apply poolRemake_frame in Ha. destruct Ha as [ths ->].
      eexists _, _, _. unfold set_threads.
      cbn [m_re m_p m_q0 m_q1 m_pool m_matched m_matchcap m_matchcap_rest
           m_accum m_threads]. reflexivity.
    - inversion Ha; subst. eexists _, _, _. reflexivity. }
  destruct Fa as [mcap [mrest [ths ->]]].
  apply poolReslice_frame in Hb. destruct Hb as [ths' ->].
  cbn [set_threads m_matchcap m_matchcap_rest m_re m_p m_q0 m_q1 m_pool
       m_matched m_accum m_threads] in *.
  apply reslice_len in Hc. destruct Hc as [Hlen _].
  inversion H; subst.
  match goal with
  | |- context [if ?b then _ else _] => destruct b
  end; simpl; repeat split; auto.
Qed.

Lemma mpoolLoop_fits (n : Z) :
  forall (fuel : nat) (i j : Z),
    mpoolLoop fuel n i = Done j ->
    i <= j
    /\ exists s, at_ matchSize j = Done s /\ (s = 0 \/ n <= s).
Proof.
  induction fuel as [|fuel IH]; intros i j H; [discriminate|].
  simpl in H. apply bind_Done in H. destruct H as [s [Hs H]].
  destruct (Z.eqb_spec s 0) as [Hz|Hz]; cbn [negb andb] in H.
  - inversion H; subst. split; [lia|]. exists 0. auto.
  - destruct (Z.ltb_spec s n) as [Hlt|Hge].
    + apply IH in H. destruct H as [H1 H2]. split; [lia | exact H2].
    + inversion H; subst. split; [lia|]. exists s. auto.
Qed.

Lemma mpoolLoop_total (n : Z) (fuel : nat) :
  (5 <= fuel)%nat ->
  exists i, mpoolLoop fuel n 0 = Done i /\ 0 <= i <= 4
            /\ forall k sk, 0 <= k < i -> at_ matchSize k = Done sk -> sk < n.
Proof.
  intros Hfuel.
  do 5 (destruct fuel as [|fuel]; [lia|]). clear Hfuel.
  assert (A : forall k sk, 0 <= k < 5 -> at_ matchSize k = Done sk ->
                           sk = nth (Z.to_nat k) [128; 512; 2048; 16384; 0] 0).
  { intros k sk Hk H.
    assert (Hc : k = 0 \/ k = 1 \/ k = 2 \/ k = 3 \/ k = 4) by lia.
    destruct Hc as [->|[->|[->|[->| ->]]]]; vm_compute in H;
      inversion H; reflexivity. }
  cbn [mpoolLoop]. change (at_ matchSize 0) with (Done (A := Z) 128).
  cbn [bind]. change (negb (128 =? 0)) with true. cbn [andb].
  destruct (Z.ltb_spec 128 n) as [H0|H0].
  2:{ exists 0. split; [reflexivity|]. split; [lia|]. intros; lia. }
  change (at_ matchSize (0 + 1)) with (Done (A := Z) 512).
  cbn [bind]. change (negb (512 =? 0)) with true. cbn [andb].
  destruct (Z.ltb_spec 512 n) as [H1|H1].
  2:{ exists 1. split; [reflexivity|]. split; [lia|].
      intros k sk Hk Hs. apply A in Hs; [|lia].
      assert (k = 0) by lia. subst. simpl. lia. }
  change (at_ matchSize (0 + 1 + 1)) with (Done (A := Z) 2048).
  cbn [bind]. change (negb (2048 =? 0)) with true. cbn [andb].
  destruct (Z.ltb_spec 2048 n) as [H2|H2].
  2:{ exists 2. split; [reflexivity|]. split; [lia|].
      intros k sk Hk Hs. apply A in Hs; [|lia].
      assert (Hc : k = 0 \/ k = 1) by lia.
      destruct Hc; subst; simpl; lia. }
  change (at_ matchSize (0 + 1 + 1 + 1)) with (Done (A := Z) 16384).
  cbn [bind]. change (negb (16384 =? 0)) with true. cbn [andb].
  destruct (Z.ltb_spec 16384 n) as [H3|H3].
  2:{ exists 3. split; [reflexivity|]. split; [lia|].
      intros k sk Hk Hs. apply A in Hs; [|lia].
      assert (Hc : k = 0 \/ k = 1 \/ k = 2) by lia.
      destruct Hc as [|[|]]; subst; simpl; lia. }
  change (at_ matchSize (0 + 1 + 1 + 1 + 1)) with (Done (A := Z) 0).
  cbn [bind]. change (negb (0 =? 0)) with false. cbn [andb].
  exists 4. split; [reflexivity|]. split; [lia|].
  intros k sk Hk Hs. apply A in Hs; [|lia].
  assert (Hc : k = 0 \/ k = 1 \/ k = 2 \/ k = 3) by lia.
  destruct Hc as [|[|[|]]]; subst; simpl; lia.
Qed.

(** X16. The pool class [compile] picks for a program is the first one
    whose queues are large enough for it, and [Regexp.Get] sizes the
    queues by that class: the run queue of the machine it returns,
    whether new or taken from the pool, has a sparse slot for every pc
    of the program. *)
Theorem Get_queue_holds_program (w w' : World) (re : Regexp)
    (choice : option nat) (id : nat) (m : Machine) (fuel : nat) :
  mpoolLoop fuel (len (Insts (re_prog re))) 0 = Done (re_mpool re) ->
  Regexp_Get w re choice = Done (w', (id, m)) ->
  len (Insts (re_prog re)) <= len (q_sparse (m_q0 m))
  /\ (forall k sk, 0 <= k < re_mpool re -> at_ matchSize k = Done sk ->
                   sk < len (Insts (re_prog re))).
Proof.
  intros Hpool Hget.
  pose proof (len_nonneg (Insts (re_prog re))) as Hn.
  split.
  - apply mpoolLoop_fits in Hpool. destruct Hpool as [_ [s [Hs Hfit]]].
    apply Regexp_Get_machine in Hget.
    destruct Hget as [pl [m0 [n [_ [_ [Hq [_ [_ [_ [_ [_ [_ Hqs]]]]]]]]]]]].
    unfold queueSize in Hq. rewrite Hs in Hq. cbn [bind] in Hq.
    inversion Hq as [Hn']. clear Hq.
    assert (Hle : len (Insts (re_prog re)) <= n).
    { subst n. destruct (Z.eqb_spec s 0); lia. }
    destruct (Z.ltb_spec (len (q_sparse (m_q0 m0))) n) as [Hlt|Hge].
    + destruct Hqs as [-> _]. cbn [q_sparse]. rewrite len_zeros; lia.
    + destruct Hqs as [-> _]. lia.
  - intros k sk Hk Hsk.
    destruct (mpoolLoop_total (len (Insts (re_prog re))) (Nat.max fuel 5))
      as [i [Hi [_ Hmin]]]; [lia|].
    assert (Hi' : mpoolLoop (Nat.max fuel 5) (len (Insts (re_prog re))) 0
                  = Done (re_mpool re)).
    { clear - Hpool. revert Hpool.
      generalize (len (Insts (re_prog re))) 0 (re_mpool re).
      assert (G : forall f f' n i j, (f <= f')%nat ->
                    mpoolLoop f n i = Done j -> mpoolLoop f' n i = Done j).
      { induction f as [|f IH]; intros f' n i j Hle H; [discriminate|].
        destruct f' as [|f']; [lia|]. simpl in *.
        destruct (at_ matchSize i); simpl in *; try discriminate.
        destruct (negb (a =? 0) && (a <? n)); [|exact H].
        apply IH; [lia | exact H]. }
      intros n i j H. apply (G fuel); [lia | exact H]. }
    rewrite Hi' in Hi. inversion Hi; subst i.
    apply (Hmin k sk Hk Hsk).
Qed.

Lemma Get_queue_holds_program_witness :
  len (Insts (re_prog (perlRegexp prog_error_warn_info)))
    <= len (q_sparse (m_q0 (fromDone newMachine
                              (freshMachine (perlRegexp prog_error_warn_info)))))
  /\ (forall k sk, 0 <= k < re_mpool (perlRegexp prog_error_warn_info) ->
                   at_ matchSize k = Done sk ->
                   sk < len (Insts (re_prog (perlRegexp prog_error_warn_info)))).
Proof.
  apply (Get_queue_holds_program initWorld (mkWorld [[]; []; []; []; []] 1)
           (perlRegexp prog_error_warn_info) None 0%nat _ 5).
  - vm_compute. reflexivity.
  - vm_compute. reflexivity.
Defined.

Lemma set_nth_set_nth {A : Type} (l : list A) (n : nat) (a b : A) :
  set_nth (set_nth l n a) n b = set_nth l n b.
Proof.
  revert n; induction l as [|x l IH]; intros [|n]; simpl; auto.
  rewrite IH. reflexivity.
Qed.

Lemma set_nth_same {A : Type} (l : list A) (n : nat) (a : A) :
  nth_error l n = Some a -> set_nth l n a = l.
Proof.
  revert n; induction l as [|x l IH]; intros [|n] H; simpl in *;
    try discriminate.
  - inversion H; reflexivity.
  - rewrite IH; auto.
Qed.

(** What [Regexp.Get] has done to the pools, and which machine it
    returns. *)
Lemma Regexp_Get_world (w w' : World) (re : Regexp) (choice : option nat)
    (id : nat) (m : Machine) :
  Regexp_Get w re choice = Done (w', (id, m)) ->
  exists pl,
    at_ (matchPool w) (re_mpool re) = Done pl
    /\ matchPool w'
       = set_nth (matchPool w) (Z.to_nat (re_mpool re))
           (snd (Pool_Get pl choice))
    /\ match fst (Pool_Get pl choice) with
       | Some im => id = fst im /\ w_next w' = w_next w
       | None => id = w_next w /\ w_next w' = S (w_next w)
       end.
Proof.
  unfold Regexp_Get. intros H.
  apply bind_Done in H. destruct H as [pl [Hpl H]].
  exists pl. split; [exact Hpl|].
  destruct (Pool_Get pl choice) as [got pl'] eqn:Hget.
  apply bind_Done in H. destruct H as [pools' [Hup H]].
  apply upd_inv in Hup. destruct Hup as [_ ->]. cbn [fst snd].
  destruct got as [[i0 m0]|].
  - apply bind_Done in H; destruct H as [ma [_ H]].
    apply bind_Done in H; destruct H as [mb [_ H]].
    apply bind_Done in H; destruct H as [[mc rest] [_ H]].
    apply bind_Done in H; destruct H as [n [_ H]].
    inversion H; subst. simpl. auto.
  - apply bind_Done in H; destruct H as [ma [_ H]].
    apply bind_Done in H; destruct H as [mb [_ H]].
    apply bind_Done in H; destruct H as [[mc rest] [_ H]].
    apply bind_Done in H; destruct H as [n [_ H]].
    inversion H; subst. simpl. auto.
Qed.

(** X17. A machine put back and handed out again by the next [Get] is the
    same machine: the pools are as before the [Put], both queues are
    empty, the threads that were on them are on the free list after those
    already there, and the machine is bound to the regexp with [accum]
    zero and [matched] false. *)
Theorem Put_then_Get (w w1 w2 : World) (re : Regexp) (id id' : nat)
    (m m' : Machine) :
  Regexp_Put w re (id, m) = Done w1 ->
  Regexp_Get w1 re (Some 0%nat) = Done (w2, (id', m')) ->
  id' = id
  /\ matchPool w2 = matchPool w /\ w_next w2 = w_next w
  /\ q_dense (m_q0 m') = [] /\ q_dense (m_q1 m') = []
  /\ m_pool m' = m_pool m ++ threadsOf (q_dense (m_q0 m))
                   ++ threadsOf (q_dense (m_q1 m))
  /\ m_re m' = Some re /\ m_accum m' = 0 /\ m_matched m' = false.
Proof.
  intros Hput Hget.
  unfold Regexp_Put in Hput.
  apply bind_Done in Hput. destruct Hput as [pl [Hpl Hput]].
  apply bind_Done in Hput. destruct Hput as [pools' [Hup Hput]].
  inversion Hput; subst w1. clear Hput.
  apply upd_inv in Hup. destruct Hup as [Hr ->].
  cbn [fst snd] in *.
  set (mc := mkMachine None None _ _ _ _ _ _ _ _) in *.
  assert (Hat : at_ (set_nth (matchPool w) (Z.to_nat (re_mpool re))
                       (Pool_Put pl (id, mc))) (re_mpool re)
                = Done (Pool_Put pl (id, mc))).
  { apply at_set_nth_same. exact Hr. }
  pose proof (Regexp_Get_world _ _ _ _ _ _ Hget) as [pl1 [P1 [P2 P3]]].
  pose proof (Regexp_Get_machine _ _ _ _ _ _ Hget)
    as [pl2 [m0 [n [M1 [M2 [_ [M4 [_ [M6 [M7 [_ [M9 M10]]]]]]]]]]]].
  cbn [matchPool w_next] in *.
  rewrite Hat in P1, M1. inversion P1; subst pl1. inversion M1; subst pl2.
  unfold Pool_Put, Pool_Get in *. cbn [nth_error fst snd firstn skipn app] in *.
  destruct P3 as [-> P3]. subst m0.
  split; [reflexivity|]. split.
  { rewrite P2, set_nth_set_nth. apply set_nth_same.
    apply at_Done in Hpl. destruct Hpl as [_ Hpl]. exact Hpl. }
  split; [exact P3|].
  assert (Hd0 : q_dense (m_q0 mc) = []) by (unfold mc; destruct m; reflexivity).
  assert (Hd1 : q_dense (m_q1 mc) = []) by (unfold mc; destruct m; reflexivity).
  assert (Hq : q_dense (m_q0 m') = [] /\ q_dense (m_q1 m') = []).
  { destruct (_ <? n); destruct M10 as [-> ->]; auto. }
  destruct Hq as [Hq0 Hq1].
  split; [exact Hq0|]. split; [exact Hq1|].
  split.
  { rewrite M9. unfold mc. destruct m; simpl. rewrite <- app_assoc.
    reflexivity. }
  auto.
Qed.

Lemma Put_then_Get_witness :
  0%nat = 0%nat
  /\ matchPool (fst (fromDone (initWorld, (0%nat, newMachine))
                       (Regexp_Get
                          (fromDone initWorld
                             (Regexp_Put initWorld (perlRegexp prog_abc)
                                (0%nat, machine_abc_xab)))
                          (perlRegexp prog_abc) (Some 0%nat))))
     = matchPool initWorld
  /\ w_next (fst (fromDone (initWorld, (0%nat, newMachine))
                    (Regexp_Get
                       (fromDone initWorld
                          (Regexp_Put initWorld (perlRegexp prog_abc)
                             (0%nat, machine_abc_xab)))
                       (perlRegexp prog_abc) (Some 0%nat))))
     = w_next initWorld
  /\ q_dense (m_q0 (snd (snd (fromDone (initWorld, (0%nat, newMachine))
                    (Regexp_Get
                       (fromDone initWorld
                          (Regexp_Put initWorld (perlRegexp prog_abc)
                             (0%nat, machine_abc_xab)))
                       (perlRegexp prog_abc) (Some 0%nat)))))) = []
  /\ q_dense (m_q1 (snd (snd (fromDone (initWorld, (0%nat, newMachine))
                    (Regexp_Get
                       (fromDone initWorld
                          (Regexp_Put initWorld (perlRegexp prog_abc)
                             (0%nat, machine_abc_xab)))
                       (perlRegexp prog_abc) (Some 0%nat)))))) = []
  /\ m_pool (snd (snd (fromDone (initWorld, (0%nat, newMachine))
                    (Regexp_Get
                       (fromDone initWorld
                          (Regexp_Put initWorld (perlRegexp prog_abc)
                             (0%nat, machine_abc_xab)))
                       (perlRegexp prog_abc) (Some 0%nat)))))
     = m_pool machine_abc_xab ++ threadsOf (q_dense (m_q0 machine_abc_xab))
         ++ threadsOf (q_dense (m_q1 machine_abc_xab))
  /\ m_re (snd (snd (fromDone (initWorld, (0%nat, newMachine))
                    (Regexp_Get
                       (fromDone initWorld
                          (Regexp_Put initWorld (perlRegexp prog_abc)
                             (0%nat, machine_abc_xab)))
                       (perlRegexp prog_abc) (Some 0%nat)))))
     = Some (perlRegexp prog_abc)
  /\ m_accum (snd (snd (fromDone (initWorld, (0%nat, newMachine))
                    (Regexp_Get
                       (fromDone initWorld
                          (Regexp_Put initWorld (perlRegexp prog_abc)
                             (0%nat, machine_abc_xab)))
                       (perlRegexp prog_abc) (Some 0%nat))))) = 0
  /\ m_matched (snd (snd (fromDone (initWorld, (0%nat, newMachine))
                    (Regexp_Get
                       (fromDone initWorld
                          (Regexp_Put initWorld (perlRegexp prog_abc)
                             (0%nat, machine_abc_xab)))
                       (perlRegexp prog_abc) (Some 0%nat))))) = false.
Proof.
  apply (Put_then_Get initWorld
           (fromDone initWorld
              (Regexp_Put initWorld (perlRegexp prog_abc)
                 (0%nat, machine_abc_xab)))
           (fst (fromDone (initWorld, (0%nat, newMachine))
                   (Regexp_Get
                      (fromDone initWorld
                         (Regexp_Put initWorld (perlRegexp prog_abc)
                            (0%nat, machine_abc_xab)))
                      (perlRegexp prog_abc) (Some 0%nat))))
           (perlRegexp prog_abc) 0%nat 0%nat machine_abc_xab).
  - vm_compute. reflexivity.
  - vm_compute. reflexivity.
Defined.

(** ** A match needs input *)

Lemma matched_setq m q v : m_matched (setq m q v) = m_matched m.
Proof. destruct q; reflexivity. Qed.

Lemma capWrite_matched m c v m' :
  capWrite m c v = Done m' -> m_matched m' = m_matched m.
Proof.
  destruct c; simpl; intros H.
  - inversion H; reflexivity.
  - apply bind_Done in H. destruct H as [th [_ H]]. inversion H; reflexivity.
Qed.

Lemma alloc_matched m i m' t :
  alloc m i = Done (m', t) -> m_matched m' = m_matched m.
Proof.
  unfold alloc. destruct (rev (m_pool m)); intros H.
  - inversion H; reflexivity.
  - apply bind_Done in H. destruct H as [th [_ H]]. inversion H; reflexivity.
Qed.

Section NilThread.

Variable X : Externals.

(** [add] called with no thread returns none and records no match: the
    case [InstMatch] reads [t.cap]. *)
Lemma add_nil :
  forall fuel m q pc pos cap cond m' t',
    add X fuel m q pc pos cap cond None = Done (m', t') ->
    m_matched m' = m_matched m /\ t' = None.
Proof.
  induction fuel as [|fuel IH]; intros m q pc pos cap cond m' t' H;
    [discriminate|].
  simpl in H.
  destruct (pc =? 0); [inversion H; auto|].
  apply bind_Done in H. destruct H as [j [_ H]].
  apply bind_Done in H. destruct H as [present [_ H]].
  destruct present; [inversion H; auto|].
  destruct (_ <? _); [discriminate|].
  apply bind_Done in H. destruct H as [sparse' [_ H]].
  apply bind_Done in H. destruct H as [prog [_ H]].
  apply bind_Done in H. destruct H as [i [_ H]].
  set (m0 := setq m q _) in H.
  assert (E0 : m_matched m0 = m_matched m) by apply matched_setq.
  assert (Hrune :
    forall r : result (Machine * option nat),
      r = Done (m', t') ->
      (exists m1 tid dense',
         (' (m2, tid2) <- alloc m0 pc ;;
          th <- getThread m2 tid2 ;;
          c <- capRead m2 cap ;;
          Done (putThread m2 tid2
                  (mkThread (t_inst th) (copy (t_cap th) c) (t_cap_rest th)),
                tid2)) = Done (m1, tid)
         /\ r = Done (setq m1 q (mkQueue (q_sparse (getq m1 q)) dense'), None)) ->
      m_matched m' = m_matched m /\ t' = None).
  { intros r Hr [m1 [tid [dense' [H1 H2]]]]. rewrite H2 in Hr.
    inversion Hr; subst. split; [|reflexivity]. rewrite matched_setq.
    apply bind_Done in H1. destruct H1 as [[m2 tid2] [A H1]].
    apply bind_Done in H1. destruct H1 as [th [_ H1]].
    apply bind_Done in H1. destruct H1 as [c [_ H1]].
    inversion H1; subst. apply alloc_matched in A. simpl. congruence. }
  destruct (Op i).
  - apply bind_Done in H. destruct H as [[m1 t1] [H1 H]].
    apply IH in H1. destruct H1 as [A ->].
    apply IH in H. destruct H as [B ->]. split; congruence.
  - apply bind_Done in H. destruct H as [[m1 t1] [H1 H]].
    apply IH in H1. destruct H1 as [A ->].
    apply IH in H. destruct H as [B ->]. split; congruence.
  - apply bind_Done in H. destruct H as [c [_ H]].
    destruct (_ <? _).
    + apply bind_Done in H. destruct H as [opos [_ H]].
      apply bind_Done in H. destruct H as [c' [_ H]].
      apply bind_Done in H. destruct H as [m1 [H1 H]].
      apply bind_Done in H. destruct H as [[m2 t2] [H2 H]].
      apply bind_Done in H. destruct H as [c2 [_ H]].
      apply bind_Done in H. destruct H as [c2' [_ H]].
      apply bind_Done in H. destruct H as [m3 [H3 H]].
      inversion H; subst.
      apply capWrite_matched in H1, H3. apply IH in H2.
      destruct H2 as [A _]. split; congruence.
    + apply IH in H. destruct H as [A ->]. split; congruence.
  - destruct (lazyFlag_match _ _ _).
    + apply IH in H. destruct H as [A ->]. split; congruence.
    + inversion H; subst. auto.
  - (* InstMatch: [t.cap] with [t] nil *)
    apply bind_Done in H. destruct H as [re [_ H]]. discriminate.
  - inversion H; subst. auto.
  - apply IH in H. destruct H as [A ->]. split; congruence.
  - apply bind_Done in H. destruct H as [[m1 tid] [H1 H]].
    apply bind_Done in H. destruct H as [dense' [_ H]].
    eapply Hrune; [exact H|]. exists m1, tid, dense'. auto.
  - apply bind_Done in H. destruct H as [[m1 tid] [H1 H]].
    apply bind_Done in H. destruct H as [dense' [_ H]].
    eapply Hrune; [exact H|]. exists m1, tid, dense'. auto.
  - apply bind_Done in H. destruct H as [[m1 tid] [H1 H]].
    apply bind_Done in H. destruct H as [dense' [_ H]].
    eapply Hrune; [exact H|]. exists m1, tid, dense'. auto.
  - apply bind_Done in H. destruct H as [[m1 tid] [H1 H]].
    apply bind_Done in H. destruct H as [dense' [_ H]].
    eapply Hrune; [exact H|]. exists m1, tid, dense'. auto.
Qed.

Lemma matchExit_flag m l :
  snd (snd (matchExit m l)) = m_matched (fst (matchExit m l))
  /\ m_matched (fst (matchExit m l)) = m_matched m.
Proof. unfold matchExit. cbn [fst snd]. rewrite !matched_setq. auto. Qed.

(** The flag returned is [m.matched]. *)
Lemma weave_flag fuel i m l k :
  (forall m1 l1 m' r, k m1 l1 = Done (m', r) ->
                      snd r = m_matched m') ->
  forall m' r, weave X fuel i m l k = Done (m', r) -> snd r = m_matched m'.
Proof.
  intros Hk m' r H. unfold weave in H.
  apply bind_Done in H. destruct H as [m1 [_ H]].
  destruct (l_width l =? 0).
  { inversion H. apply matchExit_flag. }
  apply bind_Done in H. destruct H as [m2 [_ H]].
  destruct (m_matched m2).
  { inversion H. apply matchExit_flag. }
  destruct (len _ =? 0).
  - apply bind_Done in H. destruct H as [[r0 w0] [_ H]].
    apply bind_Done in H. destruct H as [[r1 w1] [_ H]].
    exact (Hk _ _ _ _ H).
  - apply bind_Done in H. destruct H as [[r1 w1] [_ H]].
    exact (Hk _ _ _ _ H).
Qed.

Lemma matchLoop_flag fuel i :
  forall steps m l m' r,
    matchLoop X fuel steps i m l = Done (m', r) -> snd r = m_matched m'.
Proof.
  induction steps as [|steps IH]; intros m l m' r H; [discriminate|].
  simpl in H.
  destruct (len _ =? 0).
  - destruct (m_matched m) eqn:Hm.
    { inversion H. apply matchExit_flag. }
    apply bind_Done in H. destruct H as [re [_ H]].
    destruct (_ || _).
    { eapply weave_flag; [|exact H]. intros; eapply IH; eauto. }
    apply bind_Done in H. destruct H as [[i' o'] [_ H]].
    destruct (o' =? _).
    + eapply weave_flag; [|exact H]. intros; eapply IH; eauto.
    + inversion H; subst. simpl. congruence.
  - eapply weave_flag; [|exact H]. intros; eapply IH; eauto.
Qed.

(** With no rune left to read, [weave] leaves through its first exit. *)
Lemma weave_exhausted fuel i m l k m' r :
  m_matched m = false -> l_width l = 0 ->
  weave X fuel i m l k = Done (m', r) -> snd r = false.
Proof.
  intros Hm Hw H. unfold weave in H. rewrite Hm, Hw in H. cbn [negb] in H.
  apply bind_Done in H. destruct H as [m1 [H1 H]].
  change (0 =? 0) with true in H. cbv iota in H.
  pose proof (matchExit_flag m1 l) as [F1 F2].
  destruct (matchExit m1 l) as [mx rx]. cbn [fst snd] in F1, F2.
  inversion H; subst. rewrite F1, F2. clear F1 F2 H.
  apply bind_Done in H1. destruct H1 as [m2 [H2 H1]].
  apply bind_Done in H1. destruct H1 as [prog [_ H1]].
  apply bind_Done in H1. destruct H1 as [[m3 t3] [H3 H1]].
  inversion H1; subst. apply add_nil in H3. destruct H3 as [A _].
  rewrite A. destruct (0 <? len (m_matchcap m)).
  - apply bind_Done in H2. destruct H2 as [mc [_ H2]].
    inversion H2; subst. exact Hm.
  - inversion H2; subst. exact Hm.
Qed.

Lemma match_needs_input fuel m i index offset m' r :
  m_matched m = false ->
  match_ X fuel m i index offset = Done (m', r) ->
  snd r = m_matched m' /\ (snd r = true -> index + offset < len i).
Proof.
  intros Hm H. unfold match_ in H.
  apply bind_Done in H. destruct H as [re [_ H]].
  destruct (_ =? EmptyAll).
  { inversion H; subst. cbn [snd]. split; [congruence | discriminate]. }
  apply bind_Done in H. destruct H as [[r0 w0] [H0 H]].
  apply bind_Done in H. destruct H as [[r1 w1] [_ H]].
  apply bind_Done in H. destruct H as [flag [_ H]].
  split; [exact (matchLoop_flag _ _ _ _ _ _ _ H)|].
  intros Hok. destruct (Z.lt_ge_cases (index + offset) (len i)) as [|Hge];
    [assumption|]. exfalso.
  unfold input_step in H0.
  destruct (Z.ltb_spec (index + offset) (len i)); [lia|].
  inversion H0; subst r0 w0. clear H0.
  destruct fuel as [|steps]; [discriminate|].
  cbn [matchLoop l_runq l_offset l_index] in H.
  assert (W : forall k m2 r2,
             weave X (S steps) i m
               (mkLocals index offset endOfText 0 r1 w1 flag Q0) k
               = Done (m2, r2) -> snd r2 = false).
  { intros k m2 r2. apply weave_exhausted; [exact Hm | reflexivity]. }
  destruct (len _ =? 0).
  - rewrite Hm in H.
    apply bind_Done in H. destruct H as [re' [_ H]].
    destruct (_ || _).
    { apply W in H. congruence. }
    apply bind_Done in H. destruct H as [[i' o'] [_ H]].
    destruct (o' =? _).
    + apply W in H. congruence.
    + inversion H; subst. discriminate.
  - apply W in H. congruence.
Qed.

End NilThread.

(** X18. [Machine.Match] reports a match only when there is input left at
    the resume point: on an empty buffer, or one read to its end, a
    machine that enters with [matched] false returns no match, whatever
    the program, also one for an expression that matches the empty
    string.  A thread is needed to record a match, [add] is given none
    before a rune is read.  And the machine leaves with [matched] false
    again. *)
Theorem Machine_Match_needs_input (X : Externals) (fuel : nat)
    (m m' : Machine) (index offset : Z) (buf : bytes) (r : Z * Z * bool) :
  m_matched m = false ->
  Machine_Match X fuel m index offset buf = Done (m', r) ->
  m_matched m' = false
  /\ (snd r = true -> index + offset < len buf).
Proof.
  intros Hm H. unfold Machine_Match in H.
  apply bind_Done in H. destruct H as [[m1 [[idx off] ok]] [H1 H]].
  apply (match_needs_input X) in H1; [|exact Hm].
  cbn [snd] in H1. destruct H1 as [A B].
  destruct ok; cbn [negb] in H.
  - apply bind_Done in H. destruct H as [mc0 [_ H]].
    apply bind_Done in H. destruct H as [mc1 [_ H]].
    inversion H; subst. cbn [snd]. split; [reflexivity|].
    intros _. apply B. reflexivity.
  - apply bind_Done in H. destruct H as [ths [_ H]].
    apply bind_Done in H. destruct H as [shift [_ H]].
    destruct (shift =? MaxInt); inversion H; subst; cbn [snd];
      split; try discriminate; simpl; congruence.
Qed.

Lemma Machine_Match_needs_input_witness :
  m_matched (fst (fromDone (newMachine, (0, 0, false))
                    (Machine_Match asciiExternals 8 machine_abc_xab 1 2
                       (str "xabc")))) = false
  /\ (snd (snd (fromDone (newMachine, (0, 0, false))
                  (Machine_Match asciiExternals 8 machine_abc_xab 1 2
                     (str "xabc")))) = true
      -> 1 + 2 < len (str "xabc")).
Proof.
  apply (Machine_Match_needs_input asciiExternals 8 machine_abc_xab
           (fst (fromDone (newMachine, (0, 0, false))
                   (Machine_Match asciiExternals 8 machine_abc_xab 1 2
                      (str "xabc"))))
           1 2 (str "xabc")
           (snd (fromDone (newMachine, (0, 0, false))
                   (Machine_Match asciiExternals 8 machine_abc_xab 1 2
                      (str "xabc"))))).
  - reflexivity.
  - vm_compute. reflexivity.
Defined.

(** ** Threads are not shared *)

Lemma cnt_app x a b : cnt x (a ++ b) = (cnt x a + cnt x b)%nat.
Proof. apply count_occ_app. Qed.

Lemma cnt_nil x : cnt x [] = 0%nat.
Proof. reflexivity. Qed.

Lemma cnt_cons x y l :
  cnt x (y :: l) = ((if Nat.eq_dec y x then 1 else 0) + cnt x l)%nat.
Proof. unfold cnt. simpl. destruct (Nat.eq_dec y x); reflexivity. Qed.

Lemma cnt_rev x l : cnt x (rev l) = cnt x l.
Proof.
  induction l as [|a l IH]; [reflexivity|].
  simpl rev. rewrite cnt_app, IH, !cnt_cons, cnt_nil. lia.
Qed.

Lemma unshared_cnt n l :
  unshared n l
  <-> forall x, (cnt x l <= 1)%nat /\ ((n <= x)%nat -> cnt x l = 0%nat).
Proof.
  unfold unshared, cnt. split.
  - intros [Hnd Hall] x. split.
    + apply (proj1 (NoDup_count_occ Nat.eq_dec l) Hnd).
    + intros Hx. apply count_occ_not_In. intros Hin.
      rewrite Forall_forall in Hall. apply Hall in Hin. lia.
  - intros H. split.
    + apply (NoDup_count_occ Nat.eq_dec). intros x. apply H.
    + apply Forall_forall. intros x Hin.
      destruct (Nat.lt_ge_cases x n) as [|Hge]; [assumption|].
      apply (proj2 (H x)) in Hge.
      apply (count_occ_not_In Nat.eq_dec) in Hge. contradiction.
Qed.

Lemma threadsOf_app a b : threadsOf (a ++ b) = threadsOf a ++ threadsOf b.
Proof.
  induction a as [|e a IH]; [reflexivity|].
  simpl. destruct (e_t e); simpl; rewrite IH; reflexivity.
Qed.

Lemma cnt_threadsOf_skipn x k :
  forall d, (cnt x (threadsOf (skipn k d)) <= cnt x (threadsOf d))%nat.
Proof.
  intros d. rewrite <- (firstn_skipn k d) at 2.
  rewrite threadsOf_app, cnt_app. lia.
Qed.

Lemma set_nth_last {A : Type} (l : list A) (a b : A) :
  set_nth (l ++ [a]) (List.length l) b = l ++ [b].
Proof. induction l as [|x l IH]; simpl; [reflexivity | rewrite IH; reflexivity]. Qed.

Lemma pool_setq m q v : m_pool (setq m q v) = m_pool m.
Proof. destruct q; reflexivity. Qed.

Lemma threads_setq m q v : m_threads (setq m q v) = m_threads m.
Proof. destruct q; reflexivity. Qed.

Lemma capWrite_foot m c v m' :
  capWrite m c v = Done m' ->
  m_pool m' = m_pool m
  /\ List.length (m_threads m') = List.length (m_threads m).
Proof.
  destruct c; simpl; intros H.
  - inversion H; subst. auto.
  - apply bind_Done in H. destruct H as [th [_ H]]. inversion H; subst.
    simpl. rewrite length_set_nth. auto.
Qed.

Lemma rev_cons_inv {A : Type} (l rest : list A) (a : A) :
  rev l = a :: rest -> l = rev rest ++ [a].
Proof.
  intros H. rewrite <- (rev_involutive l), H. reflexivity.
Qed.

(** [alloc] takes the last thread of the free list, or a new one. *)
Lemma alloc_foot m i m' t :
  alloc m i = Done (m', t) ->
  (m_pool m = m_pool m' ++ [t]
   /\ List.length (m_threads m') = List.length (m_threads m))
  \/ (m_pool m' = m_pool m /\ t = List.length (m_threads m)
      /\ List.length (m_threads m') = S (List.length (m_threads m))).
Proof.
  unfold alloc. destruct (rev (m_pool m)) as [|t0 rest] eqn:E; intros H.
  - inversion H; subst. right. simpl. rewrite length_app. simpl.
    split; [reflexivity|]. split; [reflexivity | lia].
  - apply bind_Done in H. destruct H as [th [_ H]]. inversion H; subst.
    left. simpl. rewrite length_set_nth. split; [|reflexivity].
    apply rev_cons_inv. exact E.
Qed.

Ltac cnt_simpl :=
  repeat rewrite ?cnt_app, ?cnt_cons, ?cnt_nil, ?threadsOf_app in *.

Section Ownership.

Variable X : Externals.

(** The threads [add] is given and those it leaves: the free list, the
    queue it adds to, its thread argument, and any other threads [fr]. *)
Lemma add_own :
  forall fuel m q pc pos cap cond t m' t' fr,
    add X fuel m q pc pos cap cond t = Done (m', t') ->
    unshared (List.length (m_threads m))
      (m_pool m ++ threadsOf (q_dense (getq m q)) ++ optl t ++ fr) ->
    unshared (List.length (m_threads m'))
      (m_pool m' ++ threadsOf (q_dense (getq m' q)) ++ optl t' ++ fr)
    /\ (List.length (m_threads m) <= List.length (m_threads m'))%nat
    /\ getq m' (other q) = getq m (other q).
Proof.
  induction fuel as [|fuel IH]; intros m q pc pos cap cond t m' t' fr H U;
    [discriminate|].
  simpl in H.
  destruct (pc =? 0); [inversion H; subst; auto|].
  apply bind_Done in H. destruct H as [j0 [Hj0 H]].
  apply bind_Done in H. destruct H as [present [Hpres H]].
  destruct present; [inversion H; subst; auto|].
  match type of H with
  | (if ?c then Panic else _) = _ => destruct c; [discriminate|]
  end.
  apply bind_Done in H. destruct H as [sparse' [Hupd H]].
  set (d := q_dense (getq m q)) in *.
  set (m0 := setq m q (mkQueue sparse' (d ++ [mkEntry pc None]))) in H.
  assert (Q0 : getq m0 q = mkQueue sparse' (d ++ [mkEntry pc None]))
    by apply getq_setq_same.
  assert (O0 : getq m0 (other q) = getq m (other q))
    by apply getq_setq_other.
  assert (P0 : m_pool m0 = m_pool m) by apply pool_setq.
  assert (T0 : m_threads m0 = m_threads m) by apply threads_setq.
  assert (U0 : unshared (List.length (m_threads m0))
                 (m_pool m0 ++ threadsOf (q_dense (getq m0 q))
                    ++ optl t ++ fr)).
  { rewrite T0, P0, Q0. cbn [q_dense]. rewrite threadsOf_app. simpl.
    rewrite app_nil_r. exact U. }
  apply bind_Done in H. destruct H as [prog [_ H]].
  apply bind_Done in H. destruct H as [i [_ H]].
  assert (Hrec : forall pc' m1 t1,
             add X fuel m0 q pc' pos cap cond t = Done (m1, t1) ->
             unshared (List.length (m_threads m1))
               (m_pool m1 ++ threadsOf (q_dense (getq m1 q)) ++ optl t1 ++ fr)
             /\ (List.length (m_threads m) <= List.length (m_threads m1))%nat
             /\ getq m1 (other q) = getq m (other q)).
  { intros pc' m1 t1 H1. apply (IH _ _ _ _ _ _ _ _ _ fr) in H1; [|exact U0].
    rewrite T0, O0 in H1. exact H1. }
  assert (Hrune :
            ('(m1, tid) <- match t with
                           | None =>
                             '(m1, tid) <- alloc m0 pc ;;
                             th <- getThread m1 tid ;;
                             c <- capRead m1 cap ;;
                             Done (putThread m1 tid
                                     (mkThread (t_inst th)
                                        (copy (t_cap th) c)
                                        (t_cap_rest th)), tid)
                           | Some tid =>
                             th <- getThread m0 tid ;;
                             Done (putThread m0 tid
                                     (mkThread pc (t_cap th)
                                        (t_cap_rest th)), tid)
                           end ;;
             let qu := getq m1 q in
             dense' <- upd (q_dense qu) (len d) (mkEntry pc (Some tid)) ;;
             Done (setq m1 q (mkQueue (q_sparse qu) dense'), None))
            = Done (m', t') ->
            unshared (List.length (m_threads m'))
              (m_pool m' ++ threadsOf (q_dense (getq m' q)) ++ optl t' ++ fr)
            /\ (List.length (m_threads m) <= List.length (m_threads m'))%nat
            /\ getq m' (other q) = getq m (other q)).
  { clear H IH. intros H.
    apply bind_Done in H. destruct H as [[m1 tid] [H1 H]].
    assert (F : (forall q', getq m1 q' = getq m0 q')
                /\ ((m_pool m1 = m_pool m0 /\ t = Some tid
                     /\ List.length (m_threads m1)
                        = List.length (m_threads m0))
                    \/ (t = None /\ m_pool m0 = m_pool m1 ++ [tid]
                        /\ List.length (m_threads m1)
                           = List.length (m_threads m0))
                    \/ (t = None /\ m_pool m1 = m_pool m0
                        /\ tid = List.length (m_threads m0)
                        /\ List.length (m_threads m1)
                           = S (List.length (m_threads m0))))).
    { destruct t as [tid0|].
      - apply bind_Done in H1. destruct H1 as [th [_ H1]].
        inversion H1; subst. split; [intros q'; apply getq_putThread|].
        left. simpl. rewrite length_set_nth. auto.
      - apply bind_Done in H1. destruct H1 as [[m2 tid2] [H2 H1]].
        apply bind_Done in H1. destruct H1 as [th [_ H1]].
        apply bind_Done in H1. destruct H1 as [c [_ H1]].
        inversion H1; subst.
        split; [intros q'; rewrite getq_putThread;
                apply (alloc_getq _ _ _ _ _ H2)|].
        right. simpl. rewrite length_set_nth.
        apply alloc_foot in H2. destruct H2 as [[A B]|[A [B C]]]; auto. }
    destruct F as [Fq F].
    cbv zeta in H. rewrite (Fq q), Q0 in H. cbn [q_dense q_sparse] in H.
    apply bind_Done in H. destruct H as [dense' [Hd H]].
    inversion H; subst m' t'. clear H.
    apply upd_inv in Hd. destruct Hd as [_ ->].
    unfold len. rewrite Nat2Z.id, set_nth_last.
    rewrite getq_setq_same, getq_setq_other, pool_setq, threads_setq.
    cbn [q_dense optl].
    rewrite T0 in *. rewrite P0 in *.
    split; [|split; [|rewrite (Fq (other q)); exact O0]].
    - apply unshared_cnt. intros x.
      pose proof (proj1 (unshared_cnt _ _) U x) as Ux. clear U.
      rename Ux into U. fold d in U.
      destruct F as [[A [B C]]|[[A [B C]]|[A [B [C D]]]]]; subst t;
        rewrite ?C, ?D; simpl optl in U.
      + rewrite A. cnt_simpl. simpl threadsOf. cnt_simpl.
        destruct (Nat.eq_dec tid x); lia.
      + rewrite B in U. cnt_simpl. simpl threadsOf. cnt_simpl.
        destruct (Nat.eq_dec tid x); lia.
      + rewrite B. cnt_simpl. simpl threadsOf. cnt_simpl.
        match goal with
        | |- context [Nat.eq_dec ?a x] => destruct (Nat.eq_dec a x) as [E|E]
        end; [|lia].
        subst x. destruct U as [_ U]. specialize (U (Nat.le_refl _)).
        lia.
    - destruct F as [[A [B C]]|[[A [B C]]|[A [B [C D]]]]]; lia. }
  destruct (Op i).
  - (* InstAlt *)
    apply bind_Done in H. destruct H as [[m1 t1] [H1 H]].
    apply Hrec in H1. destruct H1 as [A1 [B1 C1]].
    apply (IH _ _ _ _ _ _ _ _ _ fr) in H; [|exact A1].
    destruct H as [A [B C]].
    split; [exact A|]. split; [lia | congruence].
  - apply bind_Done in H. destruct H as [[m1 t1] [H1 H]].
    apply Hrec in H1. destruct H1 as [A1 [B1 C1]].
    apply (IH _ _ _ _ _ _ _ _ _ fr) in H; [|exact A1].
    destruct H as [A [B C]].
    split; [exact A|]. split; [lia | congruence].
  - (* InstCapture *)
    apply bind_Done in H. destruct H as [c [_ H]].
    match type of H with
    | (if ?b then _ else _) = _ => destruct b
    end.
    + apply bind_Done in H. destruct H as [opos [_ H]].
      apply bind_Done in H. destruct H as [c' [_ H]].
      apply bind_Done in H. destruct H as [m1 [H1 H]].
      apply bind_Done in H. destruct H as [[m2 t2] [H2 H]].
      apply bind_Done in H. destruct H as [c2 [_ H]].
      apply bind_Done in H. destruct H as [c2' [_ H]].
      apply bind_Done in H. destruct H as [m3 [H3 H]].
      inversion H; subst m' t'. clear H.
      pose proof (capWrite_getq _ _ _ _ q H1) as G1.
      pose proof (capWrite_foot _ _ _ _ H1) as [G1p G1t].
      pose proof (capWrite_getq _ _ _ _ q H3) as G3.
      pose proof (capWrite_getq _ _ _ _ (other q) H1) as G1'.
      pose proof (capWrite_getq _ _ _ _ (other q) H3) as G3'.
      pose proof (capWrite_foot _ _ _ _ H3) as [G3p G3t].
      pose proof (add_nil X _ _ _ _ _ _ _ _ _ H2) as [_ ->].
      apply (IH _ _ _ _ _ _ _ _ _ (optl t ++ fr)) in H2.
      * destruct H2 as [A2 [B2 C2]]. rewrite G3, G3', G3p, G3t.
        split; [exact A2|]. rewrite G1t, T0 in B2.
        split; [exact B2 | congruence].
      * rewrite G1, G1p, G1t. exact U0.
    + apply Hrec in H. exact H.
  - (* InstEmptyWidth *)
    destruct (lazyFlag_match _ _ _).
    + apply Hrec in H. exact H.
    + inversion H; subst. rewrite T0 in *.
      split; [exact U0|]. split; [lia | exact O0].
  - (* InstMatch *)
    apply bind_Done in H. destruct H as [re [_ H]].
    apply bind_Done in H. destruct H as [tid [_ H]].
    apply bind_Done in H. destruct H as [th [_ H]].
    apply bind_Done in H. destruct H as [record [_ H]].
    apply bind_Done in H. destruct H as [m1 [H1 H]].
    assert (F : (forall q', getq m1 q' = getq m0 q')
                /\ m_pool m1 = m_pool m0
                /\ List.length (m_threads m1) = List.length (m_threads m0)).
    { destruct record.
      - apply bind_Done in H1. destruct H1 as [c0 [_ H1]].
        apply bind_Done in H1. destruct H1 as [c' [_ H1]].
        apply bind_Done in H1. destruct H1 as [c'' [_ H1]].
        inversion H1; subst.
        split; [intros q'; rewrite getq_set_matchcap; apply getq_putThread|].
        simpl. rewrite length_set_nth. auto.
      - inversion H1; subst. auto. }
    destruct F as [Fq [Fp Ft]].
    inversion H; subst m' t'. clear H.
    destruct (negb (re_longest re)).
    + cbn [m_pool m_threads set_matched].
      rewrite !getq_set_matched, getq_setq_same, getq_setq_other,
        getq_set_pool, pool_setq, threads_setq.
      cbn [q_dense threadsOf app m_pool m_threads set_pool].
      rewrite Ft, Fp, !Fq, T0.
      split; [|split; [lia | exact O0]].
      apply unshared_cnt. intros x.
      pose proof (proj1 (unshared_cnt _ _) U0 x) as Ux. clear U0.
      rename Ux into U0. rewrite T0 in U0. unfold slice_from.
      pose proof (cnt_threadsOf_skipn x
                    (Z.to_nat (len d + 1)) (q_dense (getq m0 q))) as K.
      cnt_simpl. lia.
    + cbn [m_pool m_threads set_matched]. rewrite !getq_set_matched.
      rewrite Ft, Fp, !Fq, T0. rewrite T0 in U0.
      split; [exact U0|]. split; [lia | exact O0].
  - (* InstFail *)
    inversion H; subst. rewrite T0 in *.
    split; [exact U0|]. split; [lia | exact O0].
  - (* InstNop *) apply Hrec in H. exact H.
  - apply Hrune; exact H.
  - apply Hrune; exact H.
  - apply Hrune; exact H.
  - apply Hrune; exact H.
Qed.

End Ownership.

Section OwnershipOfMatch.

Variable X : Externals.

Lemma stepThread_own fuel m nextq nextPos c nextCond longest d m' fr :
  stepThread X fuel m nextq nextPos c nextCond longest d = Done m' ->
  unshared (List.length (m_threads m))
    (m_pool m ++ threadsOf (q_dense (getq m nextq)) ++ threadsOf [d] ++ fr) ->
  unshared (List.length (m_threads m'))
    (m_pool m' ++ threadsOf (q_dense (getq m' nextq)) ++ fr)
  /\ (List.length (m_threads m) <= List.length (m_threads m'))%nat
  /\ getq m' (other nextq) = getq m (other nextq).
Proof.
  unfold stepThread. simpl threadsOf.
  destruct (e_t d) as [tid|]; intros H U;
    [|inversion H; subst; auto].
  apply bind_Done in H. destruct H as [th [_ H]].
  apply bind_Done in H. destruct H as [skip [_ H]].
  destruct skip.
  { inversion H; subst. cbn [m_pool m_threads set_pool].
    rewrite !getq_set_pool. split; [|auto].
    apply unshared_cnt. intros x.
    pose proof (proj1 (unshared_cnt _ _) U x) as Ux.
    cnt_simpl. destruct (Nat.eq_dec tid x); lia. }
  apply bind_Done in H. destruct H as [prog [_ H]].
  apply bind_Done in H. destruct H as [i [_ H]].
  apply bind_Done in H. destruct H as [doAdd [_ H]].
  apply bind_Done in H. destruct H as [[m1 t1] [H1 H]].
  assert (A : unshared (List.length (m_threads m1))
                (m_pool m1 ++ threadsOf (q_dense (getq m1 nextq))
                   ++ optl t1 ++ fr)
              /\ (List.length (m_threads m) <= List.length (m_threads m1))%nat
              /\ getq m1 (other nextq) = getq m (other nextq)).
  { destruct doAdd.
    - apply (add_own X _ _ _ _ _ _ _ _ _ _ fr) in H1; [exact H1|].
      exact U.
    - inversion H1; subst. auto. }
  destruct A as [A [B C]].
  destruct t1 as [t|]; inversion H; subst; [|auto].
  cbn [m_pool m_threads set_pool]. rewrite !getq_set_pool.
  split; [|auto].
  apply unshared_cnt. intros x.
  pose proof (proj1 (unshared_cnt _ _) A x) as Ax. simpl optl in Ax.
  cnt_simpl. destruct (Nat.eq_dec t x); lia.
Qed.

Lemma stepLoop_own fuel nextq nextPos c nextCond longest fr :
  forall ds m m',
    stepLoop X fuel m nextq nextPos c nextCond longest ds = Done m' ->
    unshared (List.length (m_threads m))
      (m_pool m ++ threadsOf (q_dense (getq m nextq)) ++ threadsOf ds ++ fr) ->
    unshared (List.length (m_threads m'))
      (m_pool m' ++ threadsOf (q_dense (getq m' nextq)) ++ fr)
    /\ (List.length (m_threads m) <= List.length (m_threads m'))%nat
    /\ getq m' (other nextq) = getq m (other nextq).
Proof.
  induction ds as [|d ds IH]; intros m m' H U; simpl in H.
  - inversion H; subst. auto.
  - apply bind_Done in H. destruct H as [m1 [H1 H]].
    apply (stepThread_own _ _ _ _ _ _ _ _ _ (threadsOf ds ++ fr)) in H1.
    + destruct H1 as [A [B C]]. apply IH in H; [|exact A].
      destruct H as [A' [B' C']]. split; [exact A'|].
      split; [lia | congruence].
    + change (d :: ds) with ([d] ++ ds) in U.
      rewrite threadsOf_app, <- app_assoc in U. exact U.
Qed.

(** The threads of a machine, from the queue [q]. *)
Lemma threadsOk_from (m : Machine) (q : qsel) :
  threadsOk m
  <-> unshared (List.length (m_threads m))
        (m_pool m ++ threadsOf (q_dense (getq m q))
           ++ threadsOf (q_dense (getq m (other q))) ++ []).
Proof.
  unfold threadsOk, owned. rewrite !unshared_cnt.
  split; intros H x; specialize (H x); destruct q; simpl getq in *;
    cnt_simpl; lia.
Qed.

Lemma step_own fuel m runq pos nextPos c nextCond m' :
  step X fuel m runq (other runq) pos nextPos c nextCond = Done m' ->
  threadsOk m -> threadsOk m'.
Proof.
  unfold step. intros H U.
  apply bind_Done in H. destruct H as [re [_ H]].
  apply bind_Done in H. destruct H as [m1 [H1 H]].
  inversion H; subst. clear H.
  apply (stepLoop_own _ _ _ _ _ _ []) in H1.
  - destruct H1 as [A [B C]].
    apply (proj2 (threadsOk_from _ (other runq))).
    rewrite other_other, getq_setq_same, pool_setq, threads_setq.
    replace (getq (setq m1 runq (mkQueue (q_sparse (getq m1 runq)) []))
               (other runq)) with (getq m1 (other runq)).
    + cbn [q_dense threadsOf app]. exact A.
    + symmetry. apply getq_setq_other.
  - apply (proj1 (threadsOk_from _ (other runq))) in U.
    rewrite other_other in U. exact U.
Qed.

Lemma matchExit_own m l :
  threadsOk m -> threadsOk (fst (matchExit m l)).
Proof.
  unfold matchExit. cbn [fst]. intros U.
  apply (proj1 (threadsOk_from _ (l_runq l))) in U.
  unfold threadsOk, owned. cbn [m_q0 m_q1].
  destruct (l_runq l); simpl in *; exact
    (proj2 (threadsOk_from
              (mkMachine (m_re m) (m_p m) _ _ (m_pool m) (m_matched m)
                 (m_matchcap m) (m_matchcap_rest m) (m_accum m)
                 (m_threads m)) Q0) U).
Qed.

End OwnershipOfMatch.

Lemma threadsOk_frame (m m' : Machine) :
  m_pool m' = m_pool m -> (forall q, getq m' q = getq m q) ->
  List.length (m_threads m') = List.length (m_threads m) ->
  threadsOk m -> threadsOk m'.
Proof.
  intros Hp Hq Ht. unfold threadsOk, owned.
  rewrite Hp, Ht. change (m_q0 m') with (getq m' Q0).
  change (m_q1 m') with (getq m' Q1). rewrite !Hq. auto.
Qed.

Section OwnershipOfMachine.

Variable X : Externals.

Lemma weave_own fuel i m l continue_ m' r :
  (forall m1 l1 m2 r2,
      threadsOk m1 -> continue_ m1 l1 = Done (m2, r2) -> threadsOk m2) ->
  threadsOk m ->
  weave X fuel i m l continue_ = Done (m', r) ->
  threadsOk m'.
Proof.
  intros Hk Hok H. unfold weave in H.
  apply bind_Done in H. destruct H as [m1 [H1 H]].
  assert (E1 : threadsOk m1).
  { destruct (negb (m_matched m)).
    - apply bind_Done in H1. destruct H1 as [m2 [H2 H1]].
      apply bind_Done in H1. destruct H1 as [prog [_ H1]].
      apply bind_Done in H1. destruct H1 as [[m3 t3] [H3 H1]].
      inversion H1; subst.
      assert (E2 : threadsOk m2).
      { destruct (0 <? len (m_matchcap m)).
        - apply bind_Done in H2. destruct H2 as [mc [_ H2]].
          inversion H2; subst.
          apply (threadsOk_frame m); auto;
            intros q; apply getq_set_matchcap.
        - inversion H2; subst. exact Hok. }
      pose proof (add_nil X _ _ _ _ _ _ _ _ _ H3) as [_ ->].
      apply (add_own X _ _ _ _ _ _ _ _ _ _
               (threadsOf (q_dense (getq m2 (other (l_runq l))))
                  ++ [])) in H3.
      + destruct H3 as [A [_ C]].
        apply (proj2 (threadsOk_from _ (l_runq l))). rewrite C.
        exact A.
      + apply (proj1 (threadsOk_from _ (l_runq l))) in E2. exact E2.
    - inversion H1; subst; exact Hok. }
  destruct (l_width l =? 0).
  { inversion H; subst. apply (matchExit_own m1 l E1). }
  apply bind_Done in H. destruct H as [m2 [H2 H]].
  apply step_own in H2; [|exact E1].
  destruct (m_matched m2).
  { inversion H; subst.
    match goal with
    | |- threadsOk ?a =>
      change a with (fst (matchExit m2
                            (mkLocals (l_index l) (l_offset l + l_width l)
                               (l_r l) (l_width l) (l_r1 l) (l_width1 l)
                               (newLazyFlag (l_r l) (l_r1 l)) (l_runq l))))
    end.
    apply matchExit_own. exact H2. }
  match type of H with
  | (if ?b then _ else _) = _ => destruct b
  end.
  - cbv zeta in H.
    apply bind_Done in H. destruct H as [[r0 w0] [_ H]].
    apply bind_Done in H. destruct H as [[r1 w1] [_ H]].
    exact (Hk _ _ _ _ H2 H).
  - cbv zeta in H.
    apply bind_Done in H. destruct H as [[r1 w1] [_ H]].
    exact (Hk _ _ _ _ H2 H).
Qed.

Lemma matchLoop_own fuel i :
  forall steps m l m' r,
    threadsOk m ->
    matchLoop X fuel steps i m l = Done (m', r) ->
    threadsOk m'.
Proof.
  induction steps as [|steps IH]; intros m l m' r Hok H; [discriminate|].
  simpl in H.
  match type of H with
  | (if ?b then _ else _) = _ => destruct b
  end.
  - destruct (m_matched m).
    { inversion H; subst. apply (matchExit_own m l Hok). }
    apply bind_Done in H. destruct H as [re [_ H]].
    match type of H with
    | (if ?b then _ else _) = _ => destruct b
    end.
    { eapply weave_own; [| exact Hok | exact H].
      intros; eapply IH; eauto. }
    apply bind_Done in H. destruct H as [[i' o'] [_ H]].
    match type of H with
    | (if ?b then _ else _) = _ => destruct b
    end.
    + eapply weave_own; [| exact Hok | exact H].
      intros; eapply IH; eauto.
    + inversion H; subst; exact Hok.
  - eapply weave_own; [| exact Hok | exact H].
    intros; eapply IH; eauto.
Qed.

Lemma match_own fuel m i index offset m' r :
  threadsOk m ->
  match_ X fuel m i index offset = Done (m', r) ->
  threadsOk m'.
Proof.
  intros Hok. unfold match_. intros H.
  apply bind_Done in H. destruct H as [re [_ H]].
  match type of H with
  | (if ?b then _ else _) = _ => destruct b
  end; [inversion H; subst; exact Hok|].
  apply bind_Done in H. destruct H as [[r0 w0] [_ H]].
  apply bind_Done in H. destruct H as [[r1 w1] [_ H]].
  apply bind_Done in H. destruct H as [flag [_ H]].
  eapply matchLoop_own; eauto.
Qed.

End OwnershipOfMachine.

(** X19. [Machine.Match] shares no thread: when no thread is twice among
    the free list and the entries of the two queues before the call, none
    is after it.  A thread is never both free and queued, nor in two
    entries, so that [alloc] never hands out a thread that is still in a
    queue. *)
Theorem Machine_Match_shares_no_thread (X : Externals) (fuel : nat)
    (m m' : Machine) (index offset : Z) (buf : bytes) (r : Z * Z * bool) :
  threadsOk m ->
  Machine_Match X fuel m index offset buf = Done (m', r) ->
  threadsOk m'.
Proof.
  intros Hok H. unfold Machine_Match in H.
  apply bind_Done in H. destruct H as [[m1 [[idx off] ok]] [H1 H]].
  apply match_own in H1; [|exact Hok].
  destruct ok; cbn [negb] in H.
  - apply bind_Done in H. destruct H as [mc0 [_ H]].
    apply bind_Done in H. destruct H as [mc1 [_ H]].
    inversion H; subst. apply (threadsOk_frame m1); auto;
      intros q; rewrite getq_set_matched; apply getq_set_accum.
  - apply bind_Done in H. destruct H as [ths [_ H]].
    apply bind_Done in H. destruct H as [shift [_ H]].
    destruct (shift =? MaxInt); inversion H; subst;
      apply (threadsOk_frame m1); auto; intros q; apply getq_set_accum.
Qed.

Lemma Machine_Match_shares_no_thread_witness :
  threadsOk (fst (fromDone (newMachine, (0, 0, false))
                    (Machine_Match asciiExternals 8 machine_abc_xab 1 2
                       (str "xabcab")))).
Proof.
  apply (Machine_Match_shares_no_thread asciiExternals 8 machine_abc_xab
           (fst (fromDone (newMachine, (0, 0, false))
                   (Machine_Match asciiExternals 8 machine_abc_xab 1 2
                      (str "xabcab"))))
           1 2 (str "xabcab")
           (snd (fromDone (newMachine, (0, 0, false))
                   (Machine_Match asciiExternals 8 machine_abc_xab 1 2
                      (str "xabcab"))))).
  - split; [|vm_compute; repeat constructor].
    vm_compute. repeat constructor; simpl; intuition discriminate.
  - vm_compute. reflexivity.
Defined.

(** ** The pooled machines share no thread *)

Lemma poolRemake_store n :
  forall ts m m', poolRemake m ts n = Done m' ->
    exists ths, m' = set_threads m ths
                /\ List.length ths = List.length (m_threads m).
Proof.
  induction ts as [|t ts IH]; intros m m' H; simpl in H.
  - inversion H; subst. exists (m_threads m'). destruct m'; auto.
  - apply bind_Done in H. destruct H as [th [_ H]].
    apply IH in H. destruct H as [ths [-> L]]. exists ths.
    split; [reflexivity|]. rewrite L. simpl. apply length_set_nth.
Qed.

Lemma poolReslice_store n :
  forall ts m m', poolReslice m ts n = Done m' ->
    exists ths, m' = set_threads m ths
                /\ List.length ths = List.length (m_threads m).
Proof.
  induction ts as [|t ts IH]; intros m m' H; simpl in H.
  - inversion H; subst. exists (m_threads m'). destruct m'; auto.
  - apply bind_Done in H. destruct H as [th [_ H]].
    apply bind_Done in H. destruct H as [[c rest] [_ H]].
    apply IH in H. destruct H as [ths [-> L]]. exists ths.
    split; [reflexivity|]. rewrite L. simpl. apply length_set_nth.
Qed.

Lemma unshared_drop (n : nat) (a b c : list nat) :
  unshared n (a ++ b ++ c) -> unshared n (a ++ [] ++ []).
Proof.
  intros H. apply unshared_cnt. intros x.
  pose proof (proj1 (unshared_cnt _ _) H x) as Hx. cnt_simpl. lia.
Qed.

Lemma threadsOk_new : threadsOk newMachine.
Proof. split; constructor. Qed.

Lemma Regexp_Get_own (w w' : World) (re : Regexp) (choice : option nat)
    (id : nat) (m : Machine) :
  poolsOk w ->
  Regexp_Get w re choice = Done (w', (id, m)) ->
  poolsOk w' /\ threadsOk m.
Proof.
  intros Hw H. unfold Regexp_Get in H.
  apply bind_Done in H. destruct H as [pl [Hpl H]].
  destruct (Pool_Get pl choice) as [got pl'] eqn:Hget.
  apply bind_Done in H. destruct H as [pools' [Hup H]].
  apply upd_inv in Hup. destruct Hup as [_ ->].
  destruct (Pool_Get_sub _ _ _ _ Hget) as [Hsub [Hgot _]].
  pose proof (at_In _ _ _ Hpl) as Hin.
  assert (Hw1 : forall pl0 im,
             In pl0 (set_nth (matchPool w) (Z.to_nat (re_mpool re)) pl') ->
             In im pl0 -> threadsOk (snd im)).
  { intros pl0 im H0 H1. apply In_set_nth in H0. destruct H0 as [->|H0].
    - apply (Hw pl im Hin). apply Hsub. exact H1.
    - apply (Hw pl0 im H0 H1). }
  set (m0 := match got with Some im => snd im | None => newMachine end).
  assert (Hm0 : threadsOk m0).
  { unfold m0. destruct got as [im|]; [|apply threadsOk_new].
    apply (Hw pl im Hin). apply Hgot. reflexivity. }
  assert (Hgot' : exists w0 id0,
             match got with
             | Some im => (mkWorld (set_nth (matchPool w)
                                      (Z.to_nat (re_mpool re)) pl')
                             (w_next w), im)
             | None => (mkWorld (set_nth (matchPool w)
                                   (Z.to_nat (re_mpool re)) pl')
                          (S (w_next w)), (w_next w, newMachine))
             end = (w0, (id0, m0))
             /\ matchPool w0
                = set_nth (matchPool w) (Z.to_nat (re_mpool re)) pl').
  { unfold m0. destruct got as [[i1 m1]|]; eexists _, _; split; reflexivity. }
  destruct Hgot' as [w0 [id0 [E Hp0]]]. rewrite E in H. clear E.
  apply bind_Done in H; destruct H as [ma [Ha H]].
  apply bind_Done in H; destruct H as [mb [Hb H]].
  apply bind_Done in H; destruct H as [[mc rest] [Hc H]].
  apply bind_Done in H; destruct H as [n [Hn H]].
  assert (Fa : exists mcap mrest ths,
             ma = mkMachine (Some re) (Some (re_prog re)) (m_q0 m0) (m_q1 m0)
                    (m_pool m0) false mcap mrest 0 ths
             /\ List.length ths = List.length (m_threads m0)).
  { cbn [m_re m_p m_q0 m_q1 m_pool m_matched m_matchcap m_matchcap_rest
          m_accum m_threads] in Ha.
    match type of Ha with
    | (if ?b then _ else _) = _ => destruct b
    end.
    - apply poolRemake_store in Ha. destruct Ha as [ths [-> L]].
      eexists _, _, _. unfold set_threads.
      cbn [m_re m_p m_q0 m_q1 m_pool m_matched m_matchcap m_matchcap_rest
           m_accum m_threads]. split; [reflexivity | exact L].
    - inversion Ha; subst. eexists _, _, _. split; reflexivity. }
  destruct Fa as [mcap [mrest [ths [-> L]]]].
  apply poolReslice_store in Hb. destruct Hb as [ths' [-> L']].
  cbn [set_threads m_matchcap m_matchcap_rest m_re m_p m_q0 m_q1 m_pool
       m_matched m_accum m_threads] in *.
  inversion H; subst. clear H. split.
  - intros pl0 im. rewrite Hp0. apply Hw1.
  - unfold threadsOk, owned in *.
    match goal with
    | |- context [if ?b then _ else _] => destruct b
    end; simpl; rewrite L', L.
    + apply (unshared_drop _ _ _ _ Hm0).
    + exact Hm0.
Qed.

Lemma Regexp_Put_own (w w' : World) (re : Regexp) (id : nat) (m : Machine) :
  poolsOk w -> threadsOk m ->
  Regexp_Put w re (id, m) = Done w' ->
  poolsOk w'.
Proof.
  intros Hw Hm H. unfold Regexp_Put in H.
  apply bind_Done in H. destruct H as [pl [Hpl H]].
  apply bind_Done in H. destruct H as [pools' [Hup H]].
  inversion H; subst w'. clear H.
  apply upd_inv in Hup. destruct Hup as [_ ->].
  pose proof (at_In _ _ _ Hpl) as Hin.
  intros pl0 im H0 H1. cbn [matchPool] in H0.
  apply In_set_nth in H0. destruct H0 as [->|H0];
    [|apply (Hw pl0 im H0 H1)].
  destruct H1 as [<-|H1]; [|apply (Hw pl im Hin H1)].
  cbn [fst snd]. unfold threadsOk, owned in *. destruct m; simpl in *.
  apply unshared_cnt. intros x.
  pose proof (proj1 (unshared_cnt _ _) Hm x) as Hx. cnt_simpl. lia.
Qed.

(** X20. The machines of the pools share no thread, and it stays so:
    [Regexp.Get] hands out a machine in which no thread is twice among
    the free list and the queues, whether the machine is new or taken
    from a pool, and [Regexp.Put] of such a machine leaves every pooled
    machine so. *)
Theorem pools_share_no_thread (w : World) (re : Regexp) :
  poolsOk w ->
  (forall choice w' id m,
      Regexp_Get w re choice = Done (w', (id, m)) ->
      poolsOk w' /\ threadsOk m)
  /\ (forall id m w',
         threadsOk m -> Regexp_Put w re (id, m) = Done w' -> poolsOk w').
Proof.
  intros Hw. split.
  - intros choice w' id m H. apply (Regexp_Get_own w w' re choice id m Hw H).
  - intros id m w' Hm H. apply (Regexp_Put_own w w' re id m Hw Hm H).
Qed.

Lemma pools_share_no_thread_witness :
  (forall choice w' id m,
      Regexp_Get initWorld (perlRegexp prog_abc) choice = Done (w', (id, m)) ->
      poolsOk w' /\ threadsOk m)
  /\ (forall id m w',
         threadsOk m ->
         Regexp_Put initWorld (perlRegexp prog_abc) (id, m) = Done w' ->
         poolsOk w').
Proof.
  apply (pools_share_no_thread initWorld (perlRegexp prog_abc)).
  intros pl im Hpl Him. simpl in Hpl.
  repeat (destruct Hpl as [<-|Hpl]; [destruct Him|]). destruct Hpl.
Defined.

(** ** An expression that matches the empty string *)

Lemma emptyToMatch_pc prog pc : emptyToMatch prog pc -> pc <> 0.
Proof. intros H; destruct H; assumption. Qed.

Lemma followed_mono prog S S' pc :
  (forall x, In x S -> In x S') -> followed prog S pc -> followed prog S' pc.
Proof.
  intros Hsub [i [A [B [C D]]]]. exists i. split; [exact A|].
  split; [exact B|]. split; intros H.
  - destruct (C H); auto.
  - destruct (D H); auto.
Qed.

(** No [InstMatch] is reached from a set of pcs that is closed under
    what [add] goes on with and holds no [InstMatch]. *)
Lemma followed_no_match prog S :
  (forall pc, In pc S -> followed prog S pc) ->
  forall pc, emptyToMatch prog pc -> ~ In pc S.
Proof.
  intros Hcl pc H. induction H as [pc i Hpc Hi Hop | pc i Hpc Hi Hop H IH
                                  | pc i Hpc Hi Hop H IH]; intros Hin.
  - destruct (Hcl pc Hin) as [i' [A [B _]]]. congruence.
  - destruct (Hcl pc Hin) as [i' [A [_ [C _]]]].
    rewrite Hi in A. inversion A; subst i'.
    destruct (C Hop) as [Hz|Ho]; [|exact (IH Ho)].
    apply emptyToMatch_pc in H. contradiction.
  - destruct (Hcl pc Hin) as [i' [A [_ [_ D]]]].
    rewrite Hi in A. inversion A; subst i'.
    destruct (D Hop) as [Hz|Ho]; [|exact (IH Ho)].
    apply emptyToMatch_pc in H. contradiction.
Qed.

Lemma p_setq m q v : m_p (setq m q v) = m_p m.
Proof. destruct q; reflexivity. Qed.

Lemma capWrite_p m c v m' : capWrite m c v = Done m' -> m_p m' = m_p m.
Proof.
  destruct c; simpl; intros H.
  - inversion H; reflexivity.
  - apply bind_Done in H. destruct H as [th [_ H]]. inversion H; reflexivity.
Qed.

Lemma alloc_p m i m' t : alloc m i = Done (m', t) -> m_p m' = m_p m.
Proof.
  unfold alloc. destruct (rev (m_pool m)); intros H.
  - inversion H; reflexivity.
  - apply bind_Done in H. destruct H as [th [_ H]]. inversion H; reflexivity.
Qed.

Lemma map_set_nth_last {A B : Type} (f : A -> B) (l : list A) (a b : A) :
  f a = f b ->
  map f (set_nth (l ++ [a]) (List.length l) b) = map f (l ++ [a]).
Proof.
  intros H. induction l as [|x l IH]; simpl; [rewrite H; reflexivity|].
  rewrite IH. reflexivity.
Qed.

Section NilThreadVisits.

Variable X : Externals.

(** What [add] called with no thread has put on the queue when it
    returns: entries after those that were there, none for an
    [InstMatch], each with what follows it. *)
Lemma add_nil_visits (prog : Prog) :
  forall fuel m q pc pos cap cond m' t',
    m_p m = Some prog ->
    add X fuel m q pc pos cap cond None = Done (m', t') ->
    m_p m' = Some prog
    /\ exists new,
         pcsOf m' q = pcsOf m q ++ new
         /\ (pc <> 0 -> In pc (pcsOf m' q))
         /\ forall pc1, In pc1 new -> followed prog (pcsOf m' q) pc1.
Proof.
  induction fuel as [|fuel IH]; intros m q pc pos cap cond m' t' Hp H;
    [discriminate|].
  simpl in H.
  destruct (Z.eqb_spec pc 0) as [Hz|Hnz].
  { inversion H; subst. split; [exact Hp|]. exists [].
    rewrite app_nil_r. split; [reflexivity|]. split; [contradiction|].
    intros pc1 [] . }
  apply bind_Done in H. destruct H as [j0 [Hj0 H]].
  apply bind_Done in H. destruct H as [present [Hpres H]].
  destruct present.
  { inversion H; subst. split; [exact Hp|]. exists [].
    rewrite app_nil_r. split; [reflexivity|]. split; [|intros pc1 []].
    intros _.
    destruct (j0 <? len (q_dense (getq m' q))); [|discriminate].
    apply bind_Done in Hpres. destruct Hpres as [e [He Hpres]].
    inversion Hpres as [Heq]. apply Z.eqb_eq in Heq.
    unfold pcsOf. rewrite <- Heq. apply in_map. apply (at_In _ _ _ He). }
  match type of H with
  | (if ?c then Panic else _) = _ => destruct c; [discriminate|]
  end.
  apply bind_Done in H. destruct H as [sparse' [Hupd H]].
  set (d := q_dense (getq m q)) in *.
  set (m0 := setq m q (mkQueue sparse' (d ++ [mkEntry pc None]))) in H.
  assert (Q0 : getq m0 q = mkQueue sparse' (d ++ [mkEntry pc None]))
    by apply getq_setq_same.
  assert (Hp0 : m_p m0 = Some prog) by (unfold m0; rewrite p_setq; exact Hp).
  assert (S0 : pcsOf m0 q = pcsOf m q ++ [pc]).
  { unfold pcsOf. rewrite Q0. cbn [q_dense]. rewrite map_app. reflexivity. }
  rewrite Hp0 in H. cbn [deref bind] in H.
  apply bind_Done in H. destruct H as [i [Hi H]].
  (* one step on from [pc]: [add] on [Out i] returns, nothing else *)
  assert (Hout : forall m1,
             Op i <> InstMatch ->
             (Op i = InstAlt \/ Op i = InstAltMatch -> False) ->
             m_p m1 = Some prog ->
             (exists new1, pcsOf m1 q = pcsOf m0 q ++ new1
                /\ (Out i <> 0 -> In (Out i) (pcsOf m1 q))
                /\ forall pc1, In pc1 new1 -> followed prog (pcsOf m1 q) pc1) ->
             m_p m1 = Some prog
             /\ exists new,
                  pcsOf m1 q = pcsOf m q ++ new
                  /\ (pc <> 0 -> In pc (pcsOf m1 q))
                  /\ forall pc1, In pc1 new -> followed prog (pcsOf m1 q) pc1).
  { intros m1 Hop Halt Hp1 [new1 [A [B C]]].
    split; [exact Hp1|]. exists ([pc] ++ new1).
    rewrite A, S0, <- app_assoc. split; [reflexivity|].
    split. { intros _. apply in_or_app. right. left. reflexivity. }
    intros pc1 Hin. rewrite app_assoc, <- S0, <- A.
    destruct Hin as [<-|Hin]; [|exact (C pc1 Hin)].
    exists i. split; [exact Hi|]. split; [exact Hop|]. split.
    - intros _. destruct (Z.eq_dec (Out i) 0); auto.
    - intros Ha. destruct (Halt Ha). }
  assert (Hstop : Op i <> InstMatch ->
                  (Op i = InstNop \/ Op i = InstCapture \/ Op i = InstAlt
                   \/ Op i = InstAltMatch -> False) ->
                  forall m1, m_p m1 = Some prog -> pcsOf m1 q = pcsOf m0 q ->
                  m_p m1 = Some prog
                  /\ exists new,
                       pcsOf m1 q = pcsOf m q ++ new
                       /\ (pc <> 0 -> In pc (pcsOf m1 q))
                       /\ forall pc1, In pc1 new ->
                                      followed prog (pcsOf m1 q) pc1).
  { intros Hop Hno m1 Hp1 Hs. split; [exact Hp1|]. exists [pc].
    rewrite Hs, S0. split; [reflexivity|].
    split. { intros _. apply in_or_app. right. left. reflexivity. }
    intros pc1 [<-|[]]. exists i. split; [exact Hi|]. split; [exact Hop|].
    split; intros Ha; exfalso; apply Hno; tauto. }
  assert (Hrune :
            ('(m1, tid) <- ('(m1, tid) <- alloc m0 pc ;;
                            th <- getThread m1 tid ;;
                            c <- capRead m1 cap ;;
                            Done (putThread m1 tid
                                    (mkThread (t_inst th)
                                       (copy (t_cap th) c)
                                       (t_cap_rest th)), tid)) ;;
             let qu := getq m1 q in
             dense' <- upd (q_dense qu) (len d) (mkEntry pc (Some tid)) ;;
             Done (setq m1 q (mkQueue (q_sparse qu) dense'), None))
            = Done (m', t') ->
            m_p m' = Some prog /\ pcsOf m' q = pcsOf m0 q).
  { clear H IH. intros H.
    apply bind_Done in H. destruct H as [[m1 tid] [H1 H]].
    apply bind_Done in H1. destruct H1 as [[m2 tid2] [H2 H1]].
    apply bind_Done in H1. destruct H1 as [th [_ H1]].
    apply bind_Done in H1. destruct H1 as [c [_ H1]].
    inversion H1; subst m1 tid. clear H1.
    cbv zeta in H. rewrite getq_putThread in H.
    rewrite (alloc_getq _ _ _ _ q H2), Q0 in H.
    cbn [q_dense q_sparse] in H.
    apply bind_Done in H. destruct H as [dense' [Hd H]].
    inversion H; subst m' t'. clear H.
    apply upd_inv in Hd. destruct Hd as [_ ->].
    split.
    - rewrite p_setq. simpl. rewrite (alloc_p _ _ _ _ H2). exact Hp0.
    - unfold pcsOf. rewrite getq_setq_same, Q0. cbn [q_dense].
      unfold len. rewrite Nat2Z.id. apply map_set_nth_last. reflexivity. }
  destruct (Op i) eqn:Hop.
  - (* InstAlt *)
    apply bind_Done in H. destruct H as [[m1 t1] [H1 H]].
    pose proof (add_nil X _ _ _ _ _ _ _ _ _ H1) as [_ ->].
    apply (IH _ _ _ _ _ _ _ _ Hp0) in H1.
    destruct H1 as [Hp1 [new1 [A1 [B1 C1]]]].
    apply (IH _ _ _ _ _ _ _ _ Hp1) in H.
    destruct H as [Hp2 [new2 [A2 [B2 C2]]]].
    split; [exact Hp2|]. exists ([pc] ++ new1 ++ new2).
    assert (E : pcsOf m' q = pcsOf m q ++ [pc] ++ new1 ++ new2).
    { rewrite A2, A1, S0, <- !app_assoc. reflexivity. }
    split; [exact E|].
    split. { intros _. rewrite E. apply in_or_app. right. left. reflexivity. }
    assert (Hsub : forall x, In x (pcsOf m1 q) -> In x (pcsOf m' q)).
    { intros x Hx. rewrite A2. apply in_or_app. auto. }
    intros pc1 Hin. destruct Hin as [<-|Hin].
    + exists i. split; [exact Hi|]. split; [congruence|]. split; intros _.
      * destruct (Z.eq_dec (Out i) 0); auto.
      * destruct (Z.eq_dec (Arg i) 0); auto.
    + cbn [app] in Hin. apply in_app_or in Hin. destruct Hin as [Hin|Hin].
      * apply (followed_mono _ _ _ _ Hsub). exact (C1 pc1 Hin).
      * exact (C2 pc1 Hin).
  - (* InstAltMatch *)
    apply bind_Done in H. destruct H as [[m1 t1] [H1 H]].
    pose proof (add_nil X _ _ _ _ _ _ _ _ _ H1) as [_ ->].
    apply (IH _ _ _ _ _ _ _ _ Hp0) in H1.
    destruct H1 as [Hp1 [new1 [A1 [B1 C1]]]].
    apply (IH _ _ _ _ _ _ _ _ Hp1) in H.
    destruct H as [Hp2 [new2 [A2 [B2 C2]]]].
    split; [exact Hp2|]. exists ([pc] ++ new1 ++ new2).
    assert (E : pcsOf m' q = pcsOf m q ++ [pc] ++ new1 ++ new2).
    { rewrite A2, A1, S0, <- !app_assoc. reflexivity. }
    split; [exact E|].
    split. { intros _. rewrite E. apply in_or_app. right. left. reflexivity. }
    assert (Hsub : forall x, In x (pcsOf m1 q) -> In x (pcsOf m' q)).
    { intros x Hx. rewrite A2. apply in_or_app. auto. }
    intros pc1 Hin. destruct Hin as [<-|Hin].
    + exists i. split; [exact Hi|]. split; [congruence|]. split; intros _.
      * destruct (Z.eq_dec (Out i) 0); auto.
      * destruct (Z.eq_dec (Arg i) 0); auto.
    + cbn [app] in Hin. apply in_app_or in Hin. destruct Hin as [Hin|Hin].
      * apply (followed_mono _ _ _ _ Hsub). exact (C1 pc1 Hin).
      * exact (C2 pc1 Hin).
  - (* InstCapture *)
    apply bind_Done in H. destruct H as [c [_ H]].
    match type of H with
    | (if ?b then _ else _) = _ => destruct b
    end.
    + apply bind_Done in H. destruct H as [opos [_ H]].
      apply bind_Done in H. destruct H as [c' [_ H]].
      apply bind_Done in H. destruct H as [m1 [H1 H]].
      apply bind_Done in H. destruct H as [[m2 t2] [H2 H]].
      apply bind_Done in H. destruct H as [c2 [_ H]].
      apply bind_Done in H. destruct H as [c2' [_ H]].
      apply bind_Done in H. destruct H as [m3 [H3 H]].
      inversion H; subst m' t'. clear H.
      assert (Hp1 : m_p m1 = Some prog)
        by (rewrite (capWrite_p _ _ _ _ H1); exact Hp0).
      apply (IH _ _ _ _ _ _ _ _ Hp1) in H2.
      destruct H2 as [Hp2 [new1 [A [B C]]]].
      assert (G1 : pcsOf m1 q = pcsOf m0 q)
        by (unfold pcsOf; rewrite (capWrite_getq _ _ _ _ q H1); reflexivity).
      assert (G3 : pcsOf m3 q = pcsOf m2 q)
        by (unfold pcsOf; rewrite (capWrite_getq _ _ _ _ q H3); reflexivity).
      apply (Hout m3); try congruence.
      * intros [|]; congruence.
      * rewrite (capWrite_p _ _ _ _ H3). exact Hp2.
      * exists new1. rewrite G3, <- G1. auto.
    + apply (IH _ _ _ _ _ _ _ _ Hp0) in H.
      destruct H as [Hp1 Hn]. apply (Hout m'); try congruence.
      intros [|]; congruence.
  - (* InstEmptyWidth *)
    destruct (lazyFlag_match _ _ _).
    + apply (IH _ _ _ _ _ _ _ _ Hp0) in H.
      destruct H as [Hp1 [new1 [A [B C]]]].
      split; [exact Hp1|]. exists ([pc] ++ new1).
      rewrite A, S0, <- app_assoc. split; [reflexivity|].
      split. { intros _. apply in_or_app. right. left. reflexivity. }
      intros pc1 Hin. rewrite app_assoc, <- S0, <- A.
      destruct Hin as [<-|Hin]; [|exact (C pc1 Hin)].
      exists i. split; [exact Hi|]. split; [congruence|].
      split; intros Ha; exfalso; intuition congruence.
    + inversion H; subst m' t'. apply Hstop; auto; try congruence.
      intuition congruence.
  - (* InstMatch: [t.cap] with [t] nil *)
    apply bind_Done in H. destruct H as [re [_ H]]. discriminate.
  - (* InstFail *)
    inversion H; subst m' t'. apply Hstop; auto; try congruence.
    intuition congruence.
  - (* InstNop *)
    apply (IH _ _ _ _ _ _ _ _ Hp0) in H.
    destruct H as [Hp1 Hn]. apply (Hout m'); try congruence.
    intros [|]; congruence.
  - apply Hrune in H. destruct H as [A B].
    apply Hstop; auto; try congruence. intuition congruence.
  - apply Hrune in H. destruct H as [A B].
    apply Hstop; auto; try congruence. intuition congruence.
  - apply Hrune in H. destruct H as [A B].
    apply Hstop; auto; try congruence. intuition congruence.
  - apply Hrune in H. destruct H as [A B].
    apply Hstop; auto; try congruence. intuition congruence.
Qed.

(** [add] called with no thread on an empty queue does not return when
    the program matches the empty string from [pc]. *)
Lemma add_nil_empty_match (prog : Prog) fuel m q pc pos cap cond m' t' :
  m_p m = Some prog -> q_dense (getq m q) = [] ->
  emptyToMatch prog pc ->
  add X fuel m q pc pos cap cond None <> Done (m', t').
Proof.
  intros Hp Hq Hreach H.
  apply (add_nil_visits prog) in H; [|exact Hp].
  destruct H as [_ [new [A [B C]]]].
  unfold pcsOf at 2 in A. rewrite Hq in A. simpl in A.
  pose proof (emptyToMatch_pc _ _ Hreach) as Hpc.
  apply (followed_no_match prog (pcsOf m' q)) in Hreach.
  - apply Hreach. apply B. exact Hpc.
  - intros pc1 Hin. apply C. rewrite <- A. exact Hin.
Qed.

End NilThreadVisits.

(** X21. A machine gets no result for an expression that matches the
    empty string: when [InstMatch] is reached from the start of the
    program through [Nop], [Capture] and [Alt] instructions only, the
    first [Machine.Match] on a machine as [Regexp.Get] returns it (run
    queue empty, [matched] false; no prefix, not the condition that can
    never hold) does not return, whatever the input: [add] is called
    with a nil thread and its case [InstMatch] reads [t.cap]. *)
Theorem Machine_Match_empty_expression (X : Externals) (m : Machine)
    (re : Regexp) (prog : Prog) :
  m_re m = Some re -> m_p m = Some prog ->
  m_matched m = false -> q_dense (m_q0 m) = [] ->
  re_cond re <> EmptyAll -> re_prefix re = [] ->
  emptyToMatch prog (Start prog mod 2 ^ 32) ->
  forall fuel index offset buf m' r,
    Machine_Match X fuel m index offset buf <> Done (m', r).
Proof.
  intros Hre Hp Hm Hq Hcond Hpre Hreach fuel index offset buf m' r H.
  unfold Machine_Match in H.
  apply bind_Done in H. destruct H as [[m1 [[idx off] ok]] [H _]].
  unfold match_ in H. rewrite Hre in H. cbn [deref bind] in H.
  destruct (Z.eqb_spec (re_cond re) EmptyAll); [contradiction|].
  apply bind_Done in H. destruct H as [[r0 w0] [_ H]].
  apply bind_Done in H. destruct H as [[r1 w1] [_ H]].
  apply bind_Done in H. destruct H as [flag [_ H]].
  destruct fuel as [|steps]; [discriminate|].
  cbn [matchLoop l_runq l_offset getq] in H.
  rewrite Hq in H. change (len (@nil entry) =? 0) with true in H.
  cbv iota in H. rewrite Hm, Hre in H. cbn [deref bind] in H.
  rewrite Hpre in H. change (len (@nil byte) =? 0) with true in H.
  cbn [orb] in H.
  unfold weave in H. rewrite Hm in H. cbn [negb l_runq l_index l_offset] in H.
  apply bind_Done in H. destruct H as [m2 [H2 _]].
  apply bind_Done in H2. destruct H2 as [m3 [H3 H2]].
  assert (F : m_p m3 = Some prog /\ q_dense (getq m3 Q0) = []).
  { destruct (0 <? len (m_matchcap m)).
    - apply bind_Done in H3. destruct H3 as [mc [_ H3]].
      inversion H3; subst. auto.
    - inversion H3; subst. auto. }
  destruct F as [Fp Fq]. rewrite Fp in H2. cbn [deref bind] in H2.
  apply bind_Done in H2. destruct H2 as [[m4 t4] [H4 _]].
  exact (add_nil_empty_match X prog _ _ _ _ _ _ _ _ _ Fp Fq Hreach H4).
Qed.

Lemma Machine_Match_empty_expression_witness :
  emptyToMatch prog_a_star (Start prog_a_star mod 2 ^ 32)
  /\ forall fuel index offset buf m' r,
       Machine_Match asciiExternals fuel
         (fromDone newMachine (freshMachine (perlRegexp prog_a_star)))
         index offset buf <> Done (m', r).
Proof.
  assert (H : emptyToMatch prog_a_star (Start prog_a_star mod 2 ^ 32)).
  { apply (toMatch_arg prog_a_star 2 (iAlt 1 3)).
    - discriminate.
    - reflexivity.
    - left. reflexivity.
    - apply (toMatch_here prog_a_star 3 iMatch).
      + discriminate.
      + reflexivity.
      + reflexivity. }
  split; [exact H|].
  apply (Machine_Match_empty_expression asciiExternals
           (fromDone newMachine (freshMachine (perlRegexp prog_a_star)))
           (perlRegexp prog_a_star) prog_a_star).
  - reflexivity.
  - reflexivity.
  - reflexivity.
  - reflexivity.
  - vm_compute. discriminate.
  - reflexivity.
  - exact H.
Defined.

(** ** Behind a capture *)

(** X22. Behind a capture that is recorded no match is found: [add] goes
    on from an [InstCapture] whose index is within [cap] with a nil
    thread, so that when it returns [matched] is as it was and the thread
    it was given is handed back.  A match reached through such a capture
    is not recorded by that call. *)
Theorem add_behind_capture (X : Externals) (fuel : nat) (m m' : Machine)
    (q : qsel) (pc pos : Z) (cap : capref) (cond : Z) (t t' : option nat)
    (prog : Prog) (i : Inst) (c : list Z) :
  m_p m = Some prog -> at_ (Insts prog) pc = Done i ->
  Op i = InstCapture ->
  capRead m cap = Done c -> Arg i < len c ->
  add X fuel m q pc pos cap cond t = Done (m', t') ->
  m_matched m' = m_matched m /\ t' = t.
Proof.
  intros Hp Hi Hop Hc Harg H.
  destruct fuel as [|fuel]; [discriminate|].
  simpl in H.
  destruct (pc =? 0); [inversion H; auto|].
  apply bind_Done in H. destruct H as [j [_ H]].
  apply bind_Done in H. destruct H as [present [_ H]].
  destruct present; [inversion H; auto|].
  destruct (_ <? _); [discriminate|].
  apply bind_Done in H. destruct H as [sparse' [_ H]].
  set (m0 := setq m q _) in H.
  assert (Hp0 : m_p m0 = Some prog) by (unfold m0; rewrite p_setq; exact Hp).
  assert (Hc0 : capRead m0 cap = Done c).
  { rewrite <- Hc. unfold m0. destruct cap, q; reflexivity. }
  rewrite Hp0 in H. cbn [deref bind] in H. rewrite Hi in H.
  cbn [bind] in H. rewrite Hop, Hc0 in H. cbn [bind] in H.
  destruct (Z.ltb_spec (Arg i) (len c)); [|lia].
  apply bind_Done in H. destruct H as [opos [_ H]].
  apply bind_Done in H. destruct H as [c' [_ H]].
  apply bind_Done in H. destruct H as [m1 [H1 H]].
  apply bind_Done in H. destruct H as [[m2 t2] [H2 H]].
  apply bind_Done in H. destruct H as [c2 [_ H]].
  apply bind_Done in H. destruct H as [c2' [_ H]].
  apply bind_Done in H. destruct H as [m3 [H3 H]].
  inversion H; subst m' t'. clear H.
  apply capWrite_matched in H1, H3. apply add_nil in H2.
  destruct H2 as [A _]. split; [|reflexivity].
  rewrite H3, A, H1. unfold m0. apply matched_setq.
Qed.

Lemma add_behind_capture_witness :
  m_matched
    (fst (fromDone (newMachine, None)
            (add asciiExternals 8 machine_a_group Q0 1 0 CapMachine 0 None)))
  = m_matched machine_a_group
  /\ snd (fromDone (newMachine, None)
            (add asciiExternals 8 machine_a_group Q0 1 0 CapMachine 0 None))
     = None.
Proof.
  apply (add_behind_capture asciiExternals 8 machine_a_group
           (fst (fromDone (newMachine, None)
                   (add asciiExternals 8 machine_a_group Q0 1 0 CapMachine
                      0 None)))
           Q0 1 0 CapMachine 0 None
           (snd (fromDone (newMachine, None)
                   (add asciiExternals 8 machine_a_group Q0 1 0 CapMachine
                      0 None)))
           prog_a_group (mkInst InstCapture 2 2 []) [0; 0; 0; 0]).
  - reflexivity.
  - reflexivity.
  - reflexivity.
  - reflexivity.
  - vm_compute. reflexivity.
  - vm_compute. reflexivity.
Defined.
